(** * subprocess.hpp: descriptors, pipes, processes and command pipelines

    A shallow embedding of [include/subprocess/subprocess.hpp].  The C++
    objects live in an explicit store ([world]): descriptors are shared
    through [std::shared_ptr] and pipe ends point at each other, so they
    are heap cells addressed by number; processes are cells of a second
    arena.  Every member function is a computation in the monad [M],
    which threads the store and the state of the operating system and
    ends in a value, a thrown exception or undefined behaviour. *)

From Stdlib Require Import ZArith Lia.
From stdpp Require Import base option list strings pretty gmap.

Local Open Scope string_scope.

(** ** Exceptions (namespace [exceptions]) *)

Inductive exn :=
| usage_error (what : string)
| os_error (what : list string) (errc : Z)
| command_error (what : list string) (code : Z).

(** ** Constants of the system headers (Linux values of <fcntl.h>,
       <errno.h> and <wordexp.h>) *)

Definition O_RDONLY : Z := 0.
Definition O_WRONLY : Z := 1.
Definition O_CREAT : Z := 64.
Definition O_TRUNC : Z := 512.
Definition O_APPEND : Z := 1024.
Definition EMFILE : Z := 24.
Definition WRDE_BADCHAR : Z := 2.

(** [WEXITSTATUS(s)] is [(s & 0xff00) >> 8]. *)
Definition WEXITSTATUS (s : Z) : Z := Z.shiftr (Z.land s 65280) 8.

(** ** Descriptor objects *)

(** A pointer to a descriptor: either a complete object in the heap, or
    the pipe member ([input_pipe_] / [output_pipe_]) of the buffer
    descriptor stored in that cell. *)
Inductive ptr := Whole (a : nat) | Member (a : nat).

(** The [ipipe_descriptor] / [opipe_descriptor] member of a buffer
    descriptor. *)
Record subpipe := { sub_fd_ : Z; sub_linked_fd_ : option ptr }.

(** The dynamic class of a descriptor object with the data members the
    class adds to [descriptor::fd_]. *)
Inductive dclass :=
| Descriptor
| Odescriptor
| Idescriptor
| Ofile_descriptor (path_ : string) (mode_ : Z)
| Ifile_descriptor (path_ : string) (mode_ : Z)
| Opipe_descriptor (linked_fd_ : option ptr)
| Ipipe_descriptor (linked_fd_ : option ptr)
| Ovariable_descriptor (linked_fd_ : option ptr) (output_ : nat) (input_pipe_ : subpipe)
| Ivariable_descriptor (linked_fd_ : option ptr) (input_ : string) (output_pipe_ : subpipe).

Record dobj := { fd_ : Z; cls : dclass }.

(** [descriptor::closable] with its overriders [odescriptor::closable]
    and [idescriptor::closable]; the file classes inherit the overrider
    of their [odescriptor] / [idescriptor] base. *)
Definition closable (d : dobj) : bool :=
  match cls d with
  | Descriptor => false
  | _ => (0 <=? fd_ d)%Z
  end.

Definition member_of (c : dclass) : option subpipe :=
  match c with
  | Ovariable_descriptor _ _ s | Ivariable_descriptor _ _ s => Some s
  | _ => None
  end.

Definition with_member_fd (v : Z) (c : dclass) : dclass :=
  match c with
  | Ovariable_descriptor l o s =>
      Ovariable_descriptor l o {| sub_fd_ := v; sub_linked_fd_ := sub_linked_fd_ s |}
  | Ivariable_descriptor l i s =>
      Ivariable_descriptor l i {| sub_fd_ := v; sub_linked_fd_ := sub_linked_fd_ s |}
  | _ => c
  end.

(** ** Spawn file actions *)

Inductive file_action := AddDup2 (fd_from fd_to : Z) | AddClose (fd : Z).

Record posix_spawn_file_actions :=
  { actions_ : list file_action; closed_fds_ : gset Z }.

(** ** Processes and commands *)

Record posix_process := {
  cmd_ : string;
  stdin_fd_ : nat;
  stdout_fd_ : nat;
  stderr_fd_ : nat;
  pid_ : option Z
}.

(** [std::list<process_t>], as handles into the arena of processes. *)
Record command := { processes_ : list nat }.

(** ** The operating system *)

Inductive fd_entry :=
| FdInherited
| FdFile (path : string) (mode : Z)
| FdPipeRead (pipe_id : nat)
| FdPipeWrite (pipe_id : nat).

(** What the kernel answers to one [::read] of at most 2048 bytes and to
    one [::write]. *)
Inductive read_result := RdData (s : string) | RdErr (e : Z).
Inductive write_result := WrLen (n : Z) | WrErr (e : Z).

Inductive spawn_result := SpawnErr (err : Z) | Spawned (waitstatus : Z).

(** System calls and member-function calls, in the order they happen.
    [EvClose who fd] is [::close(fd)] issued by the descriptor [who]. *)
Inductive event :=
| EvOpen (path : string) (mode : Z) (res : Z)
| EvPipe (res : option (Z * Z))
| EvClose (who : ptr) (fd : Z)
| EvRead (fd : Z) (len : Z)
| EvWrite (fd : Z) (len : Z)
| EvWordexp (s : string) (res : Z)
| EvSpawn (argv : list string) (acts : list file_action) (err pid : Z)
| EvWaitpid (pid : Z) (res : Z)
| EvExecute (p : nat)
| EvExecuted (p : nat)
| EvWait (p : nat).

(** The behaviour of the environment, fixed during a run: the limit on
    open descriptors ([RLIMIT_NOFILE], which is also [OPEN_MAX]), the
    number of bytes a new pipe takes before a [::write] to it blocks,
    which files can be opened, what [wordexp] makes of a string (its
    return code and the [we_wordv] it leaves, [None] for a null pointer)
    and what becomes of a spawned program. *)
Record os_env := {
  fd_limit : nat;
  pipe_capacity : Z;
  open_errno : string → Z → option Z;
  wordexp_of : string → Z * option (list string);
  spawnp_of : list string → list file_action → spawn_result
}.

Record world := World {
  fdtab : list (option fd_entry);
  npipes : nat;
  reads : list read_result;
  writes : list write_result;
  children : list (Z * Z);
  next_pid : Z;
  errno : Z;
  trace : list event;
  heap : list dobj;
  vars : list string;
  procs : list posix_process
}.

Definition set_fdtab (x : list (option fd_entry)) (w : world) : world :=
  World x (npipes w) (reads w) (writes w) (children w) (next_pid w) (errno w)
        (trace w) (heap w) (vars w) (procs w).
Definition set_npipes (x : nat) (w : world) : world :=
  World (fdtab w) x (reads w) (writes w) (children w) (next_pid w) (errno w)
        (trace w) (heap w) (vars w) (procs w).
Definition set_reads (x : list read_result) (w : world) : world :=
  World (fdtab w) (npipes w) x (writes w) (children w) (next_pid w) (errno w)
        (trace w) (heap w) (vars w) (procs w).
Definition set_writes (x : list write_result) (w : world) : world :=
  World (fdtab w) (npipes w) (reads w) x (children w) (next_pid w) (errno w)
        (trace w) (heap w) (vars w) (procs w).
Definition set_children (x : list (Z * Z)) (w : world) : world :=
  World (fdtab w) (npipes w) (reads w) (writes w) x (next_pid w) (errno w)
        (trace w) (heap w) (vars w) (procs w).
Definition set_next_pid (x : Z) (w : world) : world :=
  World (fdtab w) (npipes w) (reads w) (writes w) (children w) x (errno w)
        (trace w) (heap w) (vars w) (procs w).
Definition set_errno (x : Z) (w : world) : world :=
  World (fdtab w) (npipes w) (reads w) (writes w) (children w) (next_pid w) x
        (trace w) (heap w) (vars w) (procs w).
Definition set_trace (x : list event) (w : world) : world :=
  World (fdtab w) (npipes w) (reads w) (writes w) (children w) (next_pid w) (errno w)
        x (heap w) (vars w) (procs w).
Definition set_heap (x : list dobj) (w : world) : world :=
  World (fdtab w) (npipes w) (reads w) (writes w) (children w) (next_pid w) (errno w)
        (trace w) x (vars w) (procs w).
Definition set_vars (x : list string) (w : world) : world :=
  World (fdtab w) (npipes w) (reads w) (writes w) (children w) (next_pid w) (errno w)
        (trace w) (heap w) x (procs w).
Definition set_procs (x : list posix_process) (w : world) : world :=
  World (fdtab w) (npipes w) (reads w) (writes w) (children w) (next_pid w) (errno w)
        (trace w) (heap w) (vars w) x.

(** ** The monad of member functions *)

Inductive outcome (A : Type) :=
| Ret (a : A)
| Throw (e : exn)
| Undef.
Arguments Ret {A} a.
Arguments Throw {A} e.
Arguments Undef {A}.

Definition M (A : Type) : Type := world → outcome A * world.

#[global] Instance M_ret : MRet M := λ A a w, (Ret a, w).
#[global] Instance M_bind : MBind M := λ A B k m w,
  match m w with
  | (Ret a, w1) => k a w1
  | (Throw e, w1) => (Throw e, w1)
  | (Undef, w1) => (Undef, w1)
  end.

Definition gets {A} (f : world → A) : M A := λ w, (Ret (f w), w).
Definition modify (f : world → world) : M unit := λ w, (Ret tt, f w).
Definition throw {A} (e : exn) : M A := λ w, (Throw e, w).
Definition undefined {A} : M A := λ w, (Undef, w).
Definition log (e : event) : M unit := modify (λ w, set_trace (trace w ++ [e]) w).

(** An exception object that is constructed and dropped: nothing is
    thrown. *)
Definition discard (e : exn) : M unit := mret tt.

(** *** Memory *)

Definition load (a : nat) : M dobj := λ w,
  match heap w !! a with
  | Some d => (Ret d, w)
  | None => (Undef, w)
  end.

Definition store (a : nat) (d : dobj) : M unit :=
  modify (λ w, set_heap (<[a := d]> (heap w)) w).

(** [make_descriptor<T>(...)]: a new cell at the end of the heap. *)
Definition make_descriptor (mk : nat → dobj) : M nat := λ w,
  let a := length (heap w) in (Ret a, set_heap (heap w ++ [mk a]) w).

(** [p->fd()] and [p->fd_ = v]. *)
Definition get_fd (p : ptr) : M Z :=
  match p with
  | Whole a => d ← load a; mret (fd_ d)
  | Member a =>
      d ← load a;
      match member_of (cls d) with
      | Some s => mret (sub_fd_ s)
      | None => undefined
      end
  end.

Definition set_fd (p : ptr) (v : Z) : M unit :=
  match p with
  | Whole a => d ← load a; store a {| fd_ := v; cls := cls d |}
  | Member a =>
      d ← load a;
      match member_of (cls d) with
      | Some _ => store a {| fd_ := fd_ d; cls := with_member_fd v (cls d) |}
      | None => undefined
      end
  end.

(** [p->closable()]: the member pipes are plain pipe ends. *)
Definition closable_at (p : ptr) : M bool :=
  match p with
  | Whole a => d ← load a; mret (closable d)
  | Member _ => fd ← get_fd p; mret (0 <=? fd)%Z
  end.

(** Assignment through the [std::string&] held by an output buffer. *)
Definition assign_var (i : nat) (s : string) : M unit := λ w,
  if (i <? length (vars w))%nat
  then (Ret tt, set_vars (<[i := s]> (vars w)) w)
  else (Undef, w).

Definition get_process (p : nat) : M posix_process := λ w,
  match procs w !! p with
  | Some x => (Ret x, w)
  | None => (Undef, w)
  end.

Definition put_process (p : nat) (x : posix_process) : M unit :=
  modify (λ w, set_procs (<[p := x]> (procs w)) w).

(** ** System calls *)

(** The kernel hands out the lowest free descriptor. *)
Fixpoint lowest_free (t : list (option fd_entry)) : nat :=
  match t with
  | Some _ :: t' => S (lowest_free t')
  | _ => 0
  end.

Definition fd_install (n : nat) (e : fd_entry) (t : list (option fd_entry))
  : list (option fd_entry) :=
  if (n <? length t)%nat then <[n := Some e]> t else t ++ [Some e].

Definition fd_release (fd : Z) (t : list (option fd_entry)) : list (option fd_entry) :=
  if (fd <? 0)%Z then t else <[Z.to_nat fd := None]> t.

(** [while ((len = ::read(fd, buf, 2048)) > 0) output.append(buf, len);]
    run against the answers the kernel will give: the string read, the
    last [len], the answers left and the calls made.  With no answer
    left the read end is at end of file. *)
Fixpoint read_loop (fd : Z) (script : list read_result) (output : string)
  : string * Z * Z * list read_result * list event :=
  match script with
  | [] => (output, 0%Z, 0%Z, [], [EvRead fd 0])
  | RdData s :: rest =>
      let len := Z.of_nat (String.length s) in
      if (0 <? len)%Z
      then let '(o, l, e, r, evs) := read_loop fd rest (output +:+ s) in
           (o, l, e, r, EvRead fd len :: evs)
      else (output, 0%Z, 0%Z, rest, [EvRead fd 0])
  | RdErr e :: rest => (output, (-1)%Z, e, rest, [EvRead fd (-1)])
  end.

(** [while (total > 0)] of [odescriptor::write]: [None] when the loop
    ends, [Some errno] when a [::write] fails.  With no answer left the
    kernel takes all that remains. *)
Fixpoint write_loop (fd : Z) (script : list write_result) (total : Z)
  : option Z * list write_result * list event :=
  if (total <=? 0)%Z then (None, script, []) else
  match script with
  | [] => (None, [], [EvWrite fd total])
  | WrLen n :: rest =>
      let len := Z.max 0 (Z.min n total) in
      let '(r, s, evs) := write_loop fd rest (total - len) in
      (r, s, EvWrite fd len :: evs)
  | WrErr e :: rest => (Some e, rest, [EvWrite fd (-1)])
  end.

Definition lookup_child (pid : Z) (cs : list (Z * Z)) : option Z :=
  snd <$> List.find (λ c, (fst c =? pid)%Z) cs.

Definition remove_child (pid : Z) (cs : list (Z * Z)) : list (Z * Z) :=
  List.filter (λ c, negb (fst c =? pid)%Z) cs.

Section WithEnvironment.

Variable E : os_env.

(** [::open(path, mode)]: the new descriptor, or -1 with [errno] set. *)
Definition sys_open (path : string) (mode : Z) : M Z := λ w,
  let n := lowest_free (fdtab w) in
  match open_errno E path mode with
  | Some e => (Ret (-1)%Z, set_trace (trace w ++ [EvOpen path mode (-1)]) (set_errno e w))
  | None =>
      if (n <? fd_limit E)%nat
      then (Ret (Z.of_nat n),
            set_trace (trace w ++ [EvOpen path mode (Z.of_nat n)])
              (set_fdtab (fd_install n (FdFile path mode) (fdtab w)) w))
      else (Ret (-1)%Z, set_trace (trace w ++ [EvOpen path mode (-1)]) (set_errno EMFILE w))
  end.

(** The two descriptors [::pipe] would return, if the limit allows. *)
Definition pipe_fds (w : world) : option (nat * nat) :=
  let r := lowest_free (fdtab w) in
  let wr := lowest_free (fd_install r (FdPipeRead (npipes w)) (fdtab w)) in
  if (wr <? fd_limit E)%nat then Some (r, wr) else None.

(** [::pipe(fd.data())]: [Some (fd[0], fd[1])] when it returns 0. *)
Definition sys_pipe : M (option (Z * Z)) := λ w,
  match pipe_fds w with
  | Some (r, wr) =>
      let res := Some (Z.of_nat r, Z.of_nat wr) in
      (Ret res,
       set_trace (trace w ++ [EvPipe res])
         (set_npipes (S (npipes w))
            (set_fdtab (fd_install wr (FdPipeWrite (npipes w))
                          (fd_install r (FdPipeRead (npipes w)) (fdtab w))) w)))
  | None => (Ret None, set_trace (trace w ++ [EvPipe None]) (set_errno EMFILE w))
  end.

(** [::close(fd)]; its result is never looked at. *)
Definition sys_close (who : ptr) (fd : Z) : M unit :=
  modify (λ w, set_trace (trace w ++ [EvClose who fd])
                 (set_fdtab (fd_release fd (fdtab w)) w)).

(** [::wordexp(s, &parsed_args_, 0)]. *)
Definition sys_wordexp (s : string) : M (Z * option (list string)) :=
  let r := wordexp_of E s in
  log (EvWordexp s (fst r));; mret r.

(** [::posix_spawnp(&pid, file, actions, nullptr, argv, nullptr)]: the
    error code and the value left in [pid]. *)
Definition sys_posix_spawnp (argv : list string) (acts : list file_action) : M (Z * Z) := λ w,
  match spawnp_of E argv acts with
  | SpawnErr err => (Ret (err, 0%Z), set_trace (trace w ++ [EvSpawn argv acts err 0]) w)
  | Spawned ws =>
      let pid := next_pid w in
      (Ret (0%Z, pid),
       set_trace (trace w ++ [EvSpawn argv acts 0 pid])
         (set_next_pid (pid + 1)%Z (set_children ((pid, ws) :: children w) w)))
  end.

(** [::waitpid(pid, &waitstatus, 0)] on [int waitstatus{}]: the value of
    [waitstatus] afterwards.  A child is reaped once; without such a
    child the call fails and leaves the zero. *)
Definition sys_waitpid (pid : Z) : M Z := λ w,
  match lookup_child pid (children w) with
  | Some ws =>
      (Ret ws, set_trace (trace w ++ [EvWaitpid pid pid])
                 (set_children (remove_child pid (children w)) w))
  | None => (Ret 0%Z, set_trace (trace w ++ [EvWaitpid pid (-1)]) w)
  end.

(** ** Member functions of the descriptor classes *)

(** [odescriptor::write]; the kernel leaves its error code in [errno]. *)
Definition odescriptor_write (this : ptr) (input : string) : M unit :=
  fd ← get_fd this;
  r ←
    (λ w, let '(r, s, evs) := write_loop fd (writes w) (Z.of_nat (String.length input)) in
          (Ret r,
           set_trace (trace w ++ evs) (set_writes s (set_errno (default (errno w) r) w))));
  match r with
  | None => mret tt
  | Some _ => e ← gets errno; throw (os_error ["write"] e)
  end.

(** [odescriptor::close] *)
Definition odescriptor_close (this : ptr) : M unit :=
  c ← closable_at this;
  if c : bool then fd ← get_fd this; sys_close this fd;; set_fd this (-1) else mret tt.

(** [idescriptor::close] *)
Definition idescriptor_close (this : ptr) : M unit :=
  c ← closable_at this;
  if c : bool then fd ← get_fd this; sys_close this fd;; set_fd this (-1) else mret tt.

(** [idescriptor::read]: on a failed [::read] the exception is built
    and dropped, and what was read so far is returned. *)
Definition idescriptor_read (this : ptr) : M string :=
  fd ← get_fd this;
  '(output, len) ←
    (λ w, let '(o, l, e, r, evs) := read_loop fd (reads w) "" in
          (Ret (o, l),
           set_trace (trace w ++ evs)
             (set_reads r (set_errno (if (l <? 0)%Z then e else errno w) w))));
  (if (len <? 0)%Z then e ← gets errno; discard (os_error ["read"] e) else mret tt);;
  mret output.

(** [file_descriptor::open] *)
Definition file_descriptor_open (this : nat) (path_ : string) (mode_ : Z) : M unit :=
  d ← load this;
  if (0 <? fd_ d)%Z then mret tt else
  fd ← sys_open path_ mode_;
  if (0 <=? fd)%Z then set_fd (Whole this) fd
  else e ← gets errno; throw (os_error ["open"; path_] e).

(** [linked_fd_->fd_ = v]: a null [linked_fd_] is dereferenced. *)
Definition set_linked_fd (linked_fd_ : option ptr) (v : Z) : M unit :=
  match linked_fd_ with
  | Some q => set_fd q v
  | None => undefined
  end.

(** [opipe_descriptor::open] *)
Definition opipe_descriptor_open (this : nat) (linked_fd_ : option ptr) : M unit :=
  c ← closable_at (Whole this);
  if c : bool then mret tt else
  r ← sys_pipe;
  match r with
  | None => e ← gets errno; throw (os_error ["pipe"] e)
  | Some (fd0, fd1) => set_linked_fd linked_fd_ fd0;; set_fd (Whole this) fd1
  end.

(** [ipipe_descriptor::open] *)
Definition ipipe_descriptor_open (this : nat) (linked_fd_ : option ptr) : M unit :=
  c ← closable_at (Whole this);
  if c : bool then mret tt else
  r ← sys_pipe;
  match r with
  | None => e ← gets errno; throw (os_error ["pipe"] e)
  | Some (fd0, fd1) => set_fd (Whole this) fd0;; set_linked_fd linked_fd_ fd1
  end.

(** [ovariable_descriptor::close], with [ovariable_descriptor::read]
    ([output_ = input_pipe_.read()]) in its place. *)
Definition ovariable_descriptor_close (this : nat) (output_ : nat) : M unit :=
  c ← closable_at (Whole this);
  if negb c then mret tt else
  odescriptor_close (Whole this);;
  s ← idescriptor_read (Member this);
  assign_var output_ s;;
  idescriptor_close (Member this);;
  set_fd (Whole this) (-1).

(** [ivariable_descriptor::open], with [ivariable_descriptor::write]
    ([output_pipe_.write(input_)]) in its place. *)
Definition ivariable_descriptor_open (this : nat) (linked_fd_ : option ptr) (input_ : string)
  : M unit :=
  c ← closable_at (Whole this);
  if c : bool then mret tt else
  ipipe_descriptor_open this linked_fd_;;
  odescriptor_write (Member this) input_;;
  odescriptor_close (Member this).

(** The virtual call [fd->open()]. *)
Definition descriptor_open (a : nat) : M unit :=
  d ← load a;
  match cls d with
  | Descriptor | Odescriptor | Idescriptor => mret tt
  | Ofile_descriptor p m | Ifile_descriptor p m => file_descriptor_open a p m
  | Opipe_descriptor l => opipe_descriptor_open a l
  | Ipipe_descriptor l => ipipe_descriptor_open a l
  | Ovariable_descriptor l _ _ => opipe_descriptor_open a l
  | Ivariable_descriptor l i _ => ivariable_descriptor_open a l i
  end.

(** The virtual call [fd->close()]. *)
Definition descriptor_close (a : nat) : M unit :=
  d ← load a;
  match cls d with
  | Descriptor => mret tt
  | Odescriptor | Ofile_descriptor _ _ | Opipe_descriptor _ => odescriptor_close (Whole a)
  | Idescriptor | Ifile_descriptor _ _ | Ipipe_descriptor _ | Ivariable_descriptor _ _ _ =>
      idescriptor_close (Whole a)
  | Ovariable_descriptor _ o _ => ovariable_descriptor_close a o
  end.

End WithEnvironment.

(** ** Pipe pairs *)

Definition pipe_linked (c : dclass) : option (option ptr) :=
  match c with
  | Opipe_descriptor l | Ipipe_descriptor l
  | Ovariable_descriptor l _ _ | Ivariable_descriptor l _ _ => Some l
  | _ => None
  end.

Definition with_linked (l : option ptr) (c : dclass) : dclass :=
  match c with
  | Opipe_descriptor _ => Opipe_descriptor l
  | Ipipe_descriptor _ => Ipipe_descriptor l
  | Ovariable_descriptor _ o s => Ovariable_descriptor l o s
  | Ivariable_descriptor _ i s => Ivariable_descriptor l i s
  | _ => c
  end.

(** [fd.linked_fd_ = &other] *)
Definition set_linked (a : nat) (other : nat) : M unit :=
  d ← load a; store a {| fd_ := fd_ d; cls := with_linked (Some (Whole other)) (cls d) |}.

Definition link_message : string :=
  "You tried to link a file descriptor that is already linked to another file descriptor!".

(** [link(ipipe_descriptor& fd1, opipe_descriptor& fd2)]; the types
    make both arguments pipe ends. *)
Definition link (fd1 fd2 : nat) : M unit :=
  d1 ← load fd1;
  d2 ← load fd2;
  match pipe_linked (cls d1), pipe_linked (cls d2) with
  | Some l1, Some l2 =>
      if bool_decide (l1 ≠ None) || bool_decide (l2 ≠ None)
      then throw (usage_error link_message)
      else set_linked fd1 fd2;; set_linked fd2 fd1
  | _, _ => undefined
  end.

Definition new_ipipe (_ : nat) : dobj := {| fd_ := -1; cls := Ipipe_descriptor None |}.
Definition new_opipe (_ : nat) : dobj := {| fd_ := -1; cls := Opipe_descriptor None |}.

(** [create_pipe] *)
Definition create_pipe : M (nat * nat) :=
  read_fd ← make_descriptor new_ipipe;
  write_fd ← make_descriptor new_opipe;
  link read_fd write_fd;;
  mret (read_fd, write_fd).

(** The constructors of the file and buffer descriptors. *)
Definition new_ofile (path : string) (mode : Z) (_ : nat) : dobj :=
  {| fd_ := -1; cls := Ofile_descriptor path (Z.lor O_WRONLY mode) |}.
Definition new_ifile (path : string) (mode : Z) (_ : nat) : dobj :=
  {| fd_ := -1; cls := Ifile_descriptor path (Z.lor O_RDONLY mode) |}.
Definition new_ovariable (output_var : nat) (this : nat) : dobj :=
  {| fd_ := -1;
     cls := Ovariable_descriptor (Some (Member this)) output_var
              {| sub_fd_ := -1; sub_linked_fd_ := None |} |}.
Definition new_ivariable (input_data : string) (this : nat) : dobj :=
  {| fd_ := -1;
     cls := Ivariable_descriptor (Some (Member this)) input_data
              {| sub_fd_ := -1; sub_linked_fd_ := None |} |}.

(** The cached instances behind [std_in()], [std_out()], [std_err()]. *)
Definition std_in : nat := 0.
Definition std_out : nat := 1.
Definition std_err : nat := 2.

Definition standard_heap : list dobj :=
  [ {| fd_ := 0; cls := Descriptor |};
    {| fd_ := 1; cls := Descriptor |};
    {| fd_ := 2; cls := Descriptor |} ].

(** ** [posix_util::posix_spawn_file_actions] *)

Definition new_actions : posix_spawn_file_actions :=
  {| actions_ := []; closed_fds_ := ∅ |}.

(** A descriptor number that [posix_spawn_file_actions_adddup2] and
    [..._addclose] accept: not negative and below [OPEN_MAX].  For any
    other they return [EBADF] and add nothing. *)
Definition spawn_valid_fd (open_max : nat) (fd : Z) : bool :=
  (0 <=? fd)%Z && (fd <? Z.of_nat open_max)%Z.

Definition adddup2 (open_max : nat) (fd newfd : Z) (acts : list file_action)
  : list file_action :=
  if spawn_valid_fd open_max fd && spawn_valid_fd open_max newfd
  then acts ++ [AddDup2 fd newfd] else acts.
Definition addclose (open_max : nat) (fd : Z) (acts : list file_action)
  : list file_action :=
  if spawn_valid_fd open_max fd then acts ++ [AddClose fd] else acts.

Section SpawnActions.

Variable E : os_env.

(** [posix_spawn_file_actions::dup]; the result of
    [posix_spawn_file_actions_adddup2] is ignored. *)
Definition actions_dup (action : posix_spawn_file_actions) (fd_from : nat) (fd_to : Z)
  : M posix_spawn_file_actions :=
  fd ← get_fd (Whole fd_from);
  mret {| actions_ := adddup2 (fd_limit E) fd fd_to (actions_ action);
          closed_fds_ := closed_fds_ action |}.

(** [posix_spawn_file_actions::close]; the result of
    [posix_spawn_file_actions_addclose] is ignored and the descriptor
    is entered in [closed_fds_] in any case. *)
Definition actions_close (action : posix_spawn_file_actions) (fd : nat)
  : M posix_spawn_file_actions :=
  c ← closable_at (Whole fd);
  v ← get_fd (Whole fd);
  if c && negb (bool_decide (v ∈ closed_fds_ action))
  then mret {| actions_ := addclose (fd_limit E) v (actions_ action);
               closed_fds_ := {[ v ]} ∪ closed_fds_ action |}
  else mret action.

End SpawnActions.

(** ** [posix_process] *)

Definition posix_process_new (cmd : string) : M nat := λ w,
  let p := length (procs w) in
  (Ret p, set_procs (procs w ++ [ {| cmd_ := cmd; stdin_fd_ := std_in;
                                     stdout_fd_ := std_out; stderr_fd_ := std_err;
                                     pid_ := None |} ]) w).

(** [in(descriptor_ptr&&)], [out(descriptor_ptr&&)], [err(descriptor_ptr&&)],
    [out(err_t)] and [err(out_t)]. *)
Definition process_in (p fd : nat) : M unit :=
  x ← get_process p;
  put_process p {| cmd_ := cmd_ x; stdin_fd_ := fd; stdout_fd_ := stdout_fd_ x;
                   stderr_fd_ := stderr_fd_ x; pid_ := pid_ x |}.
Definition process_out (p fd : nat) : M unit :=
  x ← get_process p;
  put_process p {| cmd_ := cmd_ x; stdin_fd_ := stdin_fd_ x; stdout_fd_ := fd;
                   stderr_fd_ := stderr_fd_ x; pid_ := pid_ x |}.
Definition process_err (p fd : nat) : M unit :=
  x ← get_process p;
  put_process p {| cmd_ := cmd_ x; stdin_fd_ := stdin_fd_ x; stdout_fd_ := stdout_fd_ x;
                   stderr_fd_ := fd; pid_ := pid_ x |}.
Definition process_out_err (p : nat) : M unit :=
  x ← get_process p; process_out p (stderr_fd_ x).
Definition process_err_out (p : nat) : M unit :=
  x ← get_process p; process_err p (stdout_fd_ x).

Definition wait_message : string :=
  "posix_process.wait() called before posix_process.execute()".

Section Process.

Variable E : os_env.

(** The lambda [process_fds] of [execute]. *)
Definition process_fds (action : posix_spawn_file_actions) (fd : nat) (dup_to : Z)
  : M posix_spawn_file_actions :=
  descriptor_open E fd;; actions_dup E action fd dup_to.

(** [shell_expander sh{cmd_}]: the result of [::wordexp] is dropped and
    [argv()] is the [we_wordv] it left. *)
Definition shell_expander (s : string) : M (option (list string)) :=
  r ← sys_wordexp E s; mret (snd r).

(** [sh.argv()[0]] as the [file] of [posix_spawnp]: reading through a
    null [we_wordv], or handing over the null that ends an empty vector,
    is undefined. *)
Definition argv0 (sh : option (list string)) : M (string * list string) :=
  match sh with
  | Some (file :: args) => mret (file, file :: args)
  | _ => undefined
  end.

(** [posix_process::execute], first part: expansion, the three
    [process_fds] and the three [action.close]. *)
Definition execute_actions (x : posix_process)
  : M (option (list string) * posix_spawn_file_actions) :=
  sh ← shell_expander (cmd_ x);
  action ← process_fds new_actions (stdin_fd_ x) 0;
  action ← process_fds action (stdout_fd_ x) 1;
  action ← process_fds action (stderr_fd_ x) 2;
  action ← actions_close E action (stdin_fd_ x);
  action ← actions_close E action (stdout_fd_ x);
  action ← actions_close E action (stderr_fd_ x);
  mret (sh, action).

(** [posix_process::execute], second part: the spawn and [pid_ = pid]. *)
Definition execute_spawn (p : nat) (sh : option (list string))
    (action : posix_spawn_file_actions) : M unit :=
  '(file, argv) ← argv0 sh;
  '(err, pid) ← sys_posix_spawnp E argv (actions_ action);
  if bool_decide (err ≠ 0%Z) then throw (os_error ["posix_spawnp:"; file] err) else
  x ← get_process p;
  put_process p {| cmd_ := cmd_ x; stdin_fd_ := stdin_fd_ x; stdout_fd_ := stdout_fd_ x;
                   stderr_fd_ := stderr_fd_ x; pid_ := Some pid |}.

(** [posix_process::execute] up to the return of [posix_spawnp] and
    the assignment to [pid_]; the result is the process as it was. *)
Definition execute_spawned (p : nat) : M posix_process :=
  log (EvExecute p);;
  x ← get_process p;
  '(sh, action) ← execute_actions x;
  execute_spawn p sh action;;
  mret x.

(** [posix_process::execute], last part: the three [close] calls. *)
Definition execute_close (x : posix_process) : M unit :=
  descriptor_close (stdin_fd_ x);;
  descriptor_close (stdout_fd_ x);;
  descriptor_close (stderr_fd_ x).

(** [posix_process::execute] *)
Definition execute (p : nat) : M unit :=
  x ← execute_spawned p;
  execute_close x;;
  log (EvExecuted p).

(** [posix_process::wait] *)
Definition wait (p : nat) : M Z :=
  log (EvWait p);;
  x ← get_process p;
  match pid_ x with
  | None => throw (usage_error wait_message)
  | Some pid => waitstatus ← sys_waitpid pid; mret (WEXITSTATUS waitstatus)
  end.

(** ** [command] *)

Definition command_new (cmd : string) : M command :=
  p ← posix_process_new cmd; mret {| processes_ := [p] |}.

(** The two loops of [command::run(std::nothrow_t)]. *)
Fixpoint execute_all (ps : list nat) : M unit :=
  match ps with
  | [] => mret tt
  | p :: ps' => execute p;; execute_all ps'
  end.

Fixpoint wait_all (ps : list nat) (waitstatus : Z) : M Z :=
  match ps with
  | [] => mret waitstatus
  | p :: ps' => s ← wait p; wait_all ps' s
  end.

(** [command::run(std::nothrow_t)] *)
Definition run_nothrow (c : command) : M Z :=
  execute_all (processes_ c);;
  wait_all (processes_ c) 0.

(** [command::run()] *)
Definition run (c : command) : M Z :=
  status ← run_nothrow c;
  if bool_decide (status ≠ 0%Z)
  then throw (command_error ["command exitstatus"; pretty status] status)
  else mret status.

End Process.

(** [processes_.front()] and [processes_.back()] *)
Definition front (c : command) : M nat :=
  match processes_ c with
  | p :: _ => mret p
  | [] => undefined
  end.
Definition back (c : command) : M nat :=
  match last (processes_ c) with
  | Some p => mret p
  | None => undefined
  end.

(** [command::operator|(command&&)] *)
Definition command_pipe (c other : command) : M command :=
  '(read_fd, write_fd) ← create_pipe;
  f ← front other;
  process_in f read_fd;;
  b ← back c;
  process_out b write_fd;;
  mret {| processes_ := processes_ c ++ processes_ other |}.

(** [command::operator|(std::string)] *)
Definition command_pipe_string (c : command) (other : string) : M command :=
  o ← command_new other; command_pipe c o.

(** [operator<(command&, descriptor_ptr)] and the other redirections to
    a descriptor or a tag. *)
Definition op_lt_descriptor (c : command) (fd : nat) : M command :=
  f ← front c; process_in f fd;; mret c.
Definition op_gt_err (c : command) : M command :=
  b ← back c; process_out_err b;; mret c.
Definition op_gt_descriptor (c : command) (fd : nat) : M command :=
  b ← back c; process_out b fd;; mret c.
Definition op_ge_out (c : command) : M command :=
  b ← back c; process_err_out b;; mret c.
Definition op_ge_descriptor (c : command) (fd : nat) : M command :=
  b ← back c; process_err b fd;; mret c.

(** [operator>>(command&, descriptor_ptr)] and [operator>>=]. *)
Definition op_shr_descriptor (c : command) (fd : nat) : M command :=
  op_gt_descriptor c fd.
Definition op_shreq_descriptor (c : command) (fd : nat) : M command :=
  op_ge_descriptor c fd.

(** The redirections to a [std::string&]. *)
Definition op_ge_string (c : command) (output : nat) : M command :=
  fd ← make_descriptor (new_ovariable output); op_ge_descriptor c fd.
Definition op_gt_string (c : command) (output : nat) : M command :=
  fd ← make_descriptor (new_ovariable output); op_gt_descriptor c fd.
Definition op_lt_string (c : command) (input : string) : M command :=
  fd ← make_descriptor (new_ivariable input); op_lt_descriptor c fd.

(** The redirections to a [std::filesystem::path]. *)
Definition op_gt_path (c : command) (file_name : string) : M command :=
  fd ← make_descriptor (new_ofile file_name (Z.lor O_CREAT O_TRUNC)); op_gt_descriptor c fd.
Definition op_ge_path (c : command) (file_name : string) : M command :=
  fd ← make_descriptor (new_ofile file_name (Z.lor O_CREAT O_TRUNC)); op_ge_descriptor c fd.
Definition op_shr_path (c : command) (file_name : string) : M command :=
  fd ← make_descriptor (new_ofile file_name (Z.lor O_CREAT O_APPEND)); op_shr_descriptor c fd.
Definition op_shreq_path (c : command) (file_name : string) : M command :=
  fd ← make_descriptor (new_ofile file_name (Z.lor O_CREAT O_APPEND)); op_shreq_descriptor c fd.
Definition op_lt_path (c : command) (file_name : string) : M command :=
  fd ← make_descriptor (new_ofile file_name 0); op_lt_descriptor c fd.

(** ** A concrete environment, for running the definitions *)

Definition demo_wordexp (s : string) : Z * option (list string) :=
  if String.eqb s "false" then (0%Z, Some ["false"])
  else if String.eqb s "true" then (0%Z, Some ["true"])
  else if String.eqb s "cat" then (0%Z, Some ["cat"])
  else if String.eqb s "echo hello" then (0%Z, Some ["echo"; "hello"])
  else (WRDE_BADCHAR, None).

Definition demo_spawnp (argv : list string) (acts : list file_action) : spawn_result :=
  match argv with
  | prog :: _ =>
      if String.eqb prog "false" then Spawned 256
      else if String.eqb prog "true" then Spawned 0
      else if String.eqb prog "cat" then Spawned 0
      else if String.eqb prog "echo" then Spawned 0
      else SpawnErr 2
  | [] => SpawnErr 2
  end.

Definition demo_env : os_env :=
  {| fd_limit := 1024;
     pipe_capacity := 65536;
     open_errno := λ _ _, None;
     wordexp_of := demo_wordexp;
     spawnp_of := demo_spawnp |}.

(** A parent with the three standard streams open and nothing else. *)
Definition demo_world : world :=
  {| fdtab := [Some FdInherited; Some FdInherited; Some FdInherited];
     npipes := 0; reads := []; writes := []; children := []; next_pid := 100;
     errno := 0; trace := []; heap := standard_heap; vars := [""]; procs := [] |}.

Local Open Scope nat_scope.
Local Open Scope list_scope.

(** ** Concrete runs in that environment *)

(** [command{"cat"} < std::filesystem::path{"in.txt"}], followed by the
    [open] that [execute] makes on the stdin of the process: the class of
    the descriptor in the stdin slot. *)
Definition redirect_stdin_path_run : M dclass :=
  c ← command_new "cat";
  c ← op_lt_path c "in.txt";
  p ← front c;
  x ← get_process p;
  d ← load (stdin_fd_ x);
  descriptor_open demo_env (stdin_fd_ x);;
  mret (cls d).

(** [(command{"cat"} > output).run(std::nothrow)], with [output] the
    string variable 0. *)
Definition capture_run : M Z :=
  c ← command_new "cat";
  c ← op_gt_string c 0;
  run_nothrow demo_env c.

(** The first [::read] of the parent returns three bytes, the second
    fails with [EIO]. *)
Definition failing_read_world : world := set_reads [RdData "par"; RdErr 5] demo_world.

(** A command with an unquoted [|], which [wordexp] rejects. *)
Definition bad_command_run : M Z :=
  c ← command_new "ls | wc";
  run_nothrow demo_env c.

(** A parent that was started with its standard input closed. *)
Definition stdin_closed_world : world :=
  set_fdtab [None; Some FdInherited; Some FdInherited] demo_world.

(** [open] twice on an output file, with [fd()] after each. *)
Definition reopen_run : M (Z * Z) :=
  fd ← make_descriptor (new_ofile "out.txt" 0);
  descriptor_open demo_env fd;;
  before ← get_fd (Whole fd);
  descriptor_open demo_env fd;;
  after ← get_fd (Whole fd);
  mret (before, after).

(** [(command{"false"} | "true").run(std::nothrow)], and its parts. *)
Definition false_true_run : M Z :=
  a ← command_new "false";
  c ← command_pipe_string a "true";
  run_nothrow demo_env c.

Definition false_true_command : command := {| processes_ := [0; 1] |}.
Definition false_true_world : world :=
  ((a ← command_new "false"; command_pipe_string a "true") demo_world).2.
Definition false_true_final : world :=
  (run_nothrow demo_env false_true_command false_true_world).2.

(** [command{"cat"} < input > output >= out], before and after the
    [execute] of its process. *)
Definition cat_world : world :=
  ((a ← command_new "cat"; a ← op_lt_string a "hi"; a ← op_gt_string a 0; op_ge_out a)
     (set_reads [RdData "hi"] demo_world)).2.
Definition cat_executed : world := (execute demo_env 0 cat_world).2.

Definition cat_process : posix_process :=
  {| cmd_ := "cat"; stdin_fd_ := 3; stdout_fd_ := 4; stderr_fd_ := 4; pid_ := None |}.
Definition cat_actions : posix_spawn_file_actions :=
  {| actions_ := [AddDup2 3 0; AddDup2 5 1; AddDup2 5 2; AddClose 3; AddClose 5];
     closed_fds_ := {[ 5%Z ]} ∪ ({[ 3%Z ]} ∪ ∅) |}.
Definition cat_prepared : world := (execute_actions demo_env cat_process cat_world).2.

(** Two fresh pipe ends that nobody linked. *)
Definition unlinked_world : world :=
  set_heap (standard_heap ++ [new_ipipe 3; new_opipe 4]) demo_world.

(** The same two ends after [link]. *)
Definition linked_world : world := (link 3 4 unlinked_world).2.

(** A process for [false]: as constructed, and after [execute] and one
    [wait]. *)
Definition false_process : posix_process :=
  {| cmd_ := "false"; stdin_fd_ := 0; stdout_fd_ := 1; stderr_fd_ := 2; pid_ := None |}.
Definition false_world : world := (posix_process_new "false" demo_world).2.
Definition false_waited : world := ((execute demo_env 0;; wait 0) false_world).2.

(** * Properties of traces and worlds *)

(** What the preparation of a spawn may do: no descriptor object closes
    its own descriptor, only the pipe member of an input buffer does. *)
Definition prep_event (e : event) : Prop :=
  match e with
  | EvOpen _ _ _ | EvPipe _ | EvWrite _ _ | EvWordexp _ _ | EvClose (Member _) _ => True
  | _ => False
  end.

(** What [close] on the descriptor in cell [a] may do. *)
Definition close_event (a : nat) (e : event) : Prop :=
  match e with
  | EvRead _ _ => True
  | EvClose (Whole b) _ | EvClose (Member b) _ => b = a
  | _ => False
  end.

(** [w'] is [w] after more events, all in [P]. *)
Definition trace_ext (P : event → Prop) (w w' : world) : Prop :=
  ∃ evs, trace w' = trace w ++ evs ∧ Forall P evs.

(** The same, the processes are untouched, and of the heap only the
    cells in [C] may have changed. *)
Definition quiet (P : event → Prop) (C : nat → Prop) (w w' : world) : Prop :=
  procs w' = procs w ∧ trace_ext P w w' ∧
  length (heap w') = length (heap w) ∧
  ∀ b, ¬ C b → heap w' !! b = heap w !! b.

(** No restriction on the cells that change. *)
Definition any_cell (b : nat) : Prop := True.

(** Every run of [m] relates the world before to the world after. *)
Definition steps {A} (R : relation world) (m : M A) : Prop :=
  ∀ w, R w (m w).2.

(** The heap cell a pointer points into. *)
Definition cell_of (p : ptr) : nat :=
  match p with Whole a | Member a => a end.

(** The [::close] calls that the descriptor object in cell [a] issued. *)
Definition closes_by (a : nat) (t : list event) : list Z :=
  omap (λ e, match e with
             | EvClose (Whole b) fd => if (b =? a)%nat then Some fd else None
             | _ => None
             end) t.

(** [e] is no [::close] issued by the descriptor object in cell [a]. *)
Definition not_closed_by (a : nat) (e : event) : Prop :=
  match e with
  | EvClose (Whole b) _ => b ≠ a
  | _ => True
  end.

(** The calls of [execute] and [wait] in a trace. *)
Definition is_call (e : event) : bool :=
  match e with
  | EvExecute _ | EvWait _ => true
  | _ => false
  end.

Definition calls (t : list event) : list event := List.filter is_call t.

Definition no_call (e : event) : Prop := is_call e = false.

(** Events that are no call marker and no [::close] by a descriptor
    object itself. *)
Definition spawn_event (e : event) : Prop := no_call e ∧ ∀ a, not_closed_by a e.

(** Between [w] and [w'] the descriptor in cell [a] was closed: it is
    closed in [w'], and if it was open in [w] its descriptor went through
    exactly one [::close] in its name. *)
Definition closed_in (a : nat) (w w' : world) : Prop :=
  ∃ d d' evs,
    heap w !! a = Some d ∧ heap w' !! a = Some d' ∧ closable d' = false ∧
    (closable d = true → fd_ d' = (-1)%Z) ∧
    (closable d = false → d' = d) ∧
    trace w' = trace w ++ evs ∧
    closes_by a evs = (if closable d then [fd_ d] else []).

(** Between [w] and [w'] nothing happened to the descriptor in cell [a]. *)
Definition untouched (a : nat) (w w' : world) : Prop :=
  heap w' !! a = heap w !! a ∧ ∃ evs, trace w' = trace w ++ evs ∧ closes_by a evs = [].

(** The process [x] after [pid_ = pid]. *)
Definition with_pid (x : posix_process) (pid : Z) : posix_process :=
  {| cmd_ := cmd_ x; stdin_fd_ := stdin_fd_ x; stdout_fd_ := stdout_fd_ x;
     stderr_fd_ := stderr_fd_ x; pid_ := Some pid |}.

(** [m] never ends in an exception. *)
Definition no_throw {A} (m : M A) : Prop := ∀ w e, (m w).1 ≠ Throw e.

(** The descriptors that an action list closes in the child. *)
Definition close_fds (acts : list file_action) : list Z :=
  omap (λ a, match a with AddClose f => Some f | _ => None end) acts.

(** How many close actions the list holds for the descriptor [f]. *)
Definition close_count (f : Z) (acts : list file_action) : nat :=
  length (filter (λ g, g = f) (close_fds acts)).

(** No descriptor has two close actions, and the descriptors with a
    close action are those of the builder's set that
    [posix_spawn_file_actions_addclose] accepts. *)
Definition actions_wf (open_max : nat) (action : posix_spawn_file_actions) : Prop :=
  NoDup (close_fds (actions_ action)) ∧
  ∀ f, f ∈ close_fds (actions_ action) ↔
       f ∈ closed_fds_ action ∧ spawn_valid_fd open_max f = true.

(** The world after a [::pipe] that returned the descriptors [r], [wr]. *)
Definition after_pipe (r wr : nat) (w : world) : world :=
  set_trace (trace w ++ [EvPipe (Some (Z.of_nat r, Z.of_nat wr))])
    (set_npipes (S (npipes w))
       (set_fdtab (fd_install wr (FdPipeWrite (npipes w))
                     (fd_install r (FdPipeRead (npipes w)) (fdtab w))) w)).

(** A pointer that can be written through. *)
Definition ptr_live (q : ptr) (w : world) : Prop :=
  match q with
  | Whole b => is_Some (heap w !! b)
  | Member b => ∃ d, heap w !! b = Some d ∧ is_Some (member_of (cls d))
  end.

(** The pipe ends in cells [fd1] (read) and [fd2] (write) of [w'] hold
    the two descriptors of the pipe numbered [k]. *)
Definition one_pipe (fd1 fd2 : nat) (k : nat) (w' : world) : Prop :=
  ∃ (r wr : Z) c1 c2,
    (0 ≤ r)%Z ∧ (0 ≤ wr)%Z ∧
    heap w' !! fd1 = Some {| fd_ := r; cls := c1 |} ∧
    heap w' !! fd2 = Some {| fd_ := wr; cls := c2 |} ∧
    fdtab w' !! Z.to_nat r = Some (Some (FdPipeRead k)) ∧
    fdtab w' !! Z.to_nat wr = Some (Some (FdPipeWrite k)).

(** [wait] does not answer with the usage error. *)
Definition wait_accepted (p : nat) (w : world) : Prop :=
  (wait p w).1 ≠ Throw (usage_error wait_message).

(** "[wait] is valid iff [execute] has succeeded and [wait] has not
    been called before", read off the trace of the world. *)
Definition wait_valid_as_claimed (p : nat) (w : world) : Prop :=
  wait_accepted p w ↔ (EvExecuted p ∈ trace w ∧ EvWait p ∉ trace w).

(** * Further properties: definitions *)

(** What draining a read end collects: the chunks the kernel hands out,
    up to the first empty read or the first failure. *)
Fixpoint drained (script : list read_result) : string :=
  match script with
  | RdData s :: rest =>
      if (0 <? Z.of_nat (String.length s))%Z then s +:+ drained rest else ""
  | _ => ""
  end.

(** The number of bytes the kernel accepted in the [::write] calls of a
    trace. *)
Fixpoint written (evs : list event) : Z :=
  match evs with
  | EvWrite _ len :: evs' => (Z.max 0 len + written evs')%Z
  | _ :: evs' => written evs'
  | [] => 0%Z
  end.

(** A file class with its path and flags. *)
Definition file_class (c : dclass) : option (string * Z) :=
  match c with
  | Ofile_descriptor p m | Ifile_descriptor p m => Some (p, m)
  | _ => None
  end.

(** [flag] is set in [mode]. *)
Definition has_flag (flag mode : Z) : Prop := Z.land mode flag = flag.

(** The OS errors of the [open] functions, and those of [execute]. *)
Definition prepare_error (e : exn) : Prop :=
  ∃ n, e = os_error ["pipe"] n ∨ e = os_error ["write"] n ∨
       ∃ path, e = os_error ["open"; path] n.

Definition execute_error (e : exn) : Prop :=
  prepare_error e ∨ ∃ file n, e = os_error ["posix_spawnp:"; file] n ∧ n ≠ 0%Z.

(** Every exception [m] can end in is in [P]. *)
Definition throws_only {A} (P : exn → Prop) (m : M A) : Prop :=
  ∀ w e, (m w).1 = Throw e → P e.

(** The process [p] exists and has a [pid_]. *)
Definition has_pid (p : nat) (w : world) : Prop :=
  ∃ x, procs w !! p = Some x ∧ is_Some (pid_ x).

(** The process [x] after [in(fd)], [out(fd)] and [err(fd)]. *)
Definition with_in (x : posix_process) (fd : nat) : posix_process :=
  {| cmd_ := cmd_ x; stdin_fd_ := fd; stdout_fd_ := stdout_fd_ x;
     stderr_fd_ := stderr_fd_ x; pid_ := pid_ x |}.
Definition with_out (x : posix_process) (fd : nat) : posix_process :=
  {| cmd_ := cmd_ x; stdin_fd_ := stdin_fd_ x; stdout_fd_ := fd;
     stderr_fd_ := stderr_fd_ x; pid_ := pid_ x |}.
Definition with_err (x : posix_process) (fd : nat) : posix_process :=
  {| cmd_ := cmd_ x; stdin_fd_ := stdin_fd_ x; stdout_fd_ := stdout_fd_ x;
     stderr_fd_ := fd; pid_ := pid_ x |}.

(** The two ends that [create_pipe] makes in the cells [r] and [wr]. *)
Definition linked_pair (r wr : nat) : list dobj :=
  [ {| fd_ := -1; cls := Ipipe_descriptor (Some (Whole wr)) |};
    {| fd_ := -1; cls := Opipe_descriptor (Some (Whole r)) |} ].

(** The targets of the dup2 actions of a list, and the two kinds of
    action; a dup2 action is only ever added for an open descriptor. *)
Definition dup_targets (acts : list file_action) : list Z :=
  omap (λ a, match a with AddDup2 _ t => Some t | _ => None end) acts.

Definition is_dup (a : file_action) : Prop :=
  match a with AddDup2 f _ => (0 ≤ f)%Z | _ => False end.

Definition is_close (a : file_action) : Prop :=
  match a with AddClose _ => True | _ => False end.

(** ** More concrete worlds *)

(** [cat] with both buffers open, and after the [close] of its output
    buffer. *)
Definition cat_closed : world := (descriptor_close 4 cat_prepared).2.

(** An output file for [out.txt] that has not been opened. *)
Definition file_world : world :=
  (make_descriptor (new_ofile "out.txt" (Z.lor O_CREAT O_TRUNC)) demo_world).2.

(** [false] after its [execute]. *)
Definition false_executed : world := (execute demo_env 0 false_world).2.

(** The command [false] and the world after its [run()]. *)
Definition false_command : command := {| processes_ := [0] |}.
Definition false_run : world := (run demo_env false_command false_world).2.

(** The kernel takes two bytes in the first [::write]. *)
Definition short_write_world : world := set_writes [WrLen 2] demo_world.

(** The processes of [false] and [true], not yet piped. *)
Definition true_process : posix_process :=
  {| cmd_ := "true"; stdin_fd_ := 0; stdout_fd_ := 1; stderr_fd_ := 2; pid_ := None |}.
Definition true_command : command := {| processes_ := [1] |}.
Definition two_commands_world : world := (posix_process_new "true" false_world).2.



(** * Reasoning about computations *)

Lemma bind_unfold {A B} (m : M A) (k : A → M B) w :
  (m ≫= k) w = match m w with
               | (Ret a, w1) => k a w1
               | (Throw e, w1) => (Throw e, w1)
               | (Undef, w1) => (Undef, w1)
               end.
Proof. reflexivity. Qed.

Lemma bind_ret_inv {A B} (m : M A) (k : A → M B) w b w' :
  (m ≫= k) w = (Ret b, w') → ∃ a w1, m w = (Ret a, w1) ∧ k a w1 = (Ret b, w').
Proof.
  rewrite bind_unfold. destruct (m w) as [[a|e|] w1]; [eauto | discriminate..].
Qed.

(** Split a bind that returned, at its outermost [≫=]. *)
Tactic Notation "bind_inv" hyp(H) "as" simple_intropattern(pat) :=
  match type of H with
  | (?m ≫= ?k) ?w = (Ret ?b, ?w') => apply (bind_ret_inv m k w b w') in H as pat
  end.

Lemma bind_ret_eq {A B} (m : M A) (k : A → M B) w a w1 :
  m w = (Ret a, w1) → (m ≫= k) w = k a w1.
Proof. intros H. by rewrite bind_unfold, H. Qed.

Lemma any_cell_holds b : any_cell b.
Proof. exact I. Qed.

#[local] Instance trace_ext_preorder P : PreOrder (trace_ext P).
Proof.
  split.
  - intros w. exists []. by rewrite app_nil_r.
  - intros w1 w2 w3 (e1 & Ht1 & Hf1) (e2 & Ht2 & Hf2).
    exists (e1 ++ e2). split; [by rewrite Ht2, Ht1, app_assoc | by apply Forall_app].
Qed.

#[local] Instance quiet_preorder P C : PreOrder (quiet P C).
Proof.
  split.
  - intros w. split_and!; [done | reflexivity | done | done].
  - intros w1 w2 w3 (Hp1 & H1 & Hl1 & Hh1) (Hp2 & H2 & Hl2 & Hh2).
    split_and!; [congruence | by etrans | congruence |].
    intros b Hb. by rewrite Hh2, Hh1.
Qed.

Lemma trace_ext_mono (P Q : event → Prop) w w' :
  (∀ e, P e → Q e) → trace_ext P w w' → trace_ext Q w w'.
Proof.
  intros HPQ (evs & Ht & Hf). exists evs. split; [done|]. eapply Forall_impl; eauto.
Qed.

Lemma quiet_same P C w w' :
  procs w' = procs w → trace w' = trace w → heap w' = heap w → quiet P C w w'.
Proof.
  intros Hp Ht Hh. split_and!; [done| |by rewrite Hh|by rewrite Hh].
  exists []. by rewrite app_nil_r.
Qed.

Lemma quiet_events P C w w' evs :
  procs w' = procs w → trace w' = trace w ++ evs → Forall P evs → heap w' = heap w →
  quiet P C w w'.
Proof. intros Hp Ht Hf Hh. split_and!; [done| |by rewrite Hh|by rewrite Hh]. by exists evs. Qed.

Lemma steps_weaken {A} (R R' : relation world) (m : M A) :
  (∀ w w', R w w' → R' w w') → steps R m → steps R' m.
Proof. intros HR Hm w. apply HR, Hm. Qed.

Lemma steps_mono {A} (P Q : event → Prop) (C D : nat → Prop) (m : M A) :
  (∀ e, P e → Q e) → (∀ b, C b → D b) → steps (quiet P C) m → steps (quiet Q D) m.
Proof.
  intros HPQ HCD. apply steps_weaken. intros w w' (Hp & Ht & Hl & Hh).
  split_and!; [done| |done|].
  - eapply trace_ext_mono; eauto.
  - intros b Hb. apply Hh. eauto.
Qed.

Lemma steps_trace {A} (P Q : event → Prop) C (m : M A) :
  (∀ e, P e → Q e) → steps (quiet P C) m → steps (trace_ext Q) m.
Proof.
  intros HPQ. apply steps_weaken. intros w w' (Hp & Ht & _). eapply trace_ext_mono; eauto.
Qed.

Section Steps.
Context (R : relation world) `{!PreOrder R}.

Lemma steps_bind {A B} (m : M A) (k : A → M B) :
  steps R m → (∀ a, steps R (k a)) → steps R (m ≫= k).
Proof.
  intros Hm Hk w. rewrite bind_unfold. specialize (Hm w).
  destruct (m w) as [[a|e|] w1]; simpl in *; [|done..].
  etrans; [exact Hm | apply Hk].
Qed.

Lemma steps_ret {A} (a : A) : steps R (mret a).
Proof. intros w. simpl. reflexivity. Qed.
Lemma steps_throw {A} e : steps R (@throw A e).
Proof. intros w. simpl. reflexivity. Qed.
Lemma steps_undefined {A} : steps R (@undefined A).
Proof. intros w. simpl. reflexivity. Qed.
Lemma steps_gets {A} (f : world → A) : steps R (gets f).
Proof. intros w. simpl. reflexivity. Qed.
Lemma steps_discard e : steps R (discard e).
Proof. intros w. simpl. reflexivity. Qed.
Lemma steps_load a : steps R (load a).
Proof. intros w. unfold load. destruct (heap w !! a); simpl; reflexivity. Qed.
Lemma steps_get_process p : steps R (get_process p).
Proof. intros w. unfold get_process. destruct (procs w !! p); simpl; reflexivity. Qed.
End Steps.

Lemma steps_store P (C : nat → Prop) a d : C a → steps (quiet P C) (store a d).
Proof.
  intros Ha w. split_and!; [done| |apply length_insert|].
  - exists []. simpl. by rewrite app_nil_r.
  - intros b Hb. simpl. apply list_lookup_insert_ne. by intros ->.
Qed.
Lemma steps_assign_var P C i s : steps (quiet P C) (assign_var i s).
Proof.
  intros w. unfold assign_var. destruct (i <? length (vars w)); by apply quiet_same.
Qed.
Lemma steps_log (P : event → Prop) C e : P e → steps (quiet P C) (log e).
Proof. intros He w. eapply quiet_events; [done..| |done]. by apply Forall_singleton. Qed.

Create HintDb steps discriminated.
#[local] Hint Resolve any_cell_holds : steps.
#[local] Hint Resolve steps_ret steps_throw steps_undefined steps_gets steps_discard
  steps_load steps_store steps_assign_var steps_get_process : steps.

(** Decompose a goal [steps R m] along the structure of [m]. *)
Ltac steps_tac :=
  repeat first
    [ progress eauto with typeclass_instances steps
    | match goal with
      | |- steps _ (_ ≫= _) => apply steps_bind; [apply _| |intros]
      | |- steps _ (match ?x with _ => _ end) => destruct x
      | |- steps _ (let '(_, _) := ?x in _) => destruct x
      end ].

Lemma steps_get_fd P C p : steps (quiet P C) (get_fd p).
Proof. destruct p; unfold get_fd; steps_tac. Qed.
Lemma steps_set_fd P (C : nat → Prop) p v : C (cell_of p) → steps (quiet P C) (set_fd p v).
Proof. intros Hc. destruct p; unfold set_fd; steps_tac. Qed.
#[local] Hint Resolve steps_get_fd steps_set_fd : steps.
Lemma steps_closable_at P C p : steps (quiet P C) (closable_at p).
Proof. destruct p; unfold closable_at; steps_tac. Qed.
#[local] Hint Resolve steps_closable_at : steps.

(** A system call that only adds the event [e] to the trace. *)
Ltac one_event := eapply quiet_events; [done..| |done]; by apply Forall_singleton.

Lemma steps_sys_close (P : event → Prop) C who fd :
  P (EvClose who fd) → steps (quiet P C) (sys_close who fd).
Proof. intros He w. one_event. Qed.

Lemma steps_sys_open (P : event → Prop) C E path mode :
  (∀ r, P (EvOpen path mode r)) → steps (quiet P C) (sys_open E path mode).
Proof.
  intros He w. unfold sys_open.
  destruct (open_errno E path mode); [|destruct (_ <? _)]; one_event.
Qed.

Lemma steps_sys_pipe (P : event → Prop) C E :
  (∀ r, P (EvPipe r)) → steps (quiet P C) (sys_pipe E).
Proof. intros He w. unfold sys_pipe. destruct (pipe_fds E w) as [[r wr]|]; one_event. Qed.

Lemma steps_sys_wordexp (P : event → Prop) C E s :
  (∀ r, P (EvWordexp s r)) → steps (quiet P C) (sys_wordexp E s).
Proof. intros He. unfold sys_wordexp. steps_tac. by apply steps_log. Qed.

Lemma steps_sys_posix_spawnp (P : event → Prop) C E argv acts :
  (∀ err pid, P (EvSpawn argv acts err pid)) →
  steps (quiet P C) (sys_posix_spawnp E argv acts).
Proof.
  intros He w. unfold sys_posix_spawnp. destruct (spawnp_of E argv acts); one_event.
Qed.

Lemma steps_sys_waitpid (P : event → Prop) C pid :
  (∀ r, P (EvWaitpid pid r)) → steps (quiet P C) (sys_waitpid pid).
Proof.
  intros He w. unfold sys_waitpid. destruct (lookup_child pid (children w)); one_event.
Qed.

Lemma read_loop_events (P : event → Prop) fd script output :
  (∀ len, P (EvRead fd len)) → Forall P (read_loop fd script output).2.
Proof.
  intros He. revert output. induction script as [|[s|e] rest IH]; intros output; simpl.
  - by apply Forall_singleton.
  - destruct (0 <? Z.of_nat (String.length s))%Z.
    + specialize (IH (output +:+ s)).
      destruct (read_loop fd rest (output +:+ s)) as [[[[o l] e] r] evs]. simpl in *.
      by constructor.
    + by apply Forall_singleton.
  - by apply Forall_singleton.
Qed.

Lemma write_loop_events (P : event → Prop) fd script total :
  (∀ len, P (EvWrite fd len)) → Forall P (write_loop fd script total).2.
Proof.
  intros He. revert total. induction script as [|[n|e] rest IH]; intros total; simpl;
    destruct (total <=? 0)%Z; simpl; try done.
  - by apply Forall_singleton.
  - specialize (IH (total - Z.max 0 (Z.min n total))%Z).
    destruct (write_loop fd rest _) as [[r s] evs]. simpl in *. by constructor.
  - by apply Forall_singleton.
Qed.

Lemma steps_idescriptor_read (P : event → Prop) C this :
  (∀ fd len, P (EvRead fd len)) → steps (quiet P C) (idescriptor_read this).
Proof.
  intros He. unfold idescriptor_read. steps_tac.
  intros w. pose proof (read_loop_events P a (reads w) "" (He a)) as Hf.
  destruct (read_loop a (reads w) "") as [[[[o l] e] r] evs]. simpl in *.
  by eapply quiet_events.
Qed.

Lemma steps_odescriptor_write (P : event → Prop) C this input :
  (∀ fd len, P (EvWrite fd len)) → steps (quiet P C) (odescriptor_write this input).
Proof.
  intros He. unfold odescriptor_write. steps_tac.
  intros w.
  pose proof (write_loop_events P a (writes w) (Z.of_nat (String.length input)) (He a)) as Hf.
  destruct (write_loop a (writes w) _) as [[r s] evs]. simpl in *.
  by eapply quiet_events.
Qed.

Lemma steps_odescriptor_close (P : event → Prop) (C : nat → Prop) this :
  (∀ fd, P (EvClose this fd)) → C (cell_of this) →
  steps (quiet P C) (odescriptor_close this).
Proof. intros He Hc. unfold odescriptor_close. steps_tac. by apply steps_sys_close. Qed.

Lemma idescriptor_close_eq this : idescriptor_close this = odescriptor_close this.
Proof. reflexivity. Qed.

(** [close] on the descriptor in cell [a] touches no other cell, and
    what it closes it closes in the name of [a]. *)
Lemma steps_descriptor_close a :
  steps (quiet (close_event a) (eq a)) (descriptor_close a).
Proof.
  unfold descriptor_close, ovariable_descriptor_close. steps_tac;
    rewrite ?idescriptor_close_eq;
    first [ by apply steps_odescriptor_close | by apply steps_idescriptor_read ].
Qed.

Lemma steps_set_linked_fd P l v : steps (quiet P any_cell) (set_linked_fd l v).
Proof. unfold set_linked_fd. steps_tac. Qed.
#[local] Hint Resolve steps_set_linked_fd : steps.

Lemma steps_descriptor_open E a : steps (quiet prep_event any_cell) (descriptor_open E a).
Proof.
  unfold descriptor_open, file_descriptor_open, opipe_descriptor_open,
    ivariable_descriptor_open, ipipe_descriptor_open.
  steps_tac;
    first [ by apply steps_sys_open | by apply steps_sys_pipe
          | by apply steps_odescriptor_write | by apply steps_odescriptor_close ].
Qed.

Lemma closes_by_app a t1 t2 : closes_by a (t1 ++ t2) = closes_by a t1 ++ closes_by a t2.
Proof. apply omap_app. Qed.

Lemma closes_by_none a evs : Forall (not_closed_by a) evs → closes_by a evs = [].
Proof.
  induction 1 as [|e evs He _ IH]; [done|].
  change (e :: evs) with ([e] ++ evs). rewrite closes_by_app, IH, app_nil_r.
  destruct e as [| |[b|b] fd| | | | | | | |]; try done. simpl in *.
  by destruct (Nat.eqb_spec b a).
Qed.

(** ** Calls of [execute] and [wait] in a trace *)

Lemma calls_app t1 t2 : calls (t1 ++ t2) = calls t1 ++ calls t2.
Proof. apply List.filter_app. Qed.

Lemma calls_no_call evs : Forall no_call evs → calls evs = [].
Proof.
  induction 1 as [|e evs He _ IH]; [done|]. unfold calls in *. simpl. by rewrite He.
Qed.

Lemma prep_event_no_call e : prep_event e → no_call e.
Proof. by destruct e as [| |[]| | | | | | | |]. Qed.
Lemma close_event_no_call a e : close_event a e → no_call e.
Proof. by destruct e as [| |[]| | | | | | | |]. Qed.

Lemma steps_actions_dup E P C action fd_from fd_to :
  steps (quiet P C) (actions_dup E action fd_from fd_to).
Proof. unfold actions_dup. steps_tac. Qed.
Lemma steps_actions_close E P C action fd : steps (quiet P C) (actions_close E action fd).
Proof. unfold actions_close. steps_tac. Qed.
#[local] Hint Resolve steps_actions_dup steps_actions_close : steps.

Lemma steps_execute_actions E x :
  steps (quiet prep_event any_cell) (execute_actions E x).
Proof.
  unfold execute_actions, process_fds, shell_expander. steps_tac;
    first [ by apply steps_sys_wordexp | apply steps_descriptor_open ].
Qed.

Lemma steps_execute_close x :
  steps (quiet (λ e, ∃ a, close_event a e) any_cell) (execute_close x).
Proof.
  unfold execute_close. steps_tac;
    (eapply steps_mono; [| |apply steps_descriptor_close]); simpl; eauto with steps.
Qed.

Lemma steps_put_process P p x : steps (trace_ext P) (put_process p x).
Proof. intros w. exists []. simpl. by rewrite app_nil_r. Qed.

Lemma prep_event_spawn_event e : prep_event e → spawn_event e.
Proof.
  intros He. split; [by apply prep_event_no_call|]. intros b.
  by destruct e as [| |[]| | | | | | | |].
Qed.

Lemma steps_execute_spawn E p sh action :
  steps (trace_ext spawn_event) (execute_spawn E p sh action).
Proof.
  unfold execute_spawn, argv0. steps_tac; try apply steps_put_process.
  eapply steps_trace; [|by apply (steps_sys_posix_spawnp spawn_event any_cell)]. done.
Qed.

Lemma steps_execute_spawned E p :
  steps (trace_ext spawn_event)
    (x ← get_process p;
     '(sh, action) ← execute_actions E x;
     execute_spawn E p sh action;; mret x).
Proof.
  steps_tac.
  - eapply steps_trace; [|apply steps_execute_actions]. apply prep_event_spawn_event.
  - apply steps_execute_spawn.
Qed.

(** Whatever its outcome, [execute] leaves exactly one call marker. *)
Lemma execute_calls E p w :
  ∃ evs, trace (execute E p w).2 = trace w ++ evs ∧ calls evs = [EvExecute p].
Proof.
  assert (steps (trace_ext no_call)
            (x ← (x ← get_process p;
                  '(sh, action) ← execute_actions E x;
                  execute_spawn E p sh action;; mret x);
             execute_close x;; log (EvExecuted p))) as Hrest.
  { apply steps_bind; [apply _| |intros x; apply steps_bind; [apply _| |intros _]].
    - eapply steps_weaken; [|apply steps_execute_spawned].
      intros ??. apply trace_ext_mono. by intros e [].
    - eapply steps_trace; [|apply steps_execute_close].
      intros e [b Hb]. by eapply close_event_no_call.
    - eapply steps_trace; [|by apply (steps_log no_call any_cell)]. done. }
  specialize (Hrest (set_trace (trace w ++ [EvExecute p]) w)).
  destruct Hrest as (evs & Ht & Hf). simpl in Ht.
  exists (EvExecute p :: evs). split.
  - rewrite cons_middle, app_assoc, <- Ht. unfold execute, execute_spawned.
    rewrite !bind_unfold. simpl. rewrite !bind_unfold.
    by repeat (match goal with |- context [match ?x with _ => _ end] => destruct x end; simpl).
  - change (EvExecute p :: evs) with ([EvExecute p] ++ evs).
    by rewrite calls_app, (calls_no_call evs).
Qed.

Lemma wait_calls p w :
  ∃ evs, trace (wait p w).2 = trace w ++ evs ∧ calls evs = [EvWait p].
Proof.
  assert (steps (trace_ext no_call)
            (x ← get_process p;
             match pid_ x with
             | None => throw (usage_error wait_message)
             | Some pid => waitstatus ← sys_waitpid pid; mret (WEXITSTATUS waitstatus)
             end)) as Hrest.
  { steps_tac. eapply steps_trace; [|by apply (steps_sys_waitpid no_call any_cell)]. done. }
  unfold wait. rewrite bind_unfold. simpl.
  match goal with |- context [?m (set_trace ?t w)] => destruct (Hrest (set_trace t w)) as (evs & Ht & Hf) end.
  simpl in Ht. eexists. rewrite Ht, <- app_assoc. split; [done|].
  rewrite calls_app, (calls_no_call evs) by done. done.
Qed.

(** The first loop of [run]: the calls are the [execute]s of a prefix of
    the list, of the whole list when the loop ends. *)
Lemma execute_all_calls E ps w :
  ∃ evs k, trace (execute_all E ps w).2 = trace w ++ evs ∧
    calls evs = EvExecute <$> take k ps ∧
    (∀ u, (execute_all E ps w).1 = Ret u → k = length ps).
Proof.
  revert w. induction ps as [|p ps IH]; intros w.
  - exists [], 0. simpl. by rewrite app_nil_r.
  - simpl. rewrite bind_unfold.
    destruct (execute_calls E p w) as (e1 & Ht1 & Hc1).
    destruct (execute E p w) as [[[]|e|] w1]; simpl in *.
    + destruct (IH w1) as (e2 & k & Ht2 & Hc2 & Hk).
      exists (e1 ++ e2), (S k). rewrite Ht2, Ht1, <- app_assoc, calls_app, Hc1, Hc2.
      split_and!; [done..|]. intros u Hu. by rewrite (Hk u Hu).
    + exists e1, 1. rewrite Ht1, Hc1. simpl. by rewrite ?take_0.
    + exists e1, 1. rewrite Ht1, Hc1. simpl. by rewrite ?take_0.
Qed.

Lemma wait_all_calls ps s0 w :
  ∃ evs k, trace (wait_all ps s0 w).2 = trace w ++ evs ∧
    calls evs = EvWait <$> take k ps ∧
    (∀ s, (wait_all ps s0 w).1 = Ret s → k = length ps).
Proof.
  revert s0 w. induction ps as [|p ps IH]; intros s0 w.
  - exists [], 0. simpl. by rewrite app_nil_r.
  - simpl. rewrite bind_unfold.
    destruct (wait_calls p w) as (e1 & Ht1 & Hc1).
    destruct (wait p w) as [[s1|e|] w1]; simpl in *.
    + destruct (IH s1 w1) as (e2 & k & Ht2 & Hc2 & Hk).
      exists (e1 ++ e2), (S k). rewrite Ht2, Ht1, <- app_assoc, calls_app, Hc1, Hc2.
      split_and!; [done..|]. intros u Hu. by rewrite (Hk u Hu).
    + exists e1, 1. rewrite Ht1, Hc1. simpl. by rewrite ?take_0.
    + exists e1, 1. rewrite Ht1, Hc1. simpl. by rewrite ?take_0.
Qed.

(** The value the second loop returns is the value of its last [wait]. *)
(** ** Running the descriptor functions on a known cell *)

Lemma load_ret a w d : heap w !! a = Some d → load a w = (Ret d, w).
Proof. intros H. unfold load. by rewrite H. Qed.

Lemma load_inv a w d w' : load a w = (Ret d, w') → w' = w ∧ heap w !! a = Some d.
Proof. unfold load. destruct (heap w !! a); intros H; by inversion H. Qed.

(** Unfold the monad and the memory primitives, then compute. *)
Ltac mrun_with tac :=
  unfold closable_at, get_fd, set_fd, sys_close, store, modify, gets, throw, undefined,
    discard, log, load, mbind, M_bind, mret, M_ret in *;
  repeat (simpl in *; tac).

Lemma odescriptor_close_whole a d w w' :
  heap w !! a = Some d →
  odescriptor_close (Whole a) w = (Ret tt, w') →
  if closable d
  then heap w' = <[a := {| fd_ := -1; cls := cls d |}]> (heap w) ∧
       trace w' = trace w ++ [EvClose (Whole a) (fd_ d)]
  else w' = w.
Proof.
  intros Hd. unfold odescriptor_close. mrun_with ltac:(rewrite ?Hd).
  destruct (closable d); simpl; rewrite ?Hd; intros H; by inversion H.
Qed.

Lemma closable_minus_one c : closable {| fd_ := -1; cls := c |} = false.
Proof. by destruct c. Qed.

Lemma set_fd_whole_inv a v w w' :
  set_fd (Whole a) v w = (Ret tt, w') →
  ∃ d, heap w !! a = Some d ∧ heap w' !! a = Some {| fd_ := v; cls := cls d |}.
Proof.
  mrun_with idtac. destruct (heap w !! a) as [d|] eqn:Hd; simpl; intros H; inversion H.
  exists d. split; [done|]. simpl. apply list_lookup_insert_eq. by eapply lookup_lt_Some.
Qed.

Lemma closable_at_whole_inv a w c w' :
  closable_at (Whole a) w = (Ret c, w') →
  w' = w ∧ ∃ d, heap w !! a = Some d ∧ c = closable d.
Proof.
  mrun_with idtac. destruct (heap w !! a) as [d|] eqn:Hd; simpl; intros H; inversion H.
  eauto.
Qed.

(** What is left of [ovariable_descriptor::close] once the write end is
    closed issues no [::close] in the name of the object itself. *)
Lemma steps_ovariable_rest a o :
  steps (quiet (not_closed_by a) (eq a))
    (s ← idescriptor_read (Member a);
     assign_var o s;; idescriptor_close (Member a);; set_fd (Whole a) (-1)).
Proof.
  steps_tac; rewrite ?idescriptor_close_eq;
    first [ by apply steps_odescriptor_close | by apply steps_idescriptor_read ].
Qed.

Lemma descriptor_close_cell a w w' :
  descriptor_close a w = (Ret tt, w') → closed_in a w w'.
Proof.
  intros H. unfold descriptor_close in H.
  bind_inv H as (d & w0 & Hl & H). apply load_inv in Hl as [-> Hd].
  assert (odescriptor_close (Whole a) w = (Ret (), w') → closed_in a w w') as Hplain.
  { intros Hc. apply (odescriptor_close_whole _ _ _ _ Hd) in Hc. exists d.
    destruct (closable d) eqn:Hcl.
    - destruct Hc as [Hh Ht]. eexists _, _. rewrite Hh.
      split_and!; [done| |apply closable_minus_one|done|done|exact Ht|].
      + apply list_lookup_insert_eq. by eapply lookup_lt_Some.
      + simpl. by rewrite Nat.eqb_refl.
    - subst w'. exists d, []. by rewrite app_nil_r. }
  destruct (cls d) as [| | |pa mo|pa mo|l|l|l o s|l i s] eqn:Hcls;
    rewrite ?idescriptor_close_eq in H; try (by apply Hplain).
  - (* a standard stream or a plain [descriptor] *)
    inversion H; subst. exists d, d, []. rewrite app_nil_r.
    assert (closable d = false) as Hc by (unfold closable; by rewrite Hcls).
    by rewrite Hc.
  - (* an output buffer *)
    unfold ovariable_descriptor_close in H.
    bind_inv H as (c & w0 & Hc & H).
    apply closable_at_whole_inv in Hc as (-> & d0 & Hd0 & ->).
    assert (d0 = d) as -> by congruence.
    destruct (closable d) eqn:Hcl; cbn [negb] in H.
    + bind_inv H as ([] & w1 & Hc1 & H).
      apply (odescriptor_close_whole _ _ _ _ Hd) in Hc1. rewrite Hcl in Hc1.
      destruct Hc1 as [Hh1 Ht1].
      destruct (steps_ovariable_rest a o w1) as (_ & (evs & Ht & Hf) & _ & _).
      rewrite H in Ht. simpl in Ht.
      bind_inv H as (str & w2 & _ & H).
      bind_inv H as ([] & w3 & _ & H).
      bind_inv H as ([] & w4 & _ & H).
      apply set_fd_whole_inv in H as (d4 & _ & Hd').
      exists d, {| fd_ := -1; cls := cls d4 |}, ([EvClose (Whole a) (fd_ d)] ++ evs).
      rewrite Hcl.
      split_and!; [done|exact Hd'|apply closable_minus_one|done|done| |].
      * by rewrite Ht, Ht1, <- app_assoc.
      * rewrite closes_by_app, (closes_by_none a evs) by done. simpl. by rewrite Nat.eqb_refl.
    + inversion H; subst. exists d, d, []. rewrite Hcl. by rewrite app_nil_r.
Qed.

Lemma close_event_not_closed_by a b e : a ≠ b → close_event b e → not_closed_by a e.
Proof. intros Hne. destruct e as [| |[c|c] fd| | | | | | | |]; simpl; try done. congruence. Qed.

Lemma descriptor_close_other a b w : a ≠ b → untouched a w (descriptor_close b w).2.
Proof.
  intros Hne. destruct (steps_descriptor_close b w) as (_ & (evs & Ht & Hf) & _ & Hh).
  split; [apply Hh; congruence|]. exists evs. split; [done|].
  apply closes_by_none. eapply Forall_impl; [exact Hf|].
  intros e. by apply close_event_not_closed_by.
Qed.

Lemma closed_in_untouched a w1 w2 w3 : closed_in a w1 w2 → untouched a w2 w3 → closed_in a w1 w3.
Proof.
  intros (d & d' & e1 & Hd & Hd' & Hc & Hfd & Hsame & Ht1 & Hc1) [Hh2 (e2 & Ht2 & Hc2)].
  exists d, d', (e1 ++ e2). split_and!; try done.
  - by rewrite Hh2.
  - by rewrite Ht2, Ht1, app_assoc.
  - by rewrite closes_by_app, Hc1, Hc2, app_nil_r.
Qed.

Lemma untouched_closed_in a w1 w2 w3 : untouched a w1 w2 → closed_in a w2 w3 → closed_in a w1 w3.
Proof.
  intros [Hh1 (e1 & Ht1 & Hc1)] (d & d' & e2 & Hd & Hd' & Hc & Hfd & Hsame & Ht2 & Hc2).
  exists d, d', (e1 ++ e2). split_and!; try done.
  - by rewrite <- Hh1.
  - by rewrite Ht2, Ht1, app_assoc.
  - by rewrite closes_by_app, Hc1, Hc2.
Qed.

(** Closing a second time changes nothing. *)
Lemma closed_in_twice a w1 w2 w3 : closed_in a w1 w2 → closed_in a w2 w3 → closed_in a w1 w3.
Proof.
  intros (d & d' & e1 & Hd & Hd' & Hc & Hfd & Hsame & Ht1 & Hc1)
         (d2 & d2' & e2 & Hd2 & Hd2' & _ & _ & Hsame2 & Ht2 & Hc2).
  assert (d2 = d') as -> by congruence. rewrite Hc in Hc2. specialize (Hsame2 Hc). subst d2'.
  exists d, d', (e1 ++ e2). split_and!; try done.
  - by rewrite Ht2, Ht1, app_assoc.
  - by rewrite closes_by_app, Hc1, Hc2, app_nil_r.
Qed.

(** One [close] call, seen from the cell [a]. *)
Lemma descriptor_close_seen a b w w' :
  descriptor_close b w = (Ret tt, w') →
  (a = b → closed_in a w w') ∧ (a ≠ b → untouched a w w').
Proof.
  intros H. split.
  - intros ->. by apply descriptor_close_cell.
  - intros Hne. pose proof (descriptor_close_other a b w Hne) as Hu. by rewrite H in Hu.
Qed.

Lemma execute_close_cell x w w' a :
  execute_close x w = (Ret tt, w') →
  a ∈ [stdin_fd_ x; stdout_fd_ x; stderr_fd_ x] → closed_in a w w'.
Proof.
  intros H Ha. unfold execute_close in H.
  bind_inv H as ([] & w1 & H1 & H). bind_inv H as ([] & w2 & H2 & H3).
  apply (descriptor_close_seen a) in H1 as [C1 U1], H2 as [C2 U2], H3 as [C3 U3].
  destruct (decide (a = stdin_fd_ x)) as [E1|N1];
    destruct (decide (a = stdout_fd_ x)) as [E2|N2];
    destruct (decide (a = stderr_fd_ x)) as [E3|N3];
    eauto 6 using closed_in_twice, closed_in_untouched, untouched_closed_in.
  apply list_elem_of_In in Ha. simpl in Ha. intuition congruence.
Qed.

(** ** [execute] *)

Lemma execute_spawn_ret E p sh action w w' :
  execute_spawn E p sh action w = (Ret tt, w') →
  ∃ argv pid x,
    sh = Some argv ∧
    trace w' = trace w ++ [EvSpawn argv (actions_ action) 0 pid] ∧
    heap w' = heap w ∧
    procs w !! p = Some x ∧ procs w' = <[p := with_pid x pid]> (procs w).
Proof.
  unfold execute_spawn, argv0, sys_posix_spawnp, get_process, put_process.
  destruct sh as [[|file args]|]; mrun_with idtac; try (intros H; by inversion H).
  destruct (procs w !! p) as [x|] eqn:Hx;
    destruct (spawnp_of E (file :: args) (actions_ action)) as [err|ws]; simpl;
    try destruct (bool_decide_reflect (err ≠ 0%Z)) as [|Herr]; simpl;
    try change (list_lookup p (procs w)) with (procs w !! p);
    rewrite ?Hx; intros H; inversion H.
  - assert (err = 0%Z) as -> by (by destruct (decide (err = 0%Z))).
    by exists (file :: args), 0%Z, x.
  - by exists (file :: args), (next_pid w), x.
Qed.

Lemma execute_spawned_ret E p w x w1 :
  execute_spawned E p w = (Ret x, w1) →
  ∃ pre argv acts pid,
    procs w !! p = Some x ∧
    trace w1 = trace w ++ pre ++ [EvSpawn argv acts 0 pid] ∧
    (∀ a, closes_by a pre = []) ∧
    procs w1 = <[p := with_pid x pid]> (procs w).
Proof.
  intros H. unfold execute_spawned in H.
  bind_inv H as ([] & w0 & H0 & H). inversion H0; subst w0; clear H0.
  bind_inv H as (x0 & w0 & Hx & H).
  unfold get_process in Hx. simpl in Hx.
  destruct (procs w !! p) as [x1|] eqn:Hp; inversion Hx; subst x0 w0; clear Hx.
  bind_inv H as ([sh action] & w2 & Ha & H).
  bind_inv H as ([] & w3 & Hs & H). inversion H; subst x1 w3; clear H.
  destruct (steps_execute_actions E x (set_trace (trace w ++ [EvExecute p]) w))
    as (Hpr & (evs & Ht & Hf) & _).
  rewrite Ha in Hpr, Ht. simpl in Hpr, Ht.
  apply execute_spawn_ret in Hs as (argv & pid & x' & -> & Hts & _ & Hx' & Hp').
  rewrite Hpr in Hx', Hp'. simpl in Hx', Hp'. assert (x' = x) as -> by congruence.
  exists (EvExecute p :: evs), argv, (actions_ action), pid.
  split_and!; [done| |intros a|done].
  - rewrite Hts, Ht. by rewrite <- !app_assoc.
  - apply closes_by_none. constructor; [done|].
    eapply Forall_impl; [exact Hf|]. intros e He. by apply prep_event_spawn_event.
Qed.

(** C5.  When [execute] returns, every descriptor in the stdin, stdout
    and stderr slots is closed: it is not closable any more, and if it
    was closable when [posix_spawnp] returned its [fd()] is -1.  Such a
    descriptor issued exactly one [::close], on the descriptor it held,
    and it did so after the spawn: none before the [EvSpawn] event, one
    after it. *)
Theorem C5_spawn_close_parity E p w w' :
  execute E p w = (Ret tt, w') →
  ∃ x w1 pre argv acts pid post,
    execute_spawned E p w = (Ret x, w1) ∧
    trace w1 = trace w ++ pre ++ [EvSpawn argv acts 0 pid] ∧
    trace w' = trace w1 ++ post ∧
    ∀ a, a ∈ [stdin_fd_ x; stdout_fd_ x; stderr_fd_ x] →
      ∃ d d', heap w1 !! a = Some d ∧ heap w' !! a = Some d' ∧
        closable d' = false ∧
        (closable d = true → fd_ d' = (-1)%Z) ∧
        closes_by a pre = [] ∧
        closes_by a post = (if closable d then [fd_ d] else []).
Proof.
  intros H. unfold execute in H.
  bind_inv H as (x & w1 & Hs & H). bind_inv H as ([] & w2 & Hc & H).
  inversion H; subst w'; clear H.
  destruct (execute_spawned_ret _ _ _ _ _ Hs) as (pre & argv & acts & pid & Hx & Ht1 & Hpre & _).
  destruct (steps_execute_close x w1) as (_ & (evs & Ht2 & _) & _).
  rewrite Hc in Ht2. simpl in Ht2.
  exists x, w1, pre, argv, acts, pid, (evs ++ [EvExecuted p]).
  split_and!; [done|done|simpl; by rewrite Ht2, app_assoc|].
  intros a Ha.
  destruct (execute_close_cell _ _ _ _ Hc Ha)
    as (d & d' & evs' & Hd & Hd' & Hcl & Hfd & _ & Ht & Hcb).
  assert (evs' = evs) as -> by (rewrite Ht2 in Ht; by apply app_inv_head in Ht).
  exists d, d'. split_and!; try done.
  by rewrite closes_by_app, Hcb, app_nil_r.
Qed.

(** ** [wait] *)

Lemma wait_usage_error p x w :
  procs w !! p = Some x →
  (wait p w).1 = Throw (usage_error wait_message) ↔ pid_ x = None.
Proof.
  intros Hx. unfold wait, get_process, sys_waitpid. mrun_with idtac.
  change (list_lookup p (procs w)) with (procs w !! p). rewrite Hx. simpl.
  destruct (pid_ x) as [pid|]; simpl; [|done].
  by destruct (lookup_child pid (children w)).
Qed.

Lemma steps_wait p : steps (quiet (λ _, True) any_cell) (wait p).
Proof.
  unfold wait. steps_tac; first [by apply steps_log | by apply steps_sys_waitpid].
Qed.

Lemma posix_process_new_fresh cmd w :
  ∃ w', posix_process_new cmd w = (Ret (length (procs w)), w') ∧
    ∃ x, procs w' !! length (procs w) = Some x ∧ pid_ x = None.
Proof.
  eexists. split; [reflexivity|]. eexists. simpl. split; [apply list_lookup_middle; done|done].
Qed.

(** ** Computations that never throw *)

Lemma no_throw_bind {A B} (m : M A) (k : A → M B) :
  no_throw m → (∀ a, no_throw (k a)) → no_throw (m ≫= k).
Proof.
  intros Hm Hk w e. rewrite bind_unfold. specialize (Hm w).
  destruct (m w) as [[a|e'|] w1]; simpl in *; [apply Hk | | done].
  by destruct (Hm e').
Qed.

Lemma no_throw_ret {A} (a : A) : no_throw (mret a).
Proof. by intros w e. Qed.
Lemma no_throw_undefined {A} : no_throw (@undefined A).
Proof. by intros w e. Qed.
Lemma no_throw_modify f : no_throw (modify f).
Proof. by intros w e. Qed.
Lemma no_throw_gets {A} (f : world → A) : no_throw (gets f).
Proof. by intros w e. Qed.
Lemma no_throw_load a : no_throw (load a).
Proof. intros w e. unfold load. by destruct (heap w !! a). Qed.
Lemma no_throw_assign_var i s : no_throw (assign_var i s).
Proof. intros w e. unfold assign_var. by destruct (i <? length (vars w)). Qed.

Create HintDb no_throw discriminated.
#[local] Hint Resolve no_throw_ret no_throw_undefined no_throw_modify no_throw_gets no_throw_load
  no_throw_assign_var : no_throw.

Ltac no_throw_tac :=
  repeat first
    [ progress eauto with no_throw
    | match goal with
      | |- no_throw (_ ≫= _) => apply no_throw_bind; [|intros]
      | |- no_throw (match ?x with _ => _ end) => destruct x
      | |- no_throw (let '(_, _) := ?x in _) => destruct x
      end ].

Lemma no_throw_get_fd p : no_throw (get_fd p).
Proof. destruct p; unfold get_fd; no_throw_tac. Qed.
Lemma no_throw_set_fd p v : no_throw (set_fd p v).
Proof. destruct p; unfold set_fd, store; no_throw_tac. Qed.
#[local] Hint Resolve no_throw_get_fd no_throw_set_fd : no_throw.
Lemma no_throw_closable_at p : no_throw (closable_at p).
Proof. destruct p; unfold closable_at; no_throw_tac. Qed.
#[local] Hint Resolve no_throw_closable_at : no_throw.

Lemma no_throw_odescriptor_close this : no_throw (odescriptor_close this).
Proof. unfold odescriptor_close, sys_close. no_throw_tac. Qed.

(** A failed [::read] does not make [idescriptor::read] throw. *)
Lemma no_throw_idescriptor_read this : no_throw (idescriptor_read this).
Proof.
  unfold idescriptor_read, discard. no_throw_tac.
  intros w e. by destruct (read_loop a (reads w) "") as [[[[o l] e'] r] evs].
Qed.

Lemma no_throw_descriptor_close a : no_throw (descriptor_close a).
Proof.
  unfold descriptor_close, ovariable_descriptor_close. no_throw_tac;
    rewrite ?idescriptor_close_eq;
    first [ apply no_throw_odescriptor_close | apply no_throw_idescriptor_read ].
Qed.

Lemma no_throw_execute_close x : no_throw (execute_close x).
Proof. unfold execute_close. no_throw_tac; apply no_throw_descriptor_close. Qed.

Lemma bind_throw_inv {A B} (m : M A) (k : A → M B) w e w' :
  (m ≫= k) w = (Throw e, w') →
  m w = (Throw e, w') ∨ ∃ a w1, m w = (Ret a, w1) ∧ k a w1 = (Throw e, w').
Proof.
  rewrite bind_unfold. destruct (m w) as [[a|e'|] w1]; intros H; [eauto| |done].
  left. by inversion H.
Qed.

Tactic Notation "throw_inv" hyp(H) "as" simple_intropattern(pat) :=
  match type of H with
  | (?m ≫= ?k) ?w = (Throw ?e, ?w') => apply (bind_throw_inv m k w e w') in H as pat
  end.

(** An [execute] that throws has not touched the processes. *)
Lemma execute_spawn_throw E p sh action w e w' :
  execute_spawn E p sh action w = (Throw e, w') → procs w' = procs w.
Proof.
  unfold execute_spawn, argv0, sys_posix_spawnp, get_process, put_process.
  destruct sh as [[|file args]|]; mrun_with idtac; try done.
  destruct (procs w !! p) as [x|] eqn:Hx;
    destruct (spawnp_of E (file :: args) (actions_ action)) as [err|ws]; simpl;
    try destruct (bool_decide (err ≠ 0%Z)); simpl;
    try change (list_lookup p (procs w)) with (procs w !! p);
    rewrite ?Hx; intros H; by inversion H.
Qed.

Lemma execute_spawned_throw E p w e w' :
  execute_spawned E p w = (Throw e, w') → procs w' = procs w.
Proof.
  intros H. unfold execute_spawned in H.
  throw_inv H as [H|([] & w0 & H0 & H)]; [done|]. inversion H0; subst w0; clear H0.
  throw_inv H as [H|(x & w0 & Hx & H)].
  { unfold get_process in H. simpl in H. by destruct (procs w !! p). }
  unfold get_process in Hx. simpl in Hx.
  destruct (procs w !! p) as [x1|] eqn:Hp; inversion Hx; subst x1 w0; clear Hx.
  destruct (steps_execute_actions E x (set_trace (trace w ++ [EvExecute p]) w)) as (Hpr & _).
  throw_inv H as [H|([sh action] & w2 & Ha & H)].
  { rewrite H in Hpr. exact Hpr. }
  rewrite Ha in Hpr. simpl in Hpr.
  throw_inv H as [H|([] & w3 & Hs & H)]; [|done].
  apply execute_spawn_throw in H. congruence.
Qed.

Lemma execute_throw E p w e w' :
  execute E p w = (Throw e, w') → procs w' = procs w.
Proof.
  intros H. unfold execute in H.
  throw_inv H as [H|(x & w1 & Hs & H)]; [by eapply execute_spawned_throw|].
  exfalso.
  assert (no_throw (execute_close x;; log (EvExecuted p))) as Hn.
  { apply no_throw_bind; [apply no_throw_execute_close|]. intros. unfold log. no_throw_tac. }
  apply (Hn w1 e). by rewrite H.
Qed.

(** An [execute] that returns has set [pid_]. *)
Lemma execute_ret_pid E p w w' :
  execute E p w = (Ret tt, w') →
  ∃ x pid, procs w !! p = Some x ∧ procs w' !! p = Some (with_pid x pid).
Proof.
  intros H. unfold execute in H.
  bind_inv H as (x & w1 & Hs & H). bind_inv H as ([] & w2 & Hc & H).
  inversion H; subst w'; clear H.
  destruct (execute_spawned_ret _ _ _ _ _ Hs) as (pre & argv & acts & pid & Hx & _ & _ & Hp).
  destruct (steps_execute_close x w1) as (Hpr & _). rewrite Hc in Hpr. simpl in Hpr.
  exists x, pid. split; [done|]. simpl. rewrite Hpr, Hp.
  apply list_lookup_insert_eq. by eapply lookup_lt_Some.
Qed.

(** ** The close actions of a spawn *)

Lemma close_fds_app l1 l2 : close_fds (l1 ++ l2) = close_fds l1 ++ close_fds l2.
Proof. apply omap_app. Qed.

Lemma close_count_NoDup f (l : list Z) :
  NoDup l → length (filter (λ g, g = f) l) = if bool_decide (f ∈ l) then 1 else 0.
Proof.
  induction 1 as [|g l Hg Hl IH]; [done|].
  rewrite filter_cons. destruct (decide (g = f)) as [->|Hne].
  - simpl. rewrite IH. rewrite (bool_decide_eq_false_2 (f ∈ l)) by done.
    rewrite bool_decide_eq_true_2; [done|]. by left.
  - rewrite IH. destruct (bool_decide_reflect (f ∈ l)) as [Hin|Hin].
    + rewrite bool_decide_eq_true_2; [done|]. by right.
    + rewrite bool_decide_eq_false_2; [done|]. by intros [->|?]%elem_of_cons.
Qed.

Lemma actions_wf_new n : actions_wf n new_actions.
Proof.
  split; [constructor|]. intros f. simpl. split; [by intros ?%elem_of_nil|].
  by intros [?%elem_of_empty _].
Qed.

Lemma actions_dup_ret E action a fd_to w action' w' :
  actions_dup E action a fd_to w = (Ret action', w') →
  w' = w ∧ close_fds (actions_ action') = close_fds (actions_ action) ∧
  closed_fds_ action' = closed_fds_ action.
Proof.
  unfold actions_dup. mrun_with idtac.
  destruct (heap w !! a) as [d|]; simpl; intros H; inversion H. split; [done|]. simpl.
  split; [|done]. unfold adddup2.
  destruct (_ && _); [|done]. by rewrite close_fds_app, app_nil_r.
Qed.

Lemma closable_fd_nonneg d : closable d = true → (0 ≤ fd_ d)%Z.
Proof. unfold closable. destruct (cls d); try done; by intros ?%Z.leb_le. Qed.

Lemma spawn_valid_fd_closable n d :
  closable d = true → spawn_valid_fd n (fd_ d) = (fd_ d <? Z.of_nat n)%Z.
Proof.
  intros Hc%closable_fd_nonneg. unfold spawn_valid_fd.
  by rewrite (proj2 (Z.leb_le 0 (fd_ d)) Hc).
Qed.

(** [posix_spawn_file_actions::close] on a live descriptor. *)
Lemma actions_close_spec E action a d w :
  heap w !! a = Some d →
  actions_close E action a w =
    (Ret (if closable d && negb (bool_decide (fd_ d ∈ closed_fds_ action))
          then {| actions_ := (if (fd_ d <? Z.of_nat (fd_limit E))%Z
                               then actions_ action ++ [AddClose (fd_ d)]
                               else actions_ action);
                  closed_fds_ := {[ fd_ d ]} ∪ closed_fds_ action |}
          else action), w).
Proof.
  intros Hd. unfold actions_close. mrun_with ltac:(rewrite ?Hd).
  destruct (closable d) eqn:Hc; simpl; [|done].
  destruct (bool_decide (fd_ d ∈ closed_fds_ action)); simpl; [done|].
  unfold addclose. by rewrite (spawn_valid_fd_closable _ _ Hc).
Qed.

Lemma actions_close_ret E action a w action' w' :
  actions_close E action a w = (Ret action', w') →
  actions_wf (fd_limit E) action →
  w' = w ∧ actions_wf (fd_limit E) action' ∧
  (∀ f, f ∈ closed_fds_ action → f ∈ closed_fds_ action') ∧
  ∀ d, heap w !! a = Some d → closable d = true → fd_ d ∈ closed_fds_ action'.
Proof.
  intros H [Hnd Hset].
  destruct (heap w !! a) as [d|] eqn:Hd.
  2:{ unfold actions_close in H. mrun_with ltac:(rewrite ?Hd in H). by inversion H. }
  rewrite (actions_close_spec _ _ _ _ _ Hd) in H. inversion H; subst w'; clear H.
  split; [done|].
  destruct (closable d) eqn:Hc; simpl in *.
  2:{ subst. split; [done|]. split; [done|]. intros d' [= <-] ?. congruence. }
  destruct (bool_decide_reflect (fd_ d ∈ closed_fds_ action)) as [Hin|Hin]; simpl in *; subst.
  { split; [done|]. split; [done|]. by intros d' [= <-] _. }
  pose proof (spawn_valid_fd_closable (fd_limit E) d Hc) as Hv.
  split; [|split].
  - destruct (fd_ d <? Z.of_nat (fd_limit E))%Z eqn:Hlt; split; simpl.
    + rewrite close_fds_app. simpl. apply NoDup_app.
      split_and!; [done| |apply NoDup_singleton].
      intros f Hf ->%list_elem_of_singleton. by apply Hin, Hset.
    + intros f. rewrite close_fds_app, elem_of_app, elem_of_union, Hset. simpl.
      rewrite list_elem_of_singleton, elem_of_singleton. split.
      * intros [[? ?]| ->]; [tauto|]. split; [by left|done].
      * intros [[->|?] ?]; tauto.
    + done.
    + intros f. rewrite elem_of_union, Hset, elem_of_singleton. split; [tauto|].
      intros [[->|?] Hf]; [congruence|done].
  - intros f Hf. simpl. rewrite elem_of_union. by right.
  - intros d' [= <-] _. simpl. rewrite elem_of_union, elem_of_singleton. by left.
Qed.

Lemma process_fds_ret E action a dup_to w action' w' :
  process_fds E action a dup_to w = (Ret action', w') →
  actions_wf (fd_limit E) action →
  actions_wf (fd_limit E) action' ∧ closed_fds_ action' = closed_fds_ action.
Proof.
  intros H [Hnd Hset]. unfold process_fds in H. bind_inv H as ([] & w1 & _ & H).
  apply actions_dup_ret in H as (_ & Hc & Hs). split; [|done].
  split; [by rewrite Hc|]. intros f. by rewrite Hc, Hs.
Qed.

Lemma close_count_le_1 n f action :
  actions_wf n action → close_count f (actions_ action) ≤ 1.
Proof.
  intros [Hnd _]. unfold close_count. rewrite close_count_NoDup by done.
  destruct (bool_decide _); lia.
Qed.

Lemma close_count_closed n f action :
  actions_wf n action → f ∈ closed_fds_ action →
  close_count f (actions_ action) = if spawn_valid_fd n f then 1 else 0.
Proof.
  intros [Hnd Hset] Hin. unfold close_count. rewrite close_count_NoDup by done.
  destruct (spawn_valid_fd n f) eqn:Hv.
  - rewrite bool_decide_eq_true_2; [done|]. by apply Hset.
  - rewrite bool_decide_eq_false_2; [done|]. intros [_ ?]%Hset. congruence.
Qed.

Lemma process_err_out_alias p x w :
  procs w !! p = Some x →
  ∃ w' x', process_err_out p w = (Ret tt, w') ∧ procs w' !! p = Some x' ∧
    stderr_fd_ x' = stdout_fd_ x' ∧ stdout_fd_ x' = stdout_fd_ x.
Proof.
  intros Hx. unfold process_err_out, process_err, get_process, put_process.
  mrun_with idtac. change (list_lookup p (procs w)) with (procs w !! p). rewrite Hx. simpl.
  change (list_lookup p (procs w)) with (procs w !! p). rewrite Hx. simpl.
  eexists _, _. split; [done|]. simpl.
  split; [apply list_lookup_insert_eq; by eapply lookup_lt_Some|done].
Qed.

Lemma process_out_err_alias p x w :
  procs w !! p = Some x →
  ∃ w' x', process_out_err p w = (Ret tt, w') ∧ procs w' !! p = Some x' ∧
    stdout_fd_ x' = stderr_fd_ x' ∧ stderr_fd_ x' = stderr_fd_ x.
Proof.
  intros Hx. unfold process_out_err, process_out, get_process, put_process.
  mrun_with idtac. change (list_lookup p (procs w)) with (procs w !! p). rewrite Hx. simpl.
  change (list_lookup p (procs w)) with (procs w !! p). rewrite Hx. simpl.
  eexists _, _. split; [done|]. simpl.
  split; [apply list_lookup_insert_eq; by eapply lookup_lt_Some|done].
Qed.

(** C7.  [posix_spawn_file_actions::close] enters the descriptor in
    [closed_fds_] and asks for a close action exactly when the
    descriptor is closable and its [fd()] is not yet in [closed_fds_];
    the action is added when [fd()] is below the descriptor limit,
    which [posix_spawn_file_actions_addclose] requires.  So the action
    list that [execute] builds holds no descriptor twice; it holds the
    [fd()] of every closable descriptor of the three slots exactly once
    when that [fd()] is below the limit (and not at all otherwise), also
    when stderr is the same object as stdout (after [err(out_t)]) or
    stdout the same as stderr (after [out(err_t)]); that list is the one
    handed to [posix_spawnp]. *)
Theorem C7_close_action_deduplicated E p x w sh action w1 :
  execute_actions E x w = (Ret (sh, action), w1) →
  (∀ act a d w0, heap w0 !! a = Some d →
     actions_close E act a w0 =
       (Ret (if closable d && negb (bool_decide (fd_ d ∈ closed_fds_ act))
             then {| actions_ := (if (fd_ d <? Z.of_nat (fd_limit E))%Z
                                  then actions_ act ++ [AddClose (fd_ d)]
                                  else actions_ act);
                     closed_fds_ := {[ fd_ d ]} ∪ closed_fds_ act |}
             else act), w0)) ∧
  (∀ f, close_count f (actions_ action) ≤ 1) ∧
  (∀ a d, a ∈ [stdin_fd_ x; stdout_fd_ x; stderr_fd_ x] →
     heap w1 !! a = Some d → closable d = true →
     close_count (fd_ d) (actions_ action) =
       if (fd_ d <? Z.of_nat (fd_limit E))%Z then 1 else 0) ∧
  (∀ w2, execute_spawn E p sh action w1 = (Ret tt, w2) →
     ∃ argv pid, trace w2 = trace w1 ++ [EvSpawn argv (actions_ action) 0 pid]) ∧
  (∀ q y w0, procs w0 !! q = Some y →
     (∃ w' y', process_err_out q w0 = (Ret tt, w') ∧ procs w' !! q = Some y' ∧
        stderr_fd_ y' = stdout_fd_ y' ∧ stdout_fd_ y' = stdout_fd_ y) ∧
     (∃ w' y', process_out_err q w0 = (Ret tt, w') ∧ procs w' !! q = Some y' ∧
        stdout_fd_ y' = stderr_fd_ y' ∧ stderr_fd_ y' = stderr_fd_ y)).
Proof.
  intros H. split; [intros; by apply actions_close_spec|].
  unfold execute_actions in H.
  bind_inv H as (sh0 & w0 & _ & H).
  bind_inv H as (a1 & w2 & H1 & H).
  apply process_fds_ret in H1 as [H1 _]; [|apply actions_wf_new].
  bind_inv H as (a2 & w3 & H2 & H). apply process_fds_ret in H2 as [H2 _]; [|done].
  bind_inv H as (a3 & w4 & H3 & H). apply process_fds_ret in H3 as [H3 _]; [|done].
  bind_inv H as (a4 & w5 & H4 & H).
  apply actions_close_ret in H4 as (-> & Hwf4 & _ & Hin4); [|done].
  bind_inv H as (a5 & w6 & H5 & H).
  apply actions_close_ret in H5 as (-> & Hwf5 & Hmono5 & Hin5); [|done].
  bind_inv H as (a6 & w7 & H6 & H).
  apply actions_close_ret in H6 as (-> & Hwf6 & Hmono6 & Hin6); [|done].
  inversion H; subst; clear H.
  split_and!.
  - intros f. by eapply close_count_le_1.
  - intros a d Ha Hd Hc. rewrite <- (spawn_valid_fd_closable _ _ Hc).
    apply close_count_closed; [done|].
    apply list_elem_of_In in Ha. simpl in Ha.
    destruct Ha as [<-|[<-|[<-|[]]]]; eauto.
  - intros w8 Hs. apply execute_spawn_ret in Hs as (argv & pid & _ & _ & Ht & _). eauto.
  - intros q y w9 Hy. split; [by apply process_err_out_alias | by apply process_out_err_alias].
Qed.

(** ** Pipes *)

Lemma lowest_free_le t : lowest_free t ≤ length t.
Proof. induction t as [|[e|] t IH]; simpl; lia. Qed.

Lemma lowest_free_lookup t e : t !! lowest_free t ≠ Some (Some e).
Proof. induction t as [|[x|] t IH]; simpl; [done| exact IH | done]. Qed.

Lemma fd_install_lookup n e t : n ≤ length t → fd_install n e t !! n = Some (Some e).
Proof.
  intros Hn. unfold fd_install. destruct (n <? length t) eqn:Hlt.
  - apply Nat.ltb_lt in Hlt. by apply list_lookup_insert_eq.
  - apply Nat.ltb_ge in Hlt. assert (n = length t) as -> by lia.
    by rewrite lookup_app_r, Nat.sub_diag.
Qed.

Lemma fd_install_lookup_ne n m e t :
  n ≠ m → m < length t → fd_install n e t !! m = t !! m.
Proof.
  intros Hne Hm. unfold fd_install. destruct (n <? length t) eqn:Hlt.
  - by apply list_lookup_insert_ne.
  - by apply lookup_app_l.
Qed.

Lemma sys_pipe_some E w r wr :
  pipe_fds E w = Some (r, wr) →
  sys_pipe E w = (Ret (Some (Z.of_nat r, Z.of_nat wr)), after_pipe r wr w).
Proof. intros H. unfold sys_pipe. by rewrite H. Qed.

Lemma sys_pipe_none E w :
  pipe_fds E w = None →
  sys_pipe E w = (Ret None, set_trace (trace w ++ [EvPipe None]) (set_errno EMFILE w)).
Proof. intros H. unfold sys_pipe. by rewrite H. Qed.

(** Both descriptors are the two ends of the pipe just made. *)
Lemma after_pipe_fdtab E w r wr :
  pipe_fds E w = Some (r, wr) →
  fdtab (after_pipe r wr w) !! r = Some (Some (FdPipeRead (npipes w))) ∧
  fdtab (after_pipe r wr w) !! wr = Some (Some (FdPipeWrite (npipes w))).
Proof.
  unfold pipe_fds. destruct (_ <? fd_limit E); intros H; inversion H; subst; clear H.
  set (t := fdtab w). set (r := lowest_free t).
  set (t1 := fd_install r (FdPipeRead (npipes w)) t). simpl. fold t r t1.
  assert (t1 !! r = Some (Some (FdPipeRead (npipes w)))) as Hr
    by apply fd_install_lookup, lowest_free_le.
  split; [|apply fd_install_lookup, lowest_free_le].
  rewrite fd_install_lookup_ne; [done| |by eapply lookup_lt_Some].
  intros Heq. apply (lowest_free_lookup t1 (FdPipeRead (npipes w))). by rewrite Heq.
Qed.

Lemma member_of_with_member_fd v c : is_Some (member_of c) → is_Some (member_of (with_member_fd v c)).
Proof. by destruct c. Qed.

Lemma set_fd_live q v w :
  ptr_live q w →
  ∃ w', set_fd q v w = (Ret tt, w') ∧ ∀ q', ptr_live q' w → ptr_live q' w'.
Proof.
  destruct q as [b|b]; simpl.
  - intros [d Hd]. unfold set_fd, store. mrun_with ltac:(rewrite ?Hd).
    eexists. split; [done|]. intros [c|c]; simpl.
    + intros [d' Hd']. apply lookup_lt_is_Some. rewrite length_insert.
      by eapply lookup_lt_Some.
    + intros (d' & Hd' & Hm). destruct (decide (c = b)) as [->|Hne].
      * eexists. rewrite list_lookup_insert_eq by (by eapply lookup_lt_Some).
        split; [done|]. simpl. congruence.
      * exists d'. by rewrite list_lookup_insert_ne.
  - intros (d & Hd & [s Hm]). unfold set_fd, store. mrun_with ltac:(rewrite ?Hd, ?Hm).
    eexists. split; [done|]. intros [c|c]; simpl.
    + intros [d' Hd']. apply lookup_lt_is_Some. rewrite length_insert.
      by eapply lookup_lt_Some.
    + intros (d' & Hd' & Hm'). destruct (decide (c = b)) as [->|Hne].
      * eexists. rewrite list_lookup_insert_eq by (by eapply lookup_lt_Some).
        split; [done|]. simpl. apply member_of_with_member_fd. by rewrite Hm.
      * exists d'. by rewrite list_lookup_insert_ne.
Qed.

Lemma closable_at_whole a d w :
  heap w !! a = Some d → closable_at (Whole a) w = (Ret (closable d), w).
Proof. intros Hd. unfold closable_at. by mrun_with ltac:(rewrite ?Hd). Qed.

Lemma set_fd_whole a d v w :
  heap w !! a = Some d →
  set_fd (Whole a) v w = (Ret tt, set_heap (<[a := {| fd_ := v; cls := cls d |}]> (heap w)) w).
Proof. intros Hd. unfold set_fd, store. by mrun_with ltac:(rewrite ?Hd). Qed.

(** The outcome of [open] on a pipe end that is not open. *)
Lemma opipe_open_outcome E this d l w :
  heap w !! this = Some d → closable d = false →
  (opipe_descriptor_open E this l w).1 =
    match pipe_fds E w, l with
    | None, _ => Throw (os_error ["pipe"] EMFILE)
    | Some _, None => Undef
    | Some _, Some q => (set_fd q 0 w).1
    end.
Proof.
  intros Hd Hc. unfold opipe_descriptor_open.
  rewrite (bind_ret_eq _ _ _ _ _ (closable_at_whole _ _ _ Hd)), Hc.
  destruct (pipe_fds E w) as [[r wr]|] eqn:Hp.
  - rewrite (bind_ret_eq _ _ _ _ _ (sys_pipe_some _ _ _ _ Hp)).
    destruct l as [q|]; [|done]. simpl.
    destruct q as [b|b]; unfold set_fd, store; mrun_with idtac.
    + destruct (heap w !! b) as [db|] eqn:Hb; simpl; [|done].
      destruct (decide (this = b)) as [->|Hne].
      * rewrite list_lookup_insert_eq by (by eapply lookup_lt_Some). done.
      * rewrite list_lookup_insert_ne by done.
        change (list_lookup this (heap w)) with (heap w !! this). by rewrite Hd.
    + destruct (heap w !! b) as [db|] eqn:Hb; simpl; [|done].
      destruct (member_of (cls db)); simpl; [|done].
      destruct (decide (this = b)) as [->|Hne].
      * rewrite list_lookup_insert_eq by (by eapply lookup_lt_Some). done.
      * rewrite list_lookup_insert_ne by done.
        change (list_lookup this (heap w)) with (heap w !! this). by rewrite Hd.
  - by rewrite (bind_ret_eq _ _ _ _ _ (sys_pipe_none _ _ Hp)).
Qed.

Lemma ipipe_open_outcome E this d l w :
  heap w !! this = Some d → closable d = false →
  (ipipe_descriptor_open E this l w).1 =
    match pipe_fds E w, l with
    | None, _ => Throw (os_error ["pipe"] EMFILE)
    | Some _, None => Undef
    | Some _, Some q => (set_fd q 0 w).1
    end.
Proof.
  intros Hd Hc. unfold ipipe_descriptor_open.
  rewrite (bind_ret_eq _ _ _ _ _ (closable_at_whole _ _ _ Hd)), Hc.
  destruct (pipe_fds E w) as [[r wr]|] eqn:Hp.
  - rewrite (bind_ret_eq _ _ _ _ _ (sys_pipe_some _ _ _ _ Hp)).
    assert (heap (after_pipe r wr w) !! this = Some d) as Hd' by done.
    rewrite (bind_ret_eq _ _ _ _ _ (set_fd_whole _ _ _ _ Hd')).
    destruct l as [q|]; [|done]. simpl.
    destruct q as [b|b]; unfold set_fd, store; mrun_with idtac.
    + destruct (decide (this = b)) as [->|Hne].
      * rewrite list_lookup_insert_eq by (by eapply lookup_lt_Some).
        change (list_lookup b (heap w)) with (heap w !! b). by rewrite Hd.
      * rewrite list_lookup_insert_ne by done.
        change (list_lookup b (heap w)) with (heap w !! b). by destruct (heap w !! b).
    + destruct (decide (this = b)) as [->|Hne].
      * rewrite list_lookup_insert_eq by (by eapply lookup_lt_Some).
        change (list_lookup b (heap w)) with (heap w !! b). rewrite Hd. simpl.
        by destruct (member_of (cls d)).
      * rewrite list_lookup_insert_ne by done.
        change (list_lookup b (heap w)) with (heap w !! b).
        destruct (heap w !! b) as [db|]; simpl; [|done]. by destruct (member_of (cls db)).
  - by rewrite (bind_ret_eq _ _ _ _ _ (sys_pipe_none _ _ Hp)).
Qed.

Lemma set_fd_live_outcome q v w : ptr_live q w → (set_fd q v w).1 = Ret tt.
Proof. intros Hq. destruct (set_fd_live q v w Hq) as (w' & -> & _). done. Qed.

(** [link] on two ends that are both free. *)
Lemma link_ret fd1 fd2 d1 d2 w :
  heap w !! fd1 = Some d1 → cls d1 = Ipipe_descriptor None →
  heap w !! fd2 = Some d2 → cls d2 = Opipe_descriptor None →
  ∃ w1, link fd1 fd2 w = (Ret tt, w1) ∧
    heap w1 !! fd1 = Some {| fd_ := fd_ d1; cls := Ipipe_descriptor (Some (Whole fd2)) |} ∧
    heap w1 !! fd2 = Some {| fd_ := fd_ d2; cls := Opipe_descriptor (Some (Whole fd1)) |} ∧
    length (heap w1) = length (heap w) ∧
    fdtab w1 = fdtab w ∧ npipes w1 = npipes w ∧ trace w1 = trace w.
Proof.
  intros H1 C1 H2 C2.
  assert (fd1 ≠ fd2) as Hne by (intros ->; congruence).
  unfold link, set_linked, store. mrun_with ltac:(rewrite ?H1, ?H2, ?C1, ?C2).
  rewrite list_lookup_insert_ne by done.
  change (list_lookup fd2 (heap w)) with (heap w !! fd2). rewrite H2. simpl.
  eexists. split; [done|]. simpl. rewrite C2. simpl.
  rewrite !length_insert. split_and!; try done.
  - rewrite list_lookup_insert_ne by done.
    apply list_lookup_insert_eq. by eapply lookup_lt_Some.
  - apply list_lookup_insert_eq. rewrite length_insert. by eapply lookup_lt_Some.
Qed.

(** [link] when one of the ends already has a partner. *)
Lemma link_throw fd1 fd2 d1 d2 l1 l2 w :
  heap w !! fd1 = Some d1 → pipe_linked (cls d1) = Some l1 →
  heap w !! fd2 = Some d2 → pipe_linked (cls d2) = Some l2 →
  l1 ≠ None ∨ l2 ≠ None →
  link fd1 fd2 w = (Throw (usage_error link_message), w).
Proof.
  intros H1 C1 H2 C2 Hl.
  unfold link. mrun_with ltac:(rewrite ?H1, ?H2, ?C1, ?C2).
  destruct (bool_decide_reflect (l1 ≠ None)); [done|].
  destruct (bool_decide_reflect (l2 ≠ None)); [done|]. tauto.
Qed.

(** [create_pipe] returns two fresh pipe ends linked to each other. *)
Lemma create_pipe_linked w :
  ∃ w', create_pipe w = (Ret (length (heap w), S (length (heap w))), w') ∧
    heap w' !! length (heap w) =
      Some {| fd_ := -1; cls := Ipipe_descriptor (Some (Whole (S (length (heap w))))) |} ∧
    heap w' !! S (length (heap w)) =
      Some {| fd_ := -1; cls := Opipe_descriptor (Some (Whole (length (heap w)))) |}.
Proof.
  unfold create_pipe.
  set (w0 := set_heap ((heap w ++ [new_ipipe (length (heap w))]) ++
                       [new_opipe (S (length (heap w)))]) w).
  assert (heap w0 !! length (heap w) = Some (new_ipipe (length (heap w)))) as H1.
  { simpl. rewrite <- app_assoc. by apply list_lookup_middle. }
  assert (heap w0 !! S (length (heap w)) = Some (new_opipe (S (length (heap w))))) as H2.
  { simpl. apply list_lookup_middle. rewrite length_app. simpl. lia. }
  destruct (link_ret _ _ _ _ w0 H1 eq_refl H2 eq_refl) as (w1 & Hl & Hr & Hw & _).
  exists w1. split; [|done].
  rewrite (bind_ret_eq _ _ w (length (heap w))
             (set_heap (heap w ++ [new_ipipe (length (heap w))]) w)) by done.
  rewrite (bind_ret_eq _ _ _ (S (length (heap w))) w0).
  - by rewrite (bind_ret_eq _ _ _ _ _ Hl).
  - unfold make_descriptor. simpl. rewrite length_app. simpl. by rewrite Nat.add_1_r.
Qed.

Lemma ipipe_open_pair E a b da db w w' :
  heap w !! a = Some da → closable da = false →
  heap w !! b = Some db → a ≠ b →
  ipipe_descriptor_open E a (Some (Whole b)) w = (Ret tt, w') →
  npipes w' = S (npipes w) ∧
  ∃ r wr, pipe_fds E w = Some (r, wr) ∧ fdtab w' = fdtab (after_pipe r wr w) ∧
    heap w' !! a = Some {| fd_ := Z.of_nat r; cls := cls da |} ∧
    heap w' !! b = Some {| fd_ := Z.of_nat wr; cls := cls db |}.
Proof.
  intros Ha Hc Hb Hne. unfold ipipe_descriptor_open.
  rewrite (bind_ret_eq _ _ _ _ _ (closable_at_whole _ _ _ Ha)), Hc.
  destruct (pipe_fds E w) as [[r wr]|] eqn:Hp.
  2:{ by rewrite (bind_ret_eq _ _ _ _ _ (sys_pipe_none _ _ Hp)). }
  rewrite (bind_ret_eq _ _ _ _ _ (sys_pipe_some _ _ _ _ Hp)).
  assert (heap (after_pipe r wr w) !! a = Some da) as Ha' by done.
  rewrite (bind_ret_eq _ _ _ _ _ (set_fd_whole _ _ _ _ Ha')).
  match goal with |- set_linked_fd _ _ ?w2 = _ → _ =>
    assert (heap w2 !! b = Some db) as Hb' by (simpl; by rewrite list_lookup_insert_ne)
  end.
  unfold set_linked_fd. rewrite (set_fd_whole _ _ _ _ Hb'). intros H. inversion H; subst; clear H.
  simpl. split; [done|]. exists r, wr. split_and!; [done|done| |].
  - rewrite list_lookup_insert_ne by done.
    apply list_lookup_insert_eq. by eapply lookup_lt_Some.
  - apply list_lookup_insert_eq. rewrite length_insert. by eapply lookup_lt_Some.
Qed.

Lemma opipe_open_pair E a b da db w w' :
  heap w !! b = Some db → closable db = false →
  heap w !! a = Some da → a ≠ b →
  opipe_descriptor_open E b (Some (Whole a)) w = (Ret tt, w') →
  npipes w' = S (npipes w) ∧
  ∃ r wr, pipe_fds E w = Some (r, wr) ∧ fdtab w' = fdtab (after_pipe r wr w) ∧
    heap w' !! a = Some {| fd_ := Z.of_nat r; cls := cls da |} ∧
    heap w' !! b = Some {| fd_ := Z.of_nat wr; cls := cls db |}.
Proof.
  intros Hb Hc Ha Hne. unfold opipe_descriptor_open.
  rewrite (bind_ret_eq _ _ _ _ _ (closable_at_whole _ _ _ Hb)), Hc.
  destruct (pipe_fds E w) as [[r wr]|] eqn:Hp.
  2:{ by rewrite (bind_ret_eq _ _ _ _ _ (sys_pipe_none _ _ Hp)). }
  rewrite (bind_ret_eq _ _ _ _ _ (sys_pipe_some _ _ _ _ Hp)).
  assert (heap (after_pipe r wr w) !! a = Some da) as Ha' by done.
  unfold set_linked_fd. rewrite (bind_ret_eq _ _ _ _ _ (set_fd_whole _ _ _ _ Ha')).
  match goal with |- set_fd _ _ ?w2 = _ → _ =>
    assert (heap w2 !! b = Some db) as Hb' by (simpl; by rewrite list_lookup_insert_ne)
  end.
  rewrite (set_fd_whole _ _ _ _ Hb'). intros H. inversion H; subst; clear H.
  simpl. split; [done|]. exists r, wr. split_and!; [done|done| |].
  - rewrite list_lookup_insert_ne by done.
    apply list_lookup_insert_eq. by eapply lookup_lt_Some.
  - apply list_lookup_insert_eq. rewrite length_insert. by eapply lookup_lt_Some.
Qed.

Lemma pair_one_pipe E a b ca cb w w' r wr :
  pipe_fds E w = Some (r, wr) → fdtab w' = fdtab (after_pipe r wr w) →
  heap w' !! a = Some {| fd_ := Z.of_nat r; cls := ca |} →
  heap w' !! b = Some {| fd_ := Z.of_nat wr; cls := cb |} →
  one_pipe a b (npipes w) w'.
Proof.
  intros Hp Ht Ha Hb. destruct (after_pipe_fdtab _ _ _ _ Hp) as [Hr Hw].
  exists (Z.of_nat r), (Z.of_nat wr), ca, cb. rewrite !Nat2Z.id, Ht.
  split_and!; try done; lia.
Qed.

(** [open] on a pipe end that is open does nothing at all. *)
Lemma pipe_open_again E a d w :
  heap w !! a = Some d → closable d = true →
  (∃ l, cls d = Ipipe_descriptor l ∨ cls d = Opipe_descriptor l) →
  descriptor_open E a w = (Ret tt, w).
Proof.
  intros Hd Hc [l Hl]. unfold descriptor_open.
  rewrite (bind_ret_eq _ _ _ _ _ (load_ret _ _ _ Hd)).
  destruct Hl as [-> | ->]; unfold ipipe_descriptor_open, opipe_descriptor_open;
    by rewrite (bind_ret_eq _ _ _ _ _ (closable_at_whole _ _ _ Hd)), Hc.
Qed.

(** [open] on a pipe end that is not open returns when [::pipe]
    succeeds. *)
Lemma ipipe_open_some E a b da db w r wr :
  heap w !! a = Some da → closable da = false →
  heap w !! b = Some db → a ≠ b → pipe_fds E w = Some (r, wr) →
  ∃ w', ipipe_descriptor_open E a (Some (Whole b)) w = (Ret tt, w').
Proof.
  intros Ha Hc Hb Hne Hp. unfold ipipe_descriptor_open.
  rewrite (bind_ret_eq _ _ _ _ _ (closable_at_whole _ _ _ Ha)), Hc.
  rewrite (bind_ret_eq _ _ _ _ _ (sys_pipe_some _ _ _ _ Hp)).
  assert (heap (after_pipe r wr w) !! a = Some da) as Ha' by done.
  rewrite (bind_ret_eq _ _ _ _ _ (set_fd_whole _ _ _ _ Ha')).
  match goal with |- ∃ _, set_linked_fd _ _ ?w2 = _ =>
    assert (heap w2 !! b = Some db) as Hb' by (simpl; by rewrite list_lookup_insert_ne)
  end.
  unfold set_linked_fd. rewrite (set_fd_whole _ _ _ _ Hb'). by eexists.
Qed.

Lemma opipe_open_some E a b da db w r wr :
  heap w !! b = Some db → closable db = false →
  heap w !! a = Some da → a ≠ b → pipe_fds E w = Some (r, wr) →
  ∃ w', opipe_descriptor_open E b (Some (Whole a)) w = (Ret tt, w').
Proof.
  intros Hb Hc Ha Hne Hp. unfold opipe_descriptor_open.
  rewrite (bind_ret_eq _ _ _ _ _ (closable_at_whole _ _ _ Hb)), Hc.
  rewrite (bind_ret_eq _ _ _ _ _ (sys_pipe_some _ _ _ _ Hp)).
  assert (heap (after_pipe r wr w) !! a = Some da) as Ha' by done.
  unfold set_linked_fd. rewrite (bind_ret_eq _ _ _ _ _ (set_fd_whole _ _ _ _ Ha')).
  match goal with |- ∃ _, set_fd _ _ ?w2 = _ =>
    assert (heap w2 !! b = Some db) as Hb' by (simpl; by rewrite list_lookup_insert_ne)
  end.
  rewrite (set_fd_whole _ _ _ _ Hb'). by eexists.
Qed.

(** C6.  [link] on two pipe ends of which one already has a partner
    throws the usage error and changes nothing.  Two free ends get
    linked.  When then either end, not yet open, is opened and
    [::pipe] succeeds, [open] returns, one more pipe exists, both ends
    hold non-negative descriptors that are the read and the write
    descriptor of that one pipe, and [open] on the other end returns
    without changing the world; when [::pipe] fails, [open] throws the
    OS error for [pipe]. *)
Theorem C6_pipe_linkage E fd1 fd2 d1 d2 l1 l2 w :
  heap w !! fd1 = Some d1 → pipe_linked (cls d1) = Some l1 →
  heap w !! fd2 = Some d2 → pipe_linked (cls d2) = Some l2 →
  (l1 ≠ None ∨ l2 ≠ None → link fd1 fd2 w = (Throw (usage_error link_message), w)) ∧
  (cls d1 = Ipipe_descriptor None → cls d2 = Opipe_descriptor None →
   let w1 := (link fd1 fd2 w).2 in
   link fd1 fd2 w = (Ret tt, w1) ∧
   (closable d1 = false →
      match pipe_fds E w1 with
      | Some _ =>
          ∃ w2, descriptor_open E fd1 w1 = (Ret tt, w2) ∧
            npipes w2 = S (npipes w1) ∧ one_pipe fd1 fd2 (npipes w1) w2 ∧
            descriptor_open E fd2 w2 = (Ret tt, w2)
      | None => (descriptor_open E fd1 w1).1 = Throw (os_error ["pipe"] EMFILE)
      end) ∧
   (closable d2 = false →
      match pipe_fds E w1 with
      | Some _ =>
          ∃ w2, descriptor_open E fd2 w1 = (Ret tt, w2) ∧
            npipes w2 = S (npipes w1) ∧ one_pipe fd1 fd2 (npipes w1) w2 ∧
            descriptor_open E fd1 w2 = (Ret tt, w2)
      | None => (descriptor_open E fd2 w1).1 = Throw (os_error ["pipe"] EMFILE)
      end)).
Proof.
  intros H1 L1 H2 L2. split; [by eapply link_throw|].
  intros C1 C2. assert (fd1 ≠ fd2) as Hne by (intros ->; congruence).
  destruct (link_ret _ _ _ _ _ H1 C1 H2 C2) as (w1 & Hl & Hd1 & Hd2 & _).
  rewrite Hl. simpl. split; [done|]. split.
  - intros Hc.
    assert (closable {| fd_ := fd_ d1; cls := Ipipe_descriptor (Some (Whole fd2)) |} = false)
      as Hc' by (unfold closable in *; by rewrite C1 in Hc).
    assert (descriptor_open E fd1 w1 = ipipe_descriptor_open E fd1 (Some (Whole fd2)) w1) as Ho.
    { unfold descriptor_open. by rewrite (bind_ret_eq _ _ _ _ _ (load_ret _ _ _ Hd1)). }
    rewrite Ho. destruct (pipe_fds E w1) as [[r wr]|] eqn:Hp.
    + destruct (ipipe_open_some _ _ _ _ _ _ _ _ Hd1 Hc' Hd2 Hne Hp) as [w2 Hw2].
      exists w2. split; [done|].
      apply (ipipe_open_pair _ _ _ _ _ _ _ Hd1 Hc' Hd2 Hne) in Hw2
        as (Hn & r' & wr' & Hp' & Ht & Ha & Hb).
      split_and!; [done|by eapply pair_one_pipe|].
      eapply pipe_open_again; [exact Hb| |simpl; eauto].
      unfold closable. simpl. apply Z.leb_le. lia.
    + by rewrite (ipipe_open_outcome _ _ _ _ _ Hd1 Hc'), Hp.
  - intros Hc.
    assert (closable {| fd_ := fd_ d2; cls := Opipe_descriptor (Some (Whole fd1)) |} = false)
      as Hc' by (unfold closable in *; by rewrite C2 in Hc).
    assert (descriptor_open E fd2 w1 = opipe_descriptor_open E fd2 (Some (Whole fd1)) w1) as Ho.
    { unfold descriptor_open. by rewrite (bind_ret_eq _ _ _ _ _ (load_ret _ _ _ Hd2)). }
    rewrite Ho. destruct (pipe_fds E w1) as [[r wr]|] eqn:Hp.
    + destruct (opipe_open_some _ _ _ _ _ _ _ _ Hd2 Hc' Hd1 Hne Hp) as [w2 Hw2].
      exists w2. split; [done|].
      apply (opipe_open_pair _ _ _ _ _ _ _ Hd2 Hc' Hd1 Hne) in Hw2
        as (Hn & r' & wr' & Hp' & Ht & Ha & Hb).
      split_and!; [done|by eapply pair_one_pipe|].
      eapply pipe_open_again; [exact Ha| |simpl; eauto].
      unfold closable. simpl. apply Z.leb_le. lia.
    + by rewrite (opipe_open_outcome _ _ _ _ _ Hd2 Hc'), Hp.
Qed.

Lemma make_ovariable_linked o w :
  ∃ w' d, make_descriptor (new_ovariable o) w = (Ret (length (heap w)), w') ∧
    heap w' !! length (heap w) = Some d ∧
    pipe_linked (cls d) = Some (Some (Member (length (heap w)))) ∧
    ptr_live (Member (length (heap w))) w'.
Proof.
  eexists _, _. split; [reflexivity|]. simpl.
  split; [by apply list_lookup_middle|]. split; [done|].
  eexists. split; [by apply list_lookup_middle|]. by eexists.
Qed.

Lemma make_ivariable_linked i w :
  ∃ w' d, make_descriptor (new_ivariable i) w = (Ret (length (heap w)), w') ∧
    heap w' !! length (heap w) = Some d ∧
    pipe_linked (cls d) = Some (Some (Member (length (heap w)))) ∧
    ptr_live (Member (length (heap w))) w'.
Proof.
  eexists _, _. split; [reflexivity|]. simpl.
  split; [by apply list_lookup_middle|]. split; [done|].
  eexists. split; [by apply list_lookup_middle|]. by eexists.
Qed.

(** ** What [open] on a pipe end writes *)

Lemma get_fd_member a d s w :
  heap w !! a = Some d → member_of (cls d) = Some s →
  get_fd (Member a) w = (Ret (sub_fd_ s), w) ∧
  closable_at (Member a) w = (Ret (0 <=? sub_fd_ s)%Z, w) ∧
  ∀ v, set_fd (Member a) v w =
    (Ret tt, set_heap (<[a := {| fd_ := fd_ d; cls := with_member_fd v (cls d) |}]> (heap w)) w).
Proof.
  intros Hd Hs.
  assert (get_fd (Member a) w = (Ret (sub_fd_ s), w)) as Hg.
  { unfold get_fd. by rewrite (bind_ret_eq _ _ _ _ _ (load_ret _ _ _ Hd)), Hs. }
  split_and!; [done| |intros v].
  - unfold closable_at. by rewrite (bind_ret_eq _ _ _ _ _ Hg).
  - unfold set_fd, store. by rewrite (bind_ret_eq _ _ _ _ _ (load_ret _ _ _ Hd)), Hs.
Qed.

Lemma get_fd_whole a d w : heap w !! a = Some d → get_fd (Whole a) w = (Ret (fd_ d), w).
Proof. intros Hd. unfold get_fd. by rewrite (bind_ret_eq _ _ _ _ _ (load_ret _ _ _ Hd)). Qed.

Lemma get_fd_inv q w v w' :
  get_fd q w = (Ret v, w') →
  w' = w ∧ ∃ d, heap w !! cell_of q = Some d ∧
    match q with
    | Whole _ => v = fd_ d
    | Member _ => ∃ s, member_of (cls d) = Some s ∧ v = sub_fd_ s
    end.
Proof.
  destruct q as [b|b]; unfold get_fd; intros H; bind_inv H as (d & w1 & Hl & H);
    apply load_inv in Hl as [-> Hd]; simpl.
  - inversion H; subst. split; [done|]. by exists d.
  - destruct (member_of (cls d)) as [s|] eqn:Hm; inversion H; subst.
    split; [done|]. exists d. split; [done|]. by exists s.
Qed.

Lemma set_fd_spec q v w :
  ptr_live q w →
  ∃ w', set_fd q v w = (Ret tt, w') ∧ get_fd q w' = (Ret v, w') ∧
    fdtab w' = fdtab w ∧ npipes w' = npipes w ∧
    (∀ q', ptr_live q' w → ptr_live q' w') ∧
    (∀ q' v', q' ≠ q → get_fd q' w = (Ret v', w) → get_fd q' w' = (Ret v', w')).
Proof.
  intros Hq. destruct (set_fd_live q v w Hq) as (w' & Hs & Hlive).
  exists w'. split; [done|].
  destruct q as [b|b]; simpl in Hq.
  - destruct Hq as [d Hd]. rewrite (set_fd_whole _ _ _ _ Hd) in Hs.
    inversion Hs; subst w'; clear Hs.
    assert (b < length (heap w)) as Hb by (by eapply lookup_lt_Some).
    set (w' := set_heap _ w) in *.
    assert (heap w' !! b = Some {| fd_ := v; cls := cls d |}) as Hd'
      by (by apply list_lookup_insert_eq).
    split_and!; try done.
    + by rewrite (get_fd_whole _ _ _ Hd').
    + intros q' v' Hne Hg. apply get_fd_inv in Hg as (_ & d' & Hc & Hv).
      destruct q' as [c|c]; simpl in Hc.
      * assert (c ≠ b) by congruence. subst v'. apply get_fd_whole.
        subst w'. simpl. by rewrite list_lookup_insert_ne.
      * destruct Hv as (s & Hm & ->). destruct (decide (c = b)) as [->|Hcb].
        -- assert (d' = d) as -> by congruence.
           by destruct (get_fd_member b _ s w' Hd' Hm) as (Hg & _).
        -- assert (heap w' !! c = Some d') as Hc'
             by (subst w'; simpl; by rewrite list_lookup_insert_ne).
           by destruct (get_fd_member c _ s w' Hc' Hm) as (Hg & _).
  - destruct Hq as (d & Hd & [s Hm]).
    assert (b < length (heap w)) as Hb by (by eapply lookup_lt_Some).
    destruct (get_fd_member _ _ _ w Hd Hm) as (_ & _ & Hset). rewrite Hset in Hs.
    inversion Hs; subst w'; clear Hs.
    set (w' := set_heap _ w) in *.
    assert (heap w' !! b = Some {| fd_ := fd_ d; cls := with_member_fd v (cls d) |}) as Hd'
      by (by apply list_lookup_insert_eq).
    assert (member_of (with_member_fd v (cls d)) =
            Some {| sub_fd_ := v; sub_linked_fd_ := sub_linked_fd_ s |}) as Hm'
      by (destruct (cls d); inversion Hm; by subst).
    split_and!; try done.
    + by destruct (get_fd_member b _ _ w' Hd' Hm') as (Hg & _).
    + intros q' v' Hne Hg. apply get_fd_inv in Hg as (_ & d' & Hc & Hv).
      destruct q' as [c|c]; simpl in Hc.
      * subst v'. destruct (decide (c = b)) as [->|Hcb].
        -- assert (d' = d) as -> by congruence. by rewrite (get_fd_whole _ _ _ Hd').
        -- apply get_fd_whole. subst w'. simpl. by rewrite list_lookup_insert_ne.
      * assert (c ≠ b) by congruence. destruct Hv as (s' & Hm'' & ->).
        assert (heap w' !! c = Some d') as Hc'
          by (subst w'; simpl; by rewrite list_lookup_insert_ne).
        by destruct (get_fd_member c _ s' w' Hc' Hm'') as (Hg & _).
Qed.

(** [open] on a write end and on a read end with a live partner: the
    descriptors that the object and its partner hold afterwards. *)
Lemma opipe_open_fds E this d q r wr w :
  heap w !! this = Some d → closable d = false →
  pipe_fds E w = Some (r, wr) → ptr_live q w → q ≠ Whole this →
  ∃ w', opipe_descriptor_open E this (Some q) w = (Ret tt, w') ∧
    get_fd (Whole this) w' = (Ret (Z.of_nat wr), w') ∧
    get_fd q w' = (Ret (Z.of_nat r), w') ∧
    fdtab w' = fdtab (after_pipe r wr w).
Proof.
  intros Hd Hc Hp Hq Hne. unfold opipe_descriptor_open.
  rewrite (bind_ret_eq _ _ _ _ _ (closable_at_whole _ _ _ Hd)), Hc.
  rewrite (bind_ret_eq _ _ _ _ _ (sys_pipe_some _ _ _ _ Hp)).
  set (w1 := after_pipe r wr w).
  assert (ptr_live q w1) as Hq1 by exact Hq.
  assert (ptr_live (Whole this) w1) as Ht1 by (by exists d).
  destruct (set_fd_spec q (Z.of_nat r) w1 Hq1) as (w2 & Hs2 & Hg2 & Hf2 & _ & Hl2 & _).
  unfold set_linked_fd. rewrite (bind_ret_eq _ _ _ _ _ Hs2).
  destruct (set_fd_spec (Whole this) (Z.of_nat wr) w2 (Hl2 _ Ht1))
    as (w3 & Hs3 & Hg3 & Hf3 & _ & _ & Hfr3).
  exists w3. split_and!; [done|done|by apply Hfr3|congruence].
Qed.

Lemma ipipe_open_fds E this d q r wr w :
  heap w !! this = Some d → closable d = false →
  pipe_fds E w = Some (r, wr) → ptr_live q w → q ≠ Whole this →
  ∃ w', ipipe_descriptor_open E this (Some q) w = (Ret tt, w') ∧
    get_fd (Whole this) w' = (Ret (Z.of_nat r), w') ∧
    get_fd q w' = (Ret (Z.of_nat wr), w') ∧
    fdtab w' = fdtab (after_pipe r wr w).
Proof.
  intros Hd Hc Hp Hq Hne. unfold ipipe_descriptor_open.
  rewrite (bind_ret_eq _ _ _ _ _ (closable_at_whole _ _ _ Hd)), Hc.
  rewrite (bind_ret_eq _ _ _ _ _ (sys_pipe_some _ _ _ _ Hp)).
  set (w1 := after_pipe r wr w).
  assert (ptr_live q w1) as Hq1 by exact Hq.
  assert (ptr_live (Whole this) w1) as Ht1 by (by exists d).
  destruct (set_fd_spec (Whole this) (Z.of_nat r) w1 Ht1) as (w2 & Hs2 & Hg2 & Hf2 & _ & Hl2 & _).
  rewrite (bind_ret_eq _ _ _ _ _ Hs2).
  destruct (set_fd_spec q (Z.of_nat wr) w2 (Hl2 _ Hq1))
    as (w3 & Hs3 & Hg3 & Hf3 & _ & _ & Hfr3).
  exists w3. unfold set_linked_fd.
  split_and!; [done|apply Hfr3; [congruence|done]|done|congruence].
Qed.

(** C10.  [open] on a pipe end that is not open: when [::pipe] fails it
    throws the OS error for [pipe]; when [::pipe] succeeds and
    [linked_fd_] is null the null pointer is written through, which is
    undefined; when [linked_fd_] points to a live partner it returns,
    and it has written the other descriptor of the new pipe through
    [linked_fd_]: a write end holds the write descriptor and its partner
    the read descriptor, a read end holds the read descriptor and its
    partner the write descriptor.  [create_pipe] returns two ends
    linked to each other, and the buffer descriptors are constructed
    with [linked_fd_] pointing to their own pipe member. *)
Theorem C10_pipe_open_needs_partner E this d l w :
  heap w !! this = Some d →
  (cls d = Opipe_descriptor l ∨ cls d = Ipipe_descriptor l ∨
   ∃ o s, cls d = Ovariable_descriptor l o s) →
  closable d = false →
  (pipe_fds E w = None →
     (descriptor_open E this w).1 = Throw (os_error ["pipe"] EMFILE)) ∧
  (is_Some (pipe_fds E w) → l = None → (descriptor_open E this w).1 = Undef) ∧
  (is_Some (pipe_fds E w) → ∀ q, l = Some q → ptr_live q w →
     (descriptor_open E this w).1 = Ret tt) ∧
  (∀ r wr q, pipe_fds E w = Some (r, wr) → l = Some q → ptr_live q w → q ≠ Whole this →
     ∃ w', descriptor_open E this w = (Ret tt, w') ∧
       get_fd (Whole this) w' =
         (Ret (Z.of_nat match cls d with Ipipe_descriptor _ => r | _ => wr end), w') ∧
       get_fd q w' =
         (Ret (Z.of_nat match cls d with Ipipe_descriptor _ => wr | _ => r end), w') ∧
       fdtab w' !! r = Some (Some (FdPipeRead (npipes w))) ∧
       fdtab w' !! wr = Some (Some (FdPipeWrite (npipes w)))) ∧
  (∀ w0, ∃ w', create_pipe w0 = (Ret (length (heap w0), S (length (heap w0))), w') ∧
     heap w' !! length (heap w0) =
       Some {| fd_ := -1; cls := Ipipe_descriptor (Some (Whole (S (length (heap w0))))) |} ∧
     heap w' !! S (length (heap w0)) =
       Some {| fd_ := -1; cls := Opipe_descriptor (Some (Whole (length (heap w0)))) |}) ∧
  (∀ w0 o, ∃ w' d', make_descriptor (new_ovariable o) w0 = (Ret (length (heap w0)), w') ∧
     heap w' !! length (heap w0) = Some d' ∧
     pipe_linked (cls d') = Some (Some (Member (length (heap w0)))) ∧
     ptr_live (Member (length (heap w0))) w') ∧
  (∀ w0 i, ∃ w' d', make_descriptor (new_ivariable i) w0 = (Ret (length (heap w0)), w') ∧
     heap w' !! length (heap w0) = Some d' ∧
     pipe_linked (cls d') = Some (Some (Member (length (heap w0)))) ∧
     ptr_live (Member (length (heap w0))) w').
Proof.
  intros Hd Hcls Hc.
  assert ((descriptor_open E this w).1 =
          match pipe_fds E w, l with
          | None, _ => Throw (os_error ["pipe"] EMFILE)
          | Some _, None => Undef
          | Some _, Some q => (set_fd q 0 w).1
          end) as Ho.
  { unfold descriptor_open. rewrite (bind_ret_eq _ _ _ _ _ (load_ret _ _ _ Hd)).
    destruct Hcls as [C | [C | (o & s & C)]]; rewrite C.
    all: first [exact (opipe_open_outcome E this d l w Hd Hc) | exact (ipipe_open_outcome E this d l w Hd Hc)]. }
  split_and!.
  - rewrite Ho. by intros ->.
  - rewrite Ho. by intros [[r wr] ->] ->.
  - rewrite Ho. intros [[r wr] ->] q -> Hq. by apply set_fd_live_outcome.
  - intros r wr q Hp -> Hq Hne.
    destruct (after_pipe_fdtab _ _ _ _ Hp) as [Hr Hw].
    unfold descriptor_open. rewrite (bind_ret_eq _ _ _ _ _ (load_ret _ _ _ Hd)).
    destruct Hcls as [C | [C | (o & s & C)]]; rewrite C.
    + destruct (opipe_open_fds E this d q r wr w Hd Hc Hp Hq Hne) as (w' & Ho' & H1 & H2 & Hf).
      exists w'. by rewrite Hf.
    + destruct (ipipe_open_fds E this d q r wr w Hd Hc Hp Hq Hne) as (w' & Ho' & H1 & H2 & Hf).
      exists w'. by rewrite Hf.
    + destruct (opipe_open_fds E this d q r wr w Hd Hc Hp Hq Hne) as (w' & Ho' & H1 & H2 & Hf).
      exists w'. by rewrite Hf.
  - apply create_pipe_linked.
  - intros. apply make_ovariable_linked.
  - intros. apply make_ivariable_linked.
Qed.

(** What [wait] returns: the exit status in the wait status of the
    child, or 0 when [::waitpid] finds no child. *)
Lemma wait_run p x pid w :
  procs w !! p = Some x → pid_ x = Some pid →
  wait p w =
    match lookup_child pid (children w) with
    | Some ws =>
        (Ret (WEXITSTATUS ws),
         set_trace (trace w ++ [EvWait p; EvWaitpid pid pid])
           (set_children (remove_child pid (children w)) w))
    | None => (Ret 0%Z, set_trace (trace w ++ [EvWait p; EvWaitpid pid (-1)]) w)
    end.
Proof.
  intros Hx Hp. unfold wait, get_process, sys_waitpid. mrun_with idtac.
  change (list_lookup p (procs w)) with (procs w !! p). rewrite Hx. simpl. rewrite Hp.
  unfold set_trace, set_children. simpl.
  destruct (lookup_child pid (children w)); simpl; by rewrite <- app_assoc.
Qed.

Lemma wait_ret_inv p w s w' :
  wait p w = (Ret s, w') →
  ∃ x pid, procs w !! p = Some x ∧ pid_ x = Some pid ∧
    s = match lookup_child pid (children w) with
        | Some ws => WEXITSTATUS ws
        | None => 0%Z
        end.
Proof.
  intros H. destruct (procs w !! p) as [x|] eqn:Hx.
  2:{ unfold wait, get_process in H. mrun_with ltac:(rewrite ?Hx in H). by inversion H. }
  destruct (pid_ x) as [pid|] eqn:Hp.
  2:{ apply (f_equal fst) in H. simpl in H.
      pose proof (proj2 (wait_usage_error p x w Hx) Hp). congruence. }
  exists x, pid. rewrite (wait_run _ _ _ _ Hx Hp) in H.
  destruct (lookup_child pid (children w)); by inversion H.
Qed.

Lemma wait_all_app ps qs s0 w :
  wait_all (ps ++ qs) s0 w = (s ← wait_all ps s0; wait_all qs s) w.
Proof.
  revert s0 w. induction ps as [|p ps IH]; intros s0 w; simpl; [done|].
  rewrite !bind_unfold. destruct (wait p w) as [[s|e|] w1]; [|done..].
  rewrite IH. by rewrite bind_unfold.
Qed.

(** C4.  When [run(std::nothrow)] returns, the calls it made are
    [execute] on every process in order followed by [wait] on every
    process in order.  The value returned is the one that the [wait] on
    the last process returned in this run, after the [execute] of all
    processes and the [wait] on all processes before it: the exit
    status in the wait status of the child of the last process (0 for
    an empty list).  Whatever the outcome, no [wait] is called before
    [execute] has been called on all processes.  For [false | true] the
    result is 0. *)
Theorem C4_run_executes_all_then_waits_all E c w status w' :
  run_nothrow E c w = (Ret status, w') →
  (∃ evs, trace w' = trace w ++ evs ∧
     calls evs = (EvExecute <$> processes_ c) ++ (EvWait <$> processes_ c)) ∧
  match last (processes_ c) with
  | Some p =>
      ∃ init w1 s w2 x pid,
        processes_ c = init ++ [p] ∧
        execute_all E (processes_ c) w = (Ret tt, w1) ∧
        wait_all init 0 w1 = (Ret s, w2) ∧
        wait p w2 = (Ret status, w') ∧
        procs w2 !! p = Some x ∧ pid_ x = Some pid ∧
        status = match lookup_child pid (children w2) with
                 | Some ws => WEXITSTATUS ws
                 | None => 0%Z
                 end
  | None => status = 0%Z
  end ∧
  (∀ w0, ∃ evs k, trace (run_nothrow E c w0).2 = trace w0 ++ evs ∧
     (calls evs = EvExecute <$> take k (processes_ c) ∨
      calls evs = (EvExecute <$> processes_ c) ++ (EvWait <$> take k (processes_ c)))) ∧
  (false_true_run demo_world).1 = Ret 0%Z.
Proof.
  intros H. split_and!.
  - unfold run_nothrow in H. bind_inv H as ([] & w1 & He & Hw).
    destruct (execute_all_calls E (processes_ c) w) as (e1 & k1 & Ht1 & Hc1 & Hk1).
    destruct (wait_all_calls (processes_ c) 0 w1) as (e2 & k2 & Ht2 & Hc2 & Hk2).
    rewrite He in Ht1, Hk1. rewrite Hw in Ht2, Hk2. simpl in *.
    rewrite (Hk1 () eq_refl), firstn_all in Hc1.
    rewrite (Hk2 status eq_refl), firstn_all in Hc2.
    exists (e1 ++ e2). by rewrite Ht2, Ht1, app_assoc, calls_app, Hc1, Hc2.
  - unfold run_nothrow in H. bind_inv H as ([] & w1 & He & Hw).
    destruct (last (processes_ c)) as [p|] eqn:Hl.
    + apply last_Some in Hl as [init Hi]. rewrite Hi, wait_all_app in Hw.
      bind_inv Hw as (s & w2 & Hw1 & Hw2). simpl in Hw2.
      bind_inv Hw2 as (s' & w3 & Hw2 & Hr). inversion Hr; subst s' w3; clear Hr.
      destruct (wait_ret_inv _ _ _ _ Hw2) as (x & pid & Hx & Hp & Hs).
      exists init, w1, s, w2, x, pid. by rewrite <- Hi.
    + apply last_None in Hl. rewrite Hl in Hw. by inversion Hw.
  - intros w0. unfold run_nothrow. rewrite bind_unfold.
    destruct (execute_all_calls E (processes_ c) w0) as (e1 & k1 & Ht1 & Hc1 & Hk1).
    destruct (execute_all E (processes_ c) w0) as [[[]|e|] w1]; simpl in *;
      [|exists e1, k1; split; [done|by left]..].
    destruct (wait_all_calls (processes_ c) 0 w1) as (e2 & k2 & Ht2 & Hc2 & _).
    rewrite (Hk1 () eq_refl), firstn_all in Hc1.
    exists (e1 ++ e2), k2. split; [by rewrite Ht2, Ht1, app_assoc|]. right.
    by rewrite calls_app, Hc1, Hc2.
  - vm_compute. reflexivity.
Qed.

(** C9, as amended.  [wait] throws the usage error iff [pid_] is empty.
    [pid_] is empty in a new process, an [execute] that throws leaves
    it as it is, an [execute] that returns has set it, and [wait] itself
    never changes it: [wait] is refused exactly as long as no [execute]
    has succeeded, and a repeated [wait] is not refused. *)
Theorem C9_wait_usage_error_iff_not_executed E p x w :
  procs w !! p = Some x →
  ((wait p w).1 = Throw (usage_error wait_message) ↔ pid_ x = None) ∧
  (∀ cmd w0, ∃ w' y, posix_process_new cmd w0 = (Ret (length (procs w0)), w') ∧
     procs w' !! length (procs w0) = Some y ∧ pid_ y = None) ∧
  (∀ e w', execute E p w = (Throw e, w') → procs w' = procs w) ∧
  (∀ w', execute E p w = (Ret tt, w') → ∃ pid, procs w' !! p = Some (with_pid x pid)) ∧
  procs (wait p w).2 = procs w.
Proof.
  intros Hx. split_and!.
  - by apply wait_usage_error.
  - intros cmd w0. destruct (posix_process_new_fresh cmd w0) as (w' & Hn & y & Hy & Hp). eauto.
  - intros e w'. apply execute_throw.
  - intros w' He. apply execute_ret_pid in He as (x' & pid & Hx' & Hp).
    exists pid. congruence.
  - by destruct (steps_wait p w) as (Hp & _).
Qed.

(** C1.  [cmd < path] puts an output-file descriptor into the stdin
    slot: its [open] calls [::open] with [O_WRONLY], where an input-file
    descriptor would have [O_RDONLY]. *)
Theorem C1_stdin_from_path_is_write_only :
  (redirect_stdin_path_run demo_world).1 = Ret (Ofile_descriptor "in.txt" O_WRONLY) ∧
  trace (redirect_stdin_path_run demo_world).2 = [EvOpen "in.txt" O_WRONLY 3] ∧
  cls (new_ifile "in.txt" 0 3) = Ifile_descriptor "in.txt" O_RDONLY ∧
  O_WRONLY ≠ O_RDONLY.
Proof. split_and!; [reflexivity..|done]. Qed.

(** C2.  The second [::read] of the drain fails; [close] returns all
    the same, [run] returns 0, and the caller's string holds what was
    read before the failure. *)
Theorem C2_read_error_is_dropped :
  (capture_run failing_read_world).1 = Ret 0%Z ∧
  vars (capture_run failing_read_world).2 = ["par"] ∧
  trace (capture_run failing_read_world).2 =
    [EvExecute 0; EvWordexp "cat" 0; EvPipe (Some (3%Z, 4%Z));
     EvSpawn ["cat"] [AddDup2 0 0; AddDup2 4 1; AddDup2 2 2; AddClose 4] 0 100;
     EvClose (Whole 3) 4; EvRead 3 3; EvRead 3 (-1); EvClose (Member 3) 3;
     EvExecuted 0; EvWait 0; EvWaitpid 100 100].
Proof. split_and!; vm_compute; reflexivity. Qed.

(** C3.  [wordexp] fails on the command; [execute] goes on with the
    null [we_wordv] and ends in undefined behaviour instead of an OS
    error. *)
Theorem C3_expansion_failure_is_not_reported :
  wordexp_of demo_env "ls | wc" = (WRDE_BADCHAR, None) ∧
  (bad_command_run demo_world).1 = Undef ∧
  trace (bad_command_run demo_world).2 = [EvExecute 0; EvWordexp "ls | wc" WRDE_BADCHAR].
Proof. split_and!; vm_compute; reflexivity. Qed.

(** C8.  An output file that was opened on descriptor 0 is open, and
    still a second [open] opens the file again: [fd()] changes from 0 to
    3 and the table holds the file twice. *)
Theorem C8_file_reopened_at_descriptor_zero :
  (reopen_run stdin_closed_world).1 = Ret (0%Z, 3%Z) ∧
  trace (reopen_run stdin_closed_world).2 =
    [EvOpen "out.txt" O_WRONLY 0; EvOpen "out.txt" O_WRONLY 3] ∧
  fdtab (reopen_run stdin_closed_world).2 =
    [Some (FdFile "out.txt" O_WRONLY); Some FdInherited; Some FdInherited;
     Some (FdFile "out.txt" O_WRONLY)].
Proof. split_and!; vm_compute; reflexivity. Qed.

(** C9 as written fails: after [execute] and one [wait], a second
    [wait] is accepted although [wait] has been called before. *)
Lemma C9_wait_twice_accepted : ¬ wait_valid_as_claimed 0 false_waited.
Proof.
  intros [Hvalid _].
  assert (wait_accepted 0 false_waited) as Hacc by (vm_compute; discriminate).
  destruct (Hvalid Hacc) as [_ Hnot]. apply Hnot.
  apply list_elem_of_In. vm_compute. tauto.
Qed.

(** The run of [false | true]: the status is that of [true], the last
    process, whose child 101 has the wait status 0. *)
Lemma C4_witness :
  run_nothrow demo_env false_true_command false_true_world = (Ret 0%Z, false_true_final) ∧
  (∃ evs, trace false_true_final = trace false_true_world ++ evs ∧
     calls evs = [EvExecute 0; EvExecute 1; EvWait 0; EvWait 1]) ∧
  ∃ init w1 s w2 x pid,
    processes_ false_true_command = init ++ [1] ∧
    execute_all demo_env (processes_ false_true_command) false_true_world = (Ret tt, w1) ∧
    wait_all init 0 w1 = (Ret s, w2) ∧
    wait 1 w2 = (Ret 0%Z, false_true_final) ∧
    procs w2 !! 1 = Some x ∧ pid_ x = Some pid ∧
    0%Z = match lookup_child pid (children w2) with
          | Some ws => WEXITSTATUS ws
          | None => 0%Z
          end.
Proof.
  split; [vm_compute; reflexivity|].
  destruct (C4_run_executes_all_then_waits_all demo_env false_true_command false_true_world
              0%Z false_true_final) as (H1 & H2 & _);
    [vm_compute; reflexivity|].
  split; [exact H1|exact H2].
Defined.

(** The [execute] of [cat] with both buffers. *)
Lemma C5_witness :
  execute demo_env 0 cat_world = (Ret tt, cat_executed) ∧
  ∃ x w1 pre argv acts pid post,
    execute_spawned demo_env 0 cat_world = (Ret x, w1) ∧
    trace w1 = trace cat_world ++ pre ++ [EvSpawn argv acts 0 pid] ∧
    trace cat_executed = trace w1 ++ post ∧
    ∀ a, a ∈ [stdin_fd_ x; stdout_fd_ x; stderr_fd_ x] →
      ∃ d d', heap w1 !! a = Some d ∧ heap cat_executed !! a = Some d' ∧
        closable d' = false ∧
        (closable d = true → fd_ d' = (-1)%Z) ∧
        closes_by a pre = [] ∧
        closes_by a post = (if closable d then [fd_ d] else []).
Proof.
  split; [vm_compute; reflexivity|].
  apply (C5_spawn_close_parity demo_env 0 cat_world cat_executed).
  vm_compute; reflexivity.
Defined.

(** Two fresh ends, linked, the read end opened first. *)
Lemma C6_witness :
  unlinked_world.(heap) !! 3 = Some (new_ipipe 3) ∧
  unlinked_world.(heap) !! 4 = Some (new_opipe 4) ∧
  link 3 4 unlinked_world = (Ret tt, linked_world) ∧
  ∃ w2, descriptor_open demo_env 3 linked_world = (Ret tt, w2) ∧
    npipes w2 = 1 ∧ one_pipe 3 4 0 w2 ∧
    descriptor_open demo_env 4 w2 = (Ret tt, w2).
Proof.
  split; [reflexivity|]. split; [reflexivity|].
  destruct (C6_pipe_linkage demo_env 3 4 (new_ipipe 3) (new_opipe 4) None None unlinked_world
              eq_refl eq_refl eq_refl eq_refl) as [_ H].
  destruct (H eq_refl eq_refl) as (Hl & Hr & _).
  split; [exact Hl|]. exact (Hr eq_refl).
Defined.

(** [cat] with stderr aliased to stdout: one close action for 5. *)
Lemma C7_witness :
  execute_actions demo_env cat_process cat_world = (Ret (Some ["cat"], cat_actions), cat_prepared) ∧
  close_count 5 (actions_ cat_actions) = 1.
Proof.
  split; [vm_compute; reflexivity|].
  destruct (C7_close_action_deduplicated demo_env 0 cat_process cat_world (Some ["cat"])
              cat_actions cat_prepared) as (_ & _ & H & _); [vm_compute; reflexivity|].
  apply (H 4 {| fd_ := 5; cls := Ovariable_descriptor (Some (Member 4)) 0
                                    {| sub_fd_ := 4; sub_linked_fd_ := None |} |}).
  - apply list_elem_of_In. simpl. tauto.
  - vm_compute; reflexivity.
  - reflexivity.
Defined.

(** A new process: [wait] throws the usage error. *)
Lemma C9_witness :
  procs false_world !! 0 = Some false_process ∧
  ((wait 0 false_world).1 = Throw (usage_error wait_message) ↔ pid_ false_process = None).
Proof.
  split; [reflexivity|].
  apply (C9_wait_usage_error_iff_not_executed demo_env 0 false_process false_world). reflexivity.
Defined.

(** A read end without partner. *)
Lemma C10_witness :
  heap unlinked_world !! 3 = Some (new_ipipe 3) ∧
  closable (new_ipipe 3) = false ∧
  (descriptor_open demo_env 3 unlinked_world).1 = Undef ∧
  heap linked_world !! 3 = Some {| fd_ := -1; cls := Ipipe_descriptor (Some (Whole 4)) |} ∧
  pipe_fds demo_env linked_world = Some (3, 4) ∧
  ∃ w', descriptor_open demo_env 3 linked_world = (Ret tt, w') ∧
    get_fd (Whole 3) w' = (Ret 3%Z, w') ∧ get_fd (Whole 4) w' = (Ret 4%Z, w').
Proof.
  split; [reflexivity|]. split; [reflexivity|]. split.
  { destruct (C10_pipe_open_needs_partner demo_env 3 (new_ipipe 3) None unlinked_world eq_refl)
      as (_ & H & _); [by right; left|reflexivity|].
    apply H; [by eexists|reflexivity]. }
  split; [reflexivity|]. split; [reflexivity|].
  destruct (C10_pipe_open_needs_partner demo_env 3
              {| fd_ := -1; cls := Ipipe_descriptor (Some (Whole 4)) |} (Some (Whole 4))
              linked_world eq_refl) as (_ & _ & _ & H & _); [by right; left|reflexivity|].
  destruct (H 3 4 (Whole 4) eq_refl eq_refl) as (w' & Ho & H1 & H2 & _).
  - by eexists.
  - discriminate.
  - exists w'. split; [exact Ho|]. split; [exact H1|exact H2].
Defined.

(** * Further properties *)

(** ** Closing and opening again *)

Lemma descriptor_close_not_open a d w :
  heap w !! a = Some d → closable d = false → descriptor_close a w = (Ret tt, w).
Proof.
  intros Hd Hc. unfold descriptor_close.
  rewrite (bind_ret_eq _ _ _ _ _ (load_ret _ _ _ Hd)).
  destruct (cls d) eqn:Hcls; try done;
    unfold idescriptor_close, odescriptor_close, ovariable_descriptor_close;
    by rewrite (bind_ret_eq _ _ _ _ _ (closable_at_whole _ _ _ Hd)), Hc.
Qed.

(** X1.  Close is idempotent for every descriptor class: once [close]
    has returned, the descriptor is not closable, and every further
    [close] returns and leaves the whole world as it is (no second
    [::close], no second drain). *)
Theorem X1_close_idempotent a w w1 :
  descriptor_close a w = (Ret tt, w1) →
  (∃ d, heap w1 !! a = Some d ∧ closable d = false) ∧
  descriptor_close a w1 = (Ret tt, w1) ∧
  (descriptor_close a;; descriptor_close a) w = (Ret tt, w1).
Proof.
  intros H. destruct (descriptor_close_cell _ _ _ H) as (d & d' & evs & _ & Hd' & Hc & _).
  assert (descriptor_close a w1 = (Ret (), w1)) as H2
    by by eapply descriptor_close_not_open.
  split_and!; [eauto|done|]. by rewrite (bind_ret_eq _ _ _ _ _ H).
Qed.

(** X2.  [open] on a descriptor that is open does nothing, for every
    class but one case: a standard stream or plain descriptor is never
    touched, a pipe end or buffer with [fd() >= 0] is left alone, and a
    file is left alone when [fd() > 0]. *)
Theorem X2_open_when_open E a d w :
  heap w !! a = Some d →
  (cls d = Descriptor ∨ cls d = Odescriptor ∨ cls d = Idescriptor ∨
   (0 < fd_ d)%Z ∨ (fd_ d = 0%Z ∧ file_class (cls d) = None)) →
  descriptor_open E a w = (Ret tt, w).
Proof.
  intros Hd Hcase. unfold descriptor_open.
  rewrite (bind_ret_eq _ _ _ _ _ (load_ret _ _ _ Hd)).
  assert (cls d ≠ Descriptor → (0 ≤ fd_ d)%Z → closable d = true) as Hcl.
  { intros Hn Hfd. unfold closable. destruct (cls d); try done; by apply Z.leb_le. }
  destruct (cls d) eqn:Hcls; try done;
    destruct Hcase as [?|[?|[?|[Hpos|[Hz Hf]]]]]; try done;
    unfold file_descriptor_open, opipe_descriptor_open, ipipe_descriptor_open,
      ivariable_descriptor_open;
    first
      [ rewrite (bind_ret_eq _ _ _ _ _ (load_ret _ _ _ Hd));
        by rewrite (proj2 (Z.ltb_lt _ _) Hpos)
      | rewrite (bind_ret_eq _ _ _ _ _ (closable_at_whole _ _ _ Hd)), Hcl; [done|done|lia] ].
Qed.

(** ** Files *)

Lemma fd_install_lowest_free e t :
  fd_install (lowest_free t) e t !! lowest_free t = Some (Some e).
Proof. apply fd_install_lookup, lowest_free_le. Qed.

(** X3.  [open] on a file descriptor whose [fd_] is not positive calls
    [::open] with the path and flags of the object.  If the call fails
    (the file cannot be opened, or no descriptor is free) the OS error
    for [open] is thrown with the path and [errno], and neither the heap
    nor the descriptor table has changed.  If it succeeds the object
    holds the lowest free descriptor, which the table maps to the file. *)
Theorem X3_file_open E a d path mode w :
  heap w !! a = Some d →
  file_class (cls d) = Some (path, mode) →
  (fd_ d ≤ 0)%Z →
  let r := descriptor_open E a w in
  let n := lowest_free (fdtab w) in
  match open_errno E path mode with
  | Some e =>
      r.1 = Throw (os_error ["open"; path] e) ∧
      heap r.2 = heap w ∧ fdtab r.2 = fdtab w ∧
      trace r.2 = trace w ++ [EvOpen path mode (-1)]
  | None =>
      if (n <? fd_limit E)%nat
      then r.1 = Ret tt ∧
           heap r.2 !! a = Some {| fd_ := Z.of_nat n; cls := cls d |} ∧
           fdtab r.2 !! n = Some (Some (FdFile path mode)) ∧
           trace r.2 = trace w ++ [EvOpen path mode (Z.of_nat n)]
      else r.1 = Throw (os_error ["open"; path] EMFILE) ∧
           heap r.2 = heap w ∧ fdtab r.2 = fdtab w ∧
           trace r.2 = trace w ++ [EvOpen path mode (-1)]
  end.
Proof.
  intros Hd Hf Hfd r n. subst r.
  assert (descriptor_open E a w = file_descriptor_open E a path mode w) as ->.
  { unfold descriptor_open. rewrite (bind_ret_eq _ _ _ _ _ (load_ret _ _ _ Hd)).
    destruct (cls d); inversion Hf; by subst. }
  unfold file_descriptor_open.
  rewrite (bind_ret_eq _ _ _ _ _ (load_ret _ _ _ Hd)).
  rewrite (proj2 (Z.ltb_ge _ _) Hfd).
  rewrite bind_unfold. unfold sys_open. fold n.
  destruct (open_errno E path mode) as [e|]; [done|].
  destruct (n <? fd_limit E)%nat; [|done].
  rewrite (proj2 (Z.leb_le 0 (Z.of_nat n))) by lia.
  match goal with |- context [set_fd _ _ ?w2] =>
    assert (heap w2 !! a = Some d) as Hd' by done;
    rewrite (set_fd_whole _ _ _ _ Hd')
  end.
  simpl. split_and!; [done| |apply fd_install_lowest_free|done].
  apply list_lookup_insert_eq. by eapply lookup_lt_Some.
Qed.

(** ** Exit codes *)

Lemma WEXITSTATUS_mod s : WEXITSTATUS s = ((s / 256) `mod` 256)%Z.
Proof.
  unfold WEXITSTATUS. rewrite Z.shiftr_land.
  change (Z.shiftr 65280 8) with (Z.ones 8).
  rewrite Z.land_ones, Z.shiftr_div_pow2 by lia. reflexivity.
Qed.

Lemma WEXITSTATUS_range s : (0 ≤ WEXITSTATUS s < 256)%Z.
Proof. rewrite WEXITSTATUS_mod. apply Z.mod_pos_bound. lia. Qed.

Lemma WEXITSTATUS_exit n : (0 ≤ n < 256)%Z → WEXITSTATUS (n * 256) = n.
Proof.
  intros Hn. rewrite WEXITSTATUS_mod, Z.div_mul by lia. by apply Z.mod_small.
Qed.

Lemma lookup_child_removed pid cs : lookup_child pid (remove_child pid cs) = None.
Proof.
  unfold lookup_child, remove_child.
  induction cs as [|[q ws] cs IH]; [done|]. simpl.
  destruct (Z.eqb_spec q pid) as [->|Hne]; simpl; [done|].
  by rewrite (proj2 (Z.eqb_neq q pid) Hne).
Qed.

(** X4.  [wait] on a spawned process whose child the kernel still holds
    returns [WEXITSTATUS] of the child's wait status and reaps the
    child, so for a child that exited with [n] (0 to 255) it returns
    [n]; whatever the status, the result lies between 0 and 255.  A
    second [wait] finds no child: [::waitpid] fails, its result is not
    looked at, and [wait] returns 0. *)
Theorem X4_wait_exit_code p x pid ws w :
  procs w !! p = Some x → pid_ x = Some pid →
  lookup_child pid (children w) = Some ws →
  ∃ w1, wait p w = (Ret (WEXITSTATUS ws), w1) ∧
    (0 ≤ WEXITSTATUS ws < 256)%Z ∧
    (∀ n, (0 ≤ n < 256)%Z → ws = (n * 256)%Z → WEXITSTATUS ws = n) ∧
    lookup_child pid (children w1) = None ∧
    (wait p w1).1 = Ret 0%Z.
Proof.
  intros Hx Hp Hc. rewrite (wait_run _ _ _ _ Hx Hp), Hc. eexists. split; [done|].
  split; [apply WEXITSTATUS_range|]. split; [intros n Hn ->; by apply WEXITSTATUS_exit|].
  simpl. split; [apply lookup_child_removed|].
  match goal with |- (wait p ?w1).1 = _ =>
    rewrite (wait_run p x pid w1) by done
  end.
  simpl. by rewrite lookup_child_removed.
Qed.

(** ** Reading and writing *)

Lemma string_app_assoc (s1 s2 s3 : string) : (s1 +:+ s2) +:+ s3 = s1 +:+ (s2 +:+ s3).
Proof.
  induction s1 as [|c s1 IH]; [done|].
  change (String c ((s1 +:+ s2) +:+ s3) = String c (s1 +:+ (s2 +:+ s3))). by f_equal.
Qed.

Lemma string_app_nil_r (s : string) : s +:+ "" = s.
Proof.
  induction s as [|c s IH]; [done|].
  change (String c (s +:+ "") = String c s). by f_equal.
Qed.

Lemma write_loop_written fd script total r s evs :
  (0 ≤ total)%Z →
  write_loop fd script total = (r, s, evs) →
  Forall (λ e, ∃ len, e = EvWrite fd len) evs ∧
  match r with
  | None => written evs = total
  | Some e => WrErr e ∈ script ∧ (written evs < total)%Z
  end.
Proof.
  revert total r s evs. induction script as [|[n|e] rest IH]; intros total r s evs Ht; simpl.
  - destruct (Z.leb_spec total 0); intros [= <- <- <-]; simpl; split; eauto; lia.
  - destruct (Z.leb_spec total 0); [intros [= <- <- <-]; simpl; split; [done|lia]|].
    destruct (write_loop fd rest (total - Z.max 0 (Z.min n total))) as [[r' s'] evs'] eqn:Hw.
    intros [= <- <- <-]. apply IH in Hw as [Hf Hr]; [|lia].
    split; [constructor; eauto|].
    destruct r' as [e|]; simpl.
    + destruct Hr as [Hin Hlt]. split; [by right|lia].
    + lia.
  - destruct (Z.leb_spec total 0); intros [= <- <- <-]; simpl; split; eauto.
    + lia.
    + split; [by left|lia].
Qed.

Lemma read_loop_drained fd script out :
  let '(o, l, e, r, evs) := read_loop fd script out in
  o = out +:+ drained script ∧ Forall (λ e, ∃ len, e = EvRead fd len) evs.
Proof.
  revert out. induction script as [|[s|e] rest IH]; intros out; simpl.
  - rewrite string_app_nil_r. eauto.
  - destruct (0 <? Z.of_nat (String.length s))%Z.
    + specialize (IH (out +:+ s)).
      destruct (read_loop fd rest (out +:+ s)) as [[[[o l] e] r] evs].
      destruct IH as [-> Hf]. rewrite string_app_assoc. split; [done|constructor; eauto].
    + rewrite string_app_nil_r. eauto.
  - rewrite string_app_nil_r. eauto.
Qed.


Lemma idescriptor_read_run this fd w :
  get_fd this w = (Ret fd, w) →
  idescriptor_read this w =
    let '(o, l, e, r, evs) := read_loop fd (reads w) "" in
    (Ret o, set_trace (trace w ++ evs)
              (set_reads r (set_errno (if (l <? 0)%Z then e else errno w) w))).
Proof.
  intros Hfd. unfold idescriptor_read. rewrite (bind_ret_eq _ _ _ _ _ Hfd).
  rewrite bind_unfold.
  destruct (read_loop fd (reads w) "") as [[[[o l] e] r] evs].
  unfold discard. by destruct (l <? 0)%Z.
Qed.

(** X7.  [odescriptor::write] either hands the whole string to the
    kernel, in [::write] calls on its descriptor whose accepted lengths
    add up to the size of the string, or throws the OS error for
    [write] with the [errno] of the [::write] that failed, after fewer
    bytes than that.  It touches neither the heap nor the descriptor
    table. *)
Theorem X7_write_all_or_os_error this input fd w o w' :
  get_fd this w = (Ret fd, w) →
  odescriptor_write this input w = (o, w') →
  heap w' = heap w ∧ fdtab w' = fdtab w ∧
  ∃ evs, trace w' = trace w ++ evs ∧
    Forall (λ e, ∃ len, e = EvWrite fd len) evs ∧
    match o with
    | Ret _ => written evs = Z.of_nat (String.length input)
    | Throw e =>
        ∃ n, e = os_error ["write"] n ∧ WrErr n ∈ writes w ∧ errno w' = n ∧
             (written evs < Z.of_nat (String.length input))%Z
    | Undef => False
    end.
Proof.
  intros Hfd. unfold odescriptor_write. rewrite (bind_ret_eq _ _ _ _ _ Hfd).
  rewrite bind_unfold.
  destruct (write_loop fd (writes w) (Z.of_nat (String.length input))) as [[r s] evs] eqn:Hw.
  apply write_loop_written in Hw as [Hf Hr]; [|lia].
  destruct r as [e|]; intros [= <- <-]; simpl; (split; [done|split; [done|]]);
    exists evs; split_and!; try done.
  destruct Hr. eauto.
Qed.

(** X8.  [idescriptor::read] returns what the read end yields up to
    the first empty [::read] or the first failure, on every script of
    kernel answers; it makes only [::read] calls on its descriptor and
    never throws. *)
Theorem X8_read_drains this fd w :
  get_fd this w = (Ret fd, w) →
  ∃ w', idescriptor_read this w = (Ret (drained (reads w)), w') ∧
    heap w' = heap w ∧ fdtab w' = fdtab w ∧ vars w' = vars w ∧
    ∃ evs, trace w' = trace w ++ evs ∧ Forall (λ e, ∃ len, e = EvRead fd len) evs.
Proof.
  intros Hfd. unfold idescriptor_read. rewrite (bind_ret_eq _ _ _ _ _ Hfd).
  rewrite bind_unfold.
  pose proof (read_loop_drained fd (reads w) "") as Hr.
  destruct (read_loop fd (reads w) "") as [[[[o l] e] r] evs].
  destruct Hr as [-> Hf]. simpl.
  unfold discard. destruct (l <? 0)%Z; simpl; eexists; split_and!; try done; eauto.
Qed.


(** ** The buffer descriptors *)

Lemma descriptor_close_run this fd w :
  closable_at this w = (Ret true, w) → get_fd this w = (Ret fd, w) →
  odescriptor_close this w =
    set_fd this (-1) (set_trace (trace w ++ [EvClose this fd])
                        (set_fdtab (fd_release fd (fdtab w)) w)) ∧
  idescriptor_close this w = odescriptor_close this w.
Proof.
  intros Hc Hfd. split; [|done]. unfold odescriptor_close.
  rewrite (bind_ret_eq _ _ _ _ _ Hc), (bind_ret_eq _ _ _ _ _ Hfd). done.
Qed.

(** X9.  [close] on an output buffer with both pipe ends open closes
    the write end first, then reads the read end until it is drained,
    assigns what it read to the variable, and closes the read end: the
    events are in that order, both descriptors are released and both
    [fd_] are -1 afterwards. *)
Theorem X9_output_buffer_close a fd l o sub w :
  heap w !! a = Some {| fd_ := fd; cls := Ovariable_descriptor l o sub |} →
  (0 ≤ fd)%Z → (0 ≤ sub_fd_ sub)%Z → o < length (vars w) →
  ∃ w' evs, descriptor_close a w = (Ret tt, w') ∧
    vars w' = <[o := drained (reads w)]> (vars w) ∧
    heap w' = <[a := {| fd_ := -1;
                        cls := Ovariable_descriptor l o
                                 {| sub_fd_ := -1; sub_linked_fd_ := sub_linked_fd_ sub |} |}]>
                (heap w) ∧
    fdtab w' = fd_release (sub_fd_ sub) (fd_release fd (fdtab w)) ∧
    trace w' = trace w ++ [EvClose (Whole a) fd] ++ evs ++ [EvClose (Member a) (sub_fd_ sub)] ∧
    Forall (λ e, ∃ len, e = EvRead (sub_fd_ sub) len) evs.
Proof.
  intros Hd Hfd Hsub Ho.
  assert (a < length (heap w)) as Ha by (by eapply lookup_lt_Some).
  unfold descriptor_close. rewrite (bind_ret_eq _ _ _ _ _ (load_ret _ _ _ Hd)). simpl.
  unfold ovariable_descriptor_close.
  pose proof (closable_at_whole _ _ _ Hd) as Hc.
  assert (closable {| fd_ := fd; cls := Ovariable_descriptor l o sub |} = true) as Hcl
    by (by apply Z.leb_le).
  rewrite Hcl in Hc. rewrite (bind_ret_eq _ _ _ _ _ Hc). simpl.
  assert (get_fd (Whole a) w = (Ret fd, w)) as Hg
    by (unfold get_fd; by rewrite (bind_ret_eq _ _ _ _ _ (load_ret _ _ _ Hd))).
  destruct (descriptor_close_run _ _ _ Hc Hg) as [Hoc _].
  match type of Hoc with _ = set_fd _ _ ?w0 =>
    assert (heap w0 !! a = Some {| fd_ := fd; cls := Ovariable_descriptor l o sub |}) as Hd0
      by exact Hd;
    rewrite (set_fd_whole _ _ _ _ Hd0) in Hoc
  end.
  rewrite (bind_ret_eq _ _ _ _ _ Hoc). clear Hoc.
  match goal with |- context [(idescriptor_read _ ≫= _) ?w1] => set (w1' := w1) end.
  assert (heap w1' !! a = Some {| fd_ := -1; cls := Ovariable_descriptor l o sub |}) as Hd1
    by (by apply list_lookup_insert_eq).
  destruct (get_fd_member _ _ _ w1' Hd1 eq_refl) as (Hg1 & _ & _).
  rewrite bind_unfold, (idescriptor_read_run _ _ _ Hg1).
  pose proof (read_loop_drained (sub_fd_ sub) (reads w) "") as Hr.
  change (reads w1') with (reads w).
  destruct (read_loop (sub_fd_ sub) (reads w) "") as [[[[out len] e] r] evs].
  destruct Hr as [-> Hf].
  rewrite bind_unfold. unfold assign_var at 1. simpl.
  rewrite (proj2 (Nat.ltb_lt _ _) Ho).
  match goal with |- context [(idescriptor_close _ ≫= _) ?w1] => set (w2 := w1) end.
  assert (heap w2 !! a = Some {| fd_ := -1; cls := Ovariable_descriptor l o sub |}) as Hd2
    by exact Hd1.
  destruct (get_fd_member _ _ _ w2 Hd2 eq_refl) as (Hg2 & Hc2 & Hs2).
  rewrite (proj2 (Z.leb_le _ _) Hsub) in Hc2.
  destruct (descriptor_close_run _ _ _ Hc2 Hg2) as [Hoc Hic].
  rewrite bind_unfold, Hic, Hoc. clear Hoc Hic.
  match goal with |- context [set_fd _ _ ?w1] => set (w3 := w1) end.
  assert (heap w3 !! a = Some {| fd_ := -1; cls := Ovariable_descriptor l o sub |}) as Hd3
    by exact Hd1.
  destruct (get_fd_member _ _ _ w3 Hd3 eq_refl) as (_ & _ & Hs3).
  rewrite Hs3. cbv beta iota.
  match goal with |- context [(load a ≫= _) ?w1] => set (w4 := w1) end.
  assert (heap w4 !! a = Some {| fd_ := -1; cls := Ovariable_descriptor l o
            {| sub_fd_ := -1; sub_linked_fd_ := sub_linked_fd_ sub |} |}) as Hd4.
  { subst w4. simpl. apply list_lookup_insert_eq. by rewrite length_insert. }
  rewrite (bind_ret_eq _ _ _ _ _ (load_ret _ _ _ Hd4)). unfold store, modify.
  eexists _, evs. split; [reflexivity|]. simpl.
  split_and!; try done.
  - by rewrite !list_insert_insert_eq.
  - by rewrite <- !app_assoc.
Qed.


(** ** What [execute] can throw *)

Lemma throws_only_bind {A B} P (m : M A) (k : A → M B) :
  throws_only P m → (∀ a, throws_only P (k a)) → throws_only P (m ≫= k).
Proof.
  intros Hm Hk w e. rewrite bind_unfold. specialize (Hm w).
  destruct (m w) as [[a|e'|] w1]; simpl in *; [apply Hk| |done].
  intros [= ->]. by apply Hm.
Qed.

Lemma no_throw_throws_only {A} P (m : M A) : no_throw m → throws_only P m.
Proof. intros Hm w e He. by destruct (Hm w e). Qed.

Lemma throws_only_throw {A} (P : exn → Prop) e : P e → throws_only P (@throw A e).
Proof. intros He w e' [= <-]. done. Qed.

Lemma no_throw_get_process p : no_throw (get_process p).
Proof. intros w e. unfold get_process. by destruct (procs w !! p). Qed.
Lemma no_throw_sys_open E path mode : no_throw (sys_open E path mode).
Proof.
  intros w e. unfold sys_open. destruct (open_errno E path mode); [done|].
  by destruct (_ <? _).
Qed.
Lemma no_throw_sys_pipe E : no_throw (sys_pipe E).
Proof. intros w e. unfold sys_pipe. by destruct (pipe_fds E w) as [[r wr]|]. Qed.
Lemma no_throw_sys_posix_spawnp E argv acts : no_throw (sys_posix_spawnp E argv acts).
Proof. intros w e. unfold sys_posix_spawnp. by destruct (spawnp_of E argv acts). Qed.
Lemma no_throw_sys_waitpid pid : no_throw (sys_waitpid pid).
Proof. intros w e. unfold sys_waitpid. by destruct (lookup_child pid (children w)). Qed.

Lemma throws_only_mono {A} (P Q : exn → Prop) (m : M A) :
  (∀ e, P e → Q e) → throws_only P m → throws_only Q m.
Proof. intros HPQ Hm w e He. eapply HPQ, Hm, He. Qed.

Lemma no_throw_write_loop fd input :
  no_throw (λ w, let '(r, s, evs) := write_loop fd (writes w) (Z.of_nat (String.length input)) in
          (Ret r,
           set_trace (trace w ++ evs) (set_writes s (set_errno (default (errno w) r) w)))).
Proof. intros w e. by destruct (write_loop _ (writes w) _) as [[r s] evs]. Qed.

Lemma prepare_error_pipe n : prepare_error (os_error ["pipe"] n).
Proof. exists n. by left. Qed.
Lemma prepare_error_write n : prepare_error (os_error ["write"] n).
Proof. exists n. right. by left. Qed.
Lemma prepare_error_open path n : prepare_error (os_error ["open"; path] n).
Proof. exists n. right. right. by exists path. Qed.

Create HintDb throws discriminated.
#[local] Hint Resolve no_throw_ret no_throw_undefined no_throw_modify no_throw_gets
  no_throw_load no_throw_assign_var no_throw_get_fd no_throw_set_fd no_throw_closable_at
  no_throw_get_process no_throw_sys_open no_throw_sys_pipe no_throw_sys_posix_spawnp
  no_throw_sys_waitpid no_throw_odescriptor_close no_throw_write_loop
  prepare_error_pipe prepare_error_write prepare_error_open : throws.

(** Decompose a goal [throws_only P m] along the structure of [m]. *)
Ltac throws_tac :=
  repeat first
    [ apply no_throw_throws_only; solve [eauto with throws]
    | apply throws_only_throw; solve [eauto with throws]
    | match goal with
      | |- throws_only _ (_ ≫= _) => apply throws_only_bind; [|intros]
      | |- throws_only _ (match ?x with _ => _ end) => destruct x
      | |- throws_only _ (let '(_, _) := ?x in _) => destruct x
      end ].

Lemma prepare_error_descriptor_open E a : throws_only prepare_error (descriptor_open E a).
Proof.
  unfold descriptor_open, file_descriptor_open, opipe_descriptor_open,
    ivariable_descriptor_open, ipipe_descriptor_open, set_linked_fd, odescriptor_write.
  throws_tac.
Qed.

Lemma prepare_error_execute_actions E x : throws_only prepare_error (execute_actions E x).
Proof.
  unfold execute_actions, process_fds, shell_expander, sys_wordexp, actions_dup,
    actions_close, log.
  throws_tac; apply prepare_error_descriptor_open.
Qed.

Lemma execute_spawn_error E p sh action :
  throws_only (λ e, ∃ file n, e = os_error ["posix_spawnp:"; file] n ∧ n ≠ 0%Z)
    (execute_spawn E p sh action).
Proof.
  intros w e. unfold execute_spawn, argv0.
  destruct sh as [[|file args]|]; try done.
  rewrite (bind_ret_eq _ _ w (file, file :: args) w) by done.
  rewrite bind_unfold. unfold sys_posix_spawnp.
  destruct (spawnp_of E (file :: args) (actions_ action)) as [err|ws].
  - destruct (bool_decide_reflect (err ≠ 0%Z)) as [Hne|].
    + intros [= <-]. eauto.
    + unfold get_process, put_process. mrun_with idtac. by destruct (procs w !! p).
  - destruct (bool_decide_reflect (0%Z ≠ 0%Z)) as [Hne|]; [done|].
    unfold get_process, put_process. mrun_with idtac. by destruct (procs w !! p).
Qed.

Lemma execute_throw_inv E p w e w' :
  execute E p w = (Throw e, w') →
  (x ← get_process p;
   '(sh, action) ← execute_actions E x;
   execute_spawn E p sh action;; mret x) (set_trace (trace w ++ [EvExecute p]) w)
  = (Throw e, w').
Proof.
  intros H. unfold execute in H.
  throw_inv H as [H|(x & w1 & Hs & H)].
  - unfold execute_spawned in H.
    throw_inv H as [H|([] & w0 & H0 & H)]; [done|]. by inversion H0; subst w0.
  - exfalso.
    assert (no_throw (execute_close x;; log (EvExecuted p))) as Hn.
    { apply no_throw_bind; [apply no_throw_execute_close|]. intros. apply no_throw_modify. }
    apply (Hn w1 e). by rewrite H.
Qed.

Lemma execute_error_execute E p : throws_only execute_error (execute E p).
Proof.
  intros w e He. destruct (execute E p w) as [o w'] eqn:H. simpl in He. subst o.
  apply execute_throw_inv in H.
  revert H. generalize (set_trace (trace w ++ [EvExecute p]) w). intros w0 H.
  assert (throws_only execute_error
            (x ← get_process p;
             '(sh, action) ← execute_actions E x;
             execute_spawn E p sh action;; mret x)) as Ht.
  { apply throws_only_bind; [by apply no_throw_throws_only, no_throw_get_process|].
    intros x. apply throws_only_bind.
    - eapply throws_only_mono; [|apply prepare_error_execute_actions]. by left.
    - intros [sh action]. apply throws_only_bind.
      + eapply throws_only_mono; [|apply execute_spawn_error]. by right.
      + intros. by apply no_throw_throws_only, no_throw_ret. }
  apply (Ht w0). by rewrite H.
Qed.


(** ** What [run] can end in *)

Lemma execute_ret_procs E p w w' :
  execute E p w = (Ret tt, w') →
  ∃ x pid, procs w !! p = Some x ∧ procs w' = <[p := with_pid x pid]> (procs w).
Proof.
  intros H. unfold execute in H.
  bind_inv H as (x & w1 & Hs & H). bind_inv H as ([] & w2 & Hc & H).
  inversion H; subst w'; clear H.
  destruct (execute_spawned_ret _ _ _ _ _ Hs) as (pre & argv & acts & pid & Hx & _ & _ & Hp).
  destruct (steps_execute_close x w1) as (Hpr & _). rewrite Hc in Hpr. simpl in Hpr.
  exists x, pid. split; [done|]. simpl. by rewrite Hpr, Hp.
Qed.

Lemma execute_has_pid E p q w w' :
  execute E p w = (Ret tt, w') → (q = p ∨ has_pid q w) → has_pid q w'.
Proof.
  intros H Hq. apply execute_ret_procs in H as (x & pid & Hx & Hp).
  unfold has_pid in *. rewrite Hp.
  destruct (decide (q = p)) as [->|Hne].
  - exists (with_pid x pid). split; [|by eexists].
    apply list_lookup_insert_eq. by eapply lookup_lt_Some.
  - destruct Hq as [?|(y & Hy & Hpid)]; [done|]. exists y.
    by rewrite list_lookup_insert_ne.
Qed.

Lemma execute_all_has_pid E ps w w' :
  execute_all E ps w = (Ret tt, w') →
  ∀ q, (q ∈ ps ∨ has_pid q w) → has_pid q w'.
Proof.
  revert w. induction ps as [|p ps IH]; intros w H q Hq; simpl in H.
  - inversion H; subst. destruct Hq as [Hq|Hq]; [|done]. by apply elem_of_nil in Hq.
  - bind_inv H as ([] & w1 & H1 & H). apply (IH _ H).
    destruct Hq as [[->|Hq]%elem_of_cons|Hq]; [right|by left|right];
      eapply execute_has_pid; eauto.
Qed.

Lemma wait_has_pid p w :
  has_pid p w →
  ∃ ws w', wait p w = (Ret (WEXITSTATUS ws), w') ∧ procs w' = procs w.
Proof.
  intros (x & Hx & [pid Hp]). rewrite (wait_run _ _ _ _ Hx Hp).
  destruct (lookup_child pid (children w)) as [ws|]; [by exists ws; eexists|].
  exists 0%Z. by eexists.
Qed.

Lemma wait_all_has_pid ps s0 w :
  (0 ≤ s0 < 256)%Z → (∀ q, q ∈ ps → has_pid q w) →
  ∃ s w', wait_all ps s0 w = (Ret s, w') ∧ (0 ≤ s < 256)%Z.
Proof.
  revert s0 w. induction ps as [|p ps IH]; intros s0 w Hs Hps; simpl.
  - by exists s0, w.
  - destruct (wait_has_pid p w) as (ws & w1 & Hw & Hpr); [apply Hps; by left|].
    rewrite (bind_ret_eq _ _ _ _ _ Hw). apply IH; [apply WEXITSTATUS_range|].
    intros q Hq. destruct (Hps q) as (y & Hy & Hpid); [by right|].
    exists y. by rewrite Hpr.
Qed.

Lemma execute_error_execute_all E ps : throws_only execute_error (execute_all E ps).
Proof.
  induction ps as [|p ps IH]; simpl.
  - by apply no_throw_throws_only, no_throw_ret.
  - apply throws_only_bind; [apply execute_error_execute|done].
Qed.

Lemma execute_error_not_command what code : ¬ execute_error (command_error what code).
Proof. intros [(n & [H|[H|(path & H)]])|(file & n & H & _)]; discriminate. Qed.

Lemma run_nothrow_outcome E c w o w' :
  run_nothrow E c w = (o, w') →
  match o with
  | Ret status =>
      (0 ≤ status < 256)%Z ∧
      ∃ w1, execute_all E (processes_ c) w = (Ret tt, w1) ∧
            wait_all (processes_ c) 0 w1 = (Ret status, w')
  | Throw e => execute_error e ∧ execute_all E (processes_ c) w = (Throw e, w')
  | Undef => execute_all E (processes_ c) w = (Undef, w')
  end.
Proof.
  unfold run_nothrow. rewrite bind_unfold.
  destruct (execute_all E (processes_ c) w) as [[[]|e|] w1] eqn:He; intros H.
  - destruct (wait_all_has_pid (processes_ c) 0 w1) as (s & w2 & Hw & Hs); [lia| |].
    { intros q Hq. eapply execute_all_has_pid; eauto. }
    rewrite Hw in H. inversion H; subst. eauto.
  - inversion H; subst. split; [|done].
    apply (execute_error_execute_all E (processes_ c) w). by rewrite He.
  - by inversion H; subst.
Qed.

(** X5.  [run(std::nothrow)] never throws a usage error: once every
    [execute] has returned, every [wait] finds a [pid_] and the second
    loop runs to its end.  It throws nothing but an OS error of an
    [execute], and what it returns is an exit status between 0 and
    255. *)
Theorem X5_run_nothrow_outcomes E c w o w' :
  run_nothrow E c w = (o, w') →
  match o with
  | Ret status =>
      (0 ≤ status < 256)%Z ∧
      ∃ w1, execute_all E (processes_ c) w = (Ret tt, w1) ∧
            wait_all (processes_ c) 0 w1 = (Ret status, w')
  | Throw e => execute_error e ∧ execute_all E (processes_ c) w = (Throw e, w')
  | Undef => execute_all E (processes_ c) w = (Undef, w')
  end.
Proof. apply run_nothrow_outcome. Qed.

(** X6.  [run()] returns only 0.  When the pipeline ran and its status
    is not 0 it throws the command error that carries the status, a
    number from 1 to 255; an OS error of the pipeline is passed on.
    In each case the world is the one [run(std::nothrow)] leaves. *)
Theorem X6_run_outcomes E c w o w' :
  run E c w = (o, w') →
  match o with
  | Ret status => status = 0%Z ∧ run_nothrow E c w = (Ret 0%Z, w')
  | Throw (command_error what code) =>
      what = ["command exitstatus"; pretty code] ∧ (1 ≤ code < 256)%Z ∧
      run_nothrow E c w = (Ret code, w')
  | Throw e => execute_error e ∧ run_nothrow E c w = (Throw e, w')
  | Undef => run_nothrow E c w = (Undef, w')
  end.
Proof.
  unfold run. rewrite bind_unfold.
  pose proof (run_nothrow_outcome E c w) as Ho.
  destruct (run_nothrow E c w) as [[s|e|] w1] eqn:Hr; intros H.
  - destruct (Ho _ _ eq_refl) as [Hs _].
    destruct (bool_decide_reflect (s ≠ 0%Z)) as [Hne|Heq]; inversion H; subst.
    + split; [done|split; [lia|done]].
    + assert (s = 0%Z) as -> by (by destruct (decide (s = 0%Z))). done.
  - inversion H; subst. destruct (Ho _ _ eq_refl) as [He _].
    destruct e; try done. by apply execute_error_not_command in He.
  - by inversion H; subst.
Qed.

(** ** Building a command *)

Lemma get_process_ret p x w : procs w !! p = Some x → get_process p w = (Ret x, w).
Proof. intros Hx. unfold get_process. by rewrite Hx. Qed.

Lemma process_set_run p x w :
  procs w !! p = Some x →
  (∀ fd, process_in p fd w = (Ret tt, set_procs (<[p := with_in x fd]> (procs w)) w)) ∧
  (∀ fd, process_out p fd w = (Ret tt, set_procs (<[p := with_out x fd]> (procs w)) w)) ∧
  (∀ fd, process_err p fd w = (Ret tt, set_procs (<[p := with_err x fd]> (procs w)) w)).
Proof.
  intros Hx. unfold process_in, process_out, process_err.
  split_and!; intros fd; by rewrite (bind_ret_eq _ _ _ _ _ (get_process_ret _ _ _ Hx)).
Qed.

Lemma front_ret c p w : head (processes_ c) = Some p → front c w = (Ret p, w).
Proof. unfold front. by destruct (processes_ c) as [|q ps]; intros [= ->]. Qed.

Lemma back_ret c p w : last (processes_ c) = Some p → back c w = (Ret p, w).
Proof. intros H. unfold back. by rewrite H. Qed.

Lemma link_run fd1 fd2 d1 d2 w :
  heap w !! fd1 = Some d1 → cls d1 = Ipipe_descriptor None →
  heap w !! fd2 = Some d2 → cls d2 = Opipe_descriptor None →
  link fd1 fd2 w =
    (Ret tt,
     set_heap (<[fd2 := {| fd_ := fd_ d2; cls := Opipe_descriptor (Some (Whole fd1)) |}]>
                 (<[fd1 := {| fd_ := fd_ d1; cls := Ipipe_descriptor (Some (Whole fd2)) |}]>
                    (heap w))) w).
Proof.
  intros H1 C1 H2 C2.
  assert (fd1 ≠ fd2) as Hne by (intros ->; congruence).
  unfold link, set_linked, store. mrun_with ltac:(rewrite ?H1, ?H2, ?C1, ?C2).
  rewrite list_lookup_insert_ne by done.
  change (list_lookup fd2 (heap w)) with (heap w !! fd2). rewrite H2. simpl.
  by rewrite C2.
Qed.

Lemma create_pipe_run w :
  create_pipe w =
    (Ret (length (heap w), S (length (heap w))),
     set_heap (heap w ++ linked_pair (length (heap w)) (S (length (heap w)))) w).
Proof.
  set (n := length (heap w)).
  unfold create_pipe.
  rewrite (bind_ret_eq _ _ w n (set_heap (heap w ++ [new_ipipe n]) w)) by done.
  set (w0 := set_heap ((heap w ++ [new_ipipe n]) ++ [new_opipe (S n)]) w).
  rewrite (bind_ret_eq _ _ _ (S n) w0).
  2:{ unfold make_descriptor. simpl. rewrite length_app. simpl. fold n. by rewrite Nat.add_1_r. }
  assert (heap w0 !! n = Some (new_ipipe n)) as H1.
  { simpl. rewrite <- app_assoc. by apply list_lookup_middle. }
  assert (heap w0 !! S n = Some (new_opipe (S n))) as H2.
  { simpl. apply list_lookup_middle. rewrite length_app. simpl. lia. }
  rewrite (bind_ret_eq _ _ _ _ _ (link_run _ _ _ _ w0 H1 eq_refl H2 eq_refl)).
  unfold mret, M_ret. f_equal. subst w0. unfold set_heap. simpl. f_equal.
  rewrite <- app_assoc. simpl.
  rewrite !insert_app_r_alt by (fold n; lia). fold n.
  replace (S n - n) with 1 by lia. by rewrite Nat.sub_diag.
Qed.

(** X11.  [a | b] makes two new descriptor objects, a read end and a
    write end linked to each other and both not open, puts the read end
    into the stdin slot of the first process of [b] and the write end
    into the stdout slot of the last process of [a], and appends the
    processes of [b] to those of [a].  Nothing else changes: no system
    call is made, the pipe itself is created by a later [open]. *)
Theorem X11_pipe_operator c other pf pb xf xb w :
  head (processes_ other) = Some pf → last (processes_ c) = Some pb →
  procs w !! pf = Some xf → procs w !! pb = Some xb → pf ≠ pb →
  let r := length (heap w) in
  let wr := S r in
  command_pipe c other w =
    (Ret {| processes_ := processes_ c ++ processes_ other |},
     set_procs (<[pb := with_out xb wr]> (<[pf := with_in xf r]> (procs w)))
       (set_heap (heap w ++ linked_pair r wr) w)).
Proof.
  intros Hf Hb Hxf Hxb Hne r wr. unfold command_pipe.
  rewrite (bind_ret_eq _ _ _ _ _ (create_pipe_run w)). fold r wr. cbv beta iota.
  set (w1 := set_heap _ w).
  rewrite (bind_ret_eq _ _ _ _ _ (front_ret _ _ w1 Hf)).
  destruct (process_set_run pf xf w1 Hxf) as (Hin & _ & _).
  rewrite (bind_ret_eq _ _ _ _ _ (Hin r)).
  match goal with |- context [(back c ≫= _) ?w0] => set (w2 := w0) end.
  rewrite (bind_ret_eq _ _ _ _ _ (back_ret _ _ w2 Hb)).
  assert (procs w2 !! pb = Some xb) as Hxb2.
  { subst w2. simpl. by rewrite list_lookup_insert_ne. }
  destruct (process_set_run pb xb w2 Hxb2) as (_ & Hout & _).
  by rewrite (bind_ret_eq _ _ _ _ _ (Hout wr)).
Qed.

(** X12.  In a pipeline [<] sets the stdin slot of the first process
    and [>], [>=] set the stdout and stderr slot of the last one;
    [> err] gives stdout the descriptor object that stderr has and
    [>= out] gives stderr the one that stdout has.  The command is
    returned as it is, and only that slot of that process changes. *)
Theorem X12_redirect_first_and_last c pf pb xf xb fd w :
  head (processes_ c) = Some pf → last (processes_ c) = Some pb →
  procs w !! pf = Some xf → procs w !! pb = Some xb →
  op_lt_descriptor c fd w = (Ret c, set_procs (<[pf := with_in xf fd]> (procs w)) w) ∧
  op_gt_descriptor c fd w = (Ret c, set_procs (<[pb := with_out xb fd]> (procs w)) w) ∧
  op_ge_descriptor c fd w = (Ret c, set_procs (<[pb := with_err xb fd]> (procs w)) w) ∧
  op_gt_err c w = (Ret c, set_procs (<[pb := with_out xb (stderr_fd_ xb)]> (procs w)) w) ∧
  op_ge_out c w = (Ret c, set_procs (<[pb := with_err xb (stdout_fd_ xb)]> (procs w)) w).
Proof.
  intros Hf Hb Hxf Hxb.
  destruct (process_set_run pf xf w Hxf) as (Hin & _ & _).
  destruct (process_set_run pb xb w Hxb) as (_ & Hout & Herr).
  unfold op_lt_descriptor, op_gt_descriptor, op_ge_descriptor, op_gt_err, op_ge_out,
    process_out_err, process_err_out.
  rewrite (bind_ret_eq _ _ _ _ _ (front_ret _ _ w Hf)).
  rewrite !(bind_ret_eq _ _ _ _ _ (back_ret _ _ w Hb)).
  rewrite (bind_ret_eq _ _ _ _ _ (Hin fd)), (bind_ret_eq _ _ _ _ _ (Hout fd)),
    (bind_ret_eq _ _ _ _ _ (Herr fd)).
  split_and!; try done.
  - rewrite bind_unfold, (bind_ret_eq _ _ _ _ _ (get_process_ret _ _ _ Hxb)).
    by rewrite Hout.
  - rewrite bind_unfold, (bind_ret_eq _ _ _ _ _ (get_process_ret _ _ _ Hxb)).
    by rewrite Herr.
Qed.

Lemma make_descriptor_run mk w :
  make_descriptor mk w = (Ret (length (heap w)), set_heap (heap w ++ [mk (length (heap w))]) w).
Proof. done. Qed.

(** X13.  The four output redirections to a path make a new output
    file object for that path, not yet open, and put it into the stdout
    slot ([>], [>>]) or the stderr slot ([>=], [>>=]) of the last
    process.  Its flags hold [O_WRONLY] and [O_CREAT]; with [>] and
    [>=] they hold [O_TRUNC] and not [O_APPEND], with [>>] and [>>=]
    [O_APPEND] and not [O_TRUNC]. *)
Theorem X13_path_redirect_flags c pb xb file_name w :
  last (processes_ c) = Some pb → procs w !! pb = Some xb →
  let a := length (heap w) in
  let made mode := set_heap (heap w ++ [ {| fd_ := -1; cls := Ofile_descriptor file_name mode |} ]) w in
  (∃ mode,
     op_gt_path c file_name w =
       (Ret c, set_procs (<[pb := with_out xb a]> (procs w)) (made mode)) ∧
     op_ge_path c file_name w =
       (Ret c, set_procs (<[pb := with_err xb a]> (procs w)) (made mode)) ∧
     has_flag O_WRONLY mode ∧ has_flag O_CREAT mode ∧ has_flag O_TRUNC mode ∧
     Z.land mode O_APPEND = 0%Z) ∧
  (∃ mode,
     op_shr_path c file_name w =
       (Ret c, set_procs (<[pb := with_out xb a]> (procs w)) (made mode)) ∧
     op_shreq_path c file_name w =
       (Ret c, set_procs (<[pb := with_err xb a]> (procs w)) (made mode)) ∧
     has_flag O_WRONLY mode ∧ has_flag O_CREAT mode ∧ has_flag O_APPEND mode ∧
     Z.land mode O_TRUNC = 0%Z).
Proof.
  intros Hb Hxb a made.
  assert (∀ mode,
    let w1 := made mode in
    op_gt_descriptor c a w1 = (Ret c, set_procs (<[pb := with_out xb a]> (procs w)) w1) ∧
    op_ge_descriptor c a w1 = (Ret c, set_procs (<[pb := with_err xb a]> (procs w)) w1)) as H.
  { intros mode w1. assert (procs w1 !! pb = Some xb) as Hx1 by exact Hxb.
    destruct (process_set_run pb xb w1 Hx1) as (_ & Hout & Herr).
    unfold op_gt_descriptor, op_ge_descriptor.
    rewrite !(bind_ret_eq _ _ _ _ _ (back_ret _ _ w1 Hb)).
    by rewrite (bind_ret_eq _ _ _ _ _ (Hout a)), (bind_ret_eq _ _ _ _ _ (Herr a)). }
  split.
  - exists (Z.lor O_WRONLY (Z.lor O_CREAT O_TRUNC)).
    destruct (H (Z.lor O_WRONLY (Z.lor O_CREAT O_TRUNC))) as [H1 H2].
    unfold op_gt_path, op_ge_path.
    rewrite !(bind_ret_eq _ _ _ _ _ (make_descriptor_run _ w)).
    split_and!; [exact H1|exact H2|done..].
  - exists (Z.lor O_WRONLY (Z.lor O_CREAT O_APPEND)).
    destruct (H (Z.lor O_WRONLY (Z.lor O_CREAT O_APPEND))) as [H1 H2].
    unfold op_shr_path, op_shreq_path, op_shr_descriptor, op_shreq_descriptor.
    rewrite !(bind_ret_eq _ _ _ _ _ (make_descriptor_run _ w)).
    split_and!; [exact H1|exact H2|done..].
Qed.

(** ** The order of the spawn actions *)

Lemma actions_dup_shape E action a t w action' w' :
  actions_dup E action a t w = (Ret action', w') →
  actions_ action' = actions_ action ∨
  ∃ f, (0 ≤ f)%Z ∧ actions_ action' = actions_ action ++ [AddDup2 f t].
Proof.
  unfold actions_dup. mrun_with idtac.
  destruct (heap w !! a) as [d|]; simpl; intros H; inversion H. simpl.
  unfold adddup2, spawn_valid_fd.
  destruct (Z.leb_spec 0 (fd_ d)); simpl; [|by left].
  destruct (_ && _); [|by left]. right. eauto.
Qed.

Lemma actions_close_shape E action a w action' w' :
  actions_close E action a w = (Ret action', w') →
  ∃ cl, actions_ action' = actions_ action ++ cl ∧ Forall is_close cl.
Proof.
  unfold actions_close. mrun_with idtac.
  destruct (heap w !! a) as [d|] eqn:Hd; simpl; [|intros H; by inversion H].
  change (list_lookup a (heap w)) with (heap w !! a). rewrite Hd. simpl.
  destruct (closable d && negb (bool_decide (fd_ d ∈ closed_fds_ action)));
    intros H; inversion H; simpl.
  - unfold addclose. destruct (spawn_valid_fd _ _).
    + exists [AddClose (fd_ d)]. split; [done|]. by constructor.
    + exists []. by rewrite app_nil_r.
  - exists []. by rewrite app_nil_r.
Qed.

Lemma process_fds_shape E action a t w action' w' :
  process_fds E action a t w = (Ret action', w') →
  actions_ action' = actions_ action ∨
  ∃ f, (0 ≤ f)%Z ∧ actions_ action' = actions_ action ++ [AddDup2 f t].
Proof.
  intros H. unfold process_fds in H. bind_inv H as ([] & w1 & _ & H).
  by eapply actions_dup_shape.
Qed.

(** X14.  The action list that [execute] builds is a list of dup2
    actions followed by a list of close actions: no descriptor is
    closed in the child before all three standard descriptors are in
    place.  The dup2 actions have sources that are not negative, and
    their targets are among 0, 1, 2, in this order and each at most
    once. *)
Theorem X14_dups_before_closes E x w sh action w1 :
  execute_actions E x w = (Ret (sh, action), w1) →
  ∃ dups closes, actions_ action = dups ++ closes ∧
    Forall is_dup dups ∧ sublist (dup_targets dups) [0; 1; 2]%Z ∧
    Forall is_close closes.
Proof.
  intros H. unfold execute_actions in H.
  bind_inv H as (sh0 & w0 & _ & H).
  bind_inv H as (a1 & w2 & H1 & H). apply process_fds_shape in H1.
  bind_inv H as (a2 & w3 & H2 & H). apply process_fds_shape in H2.
  bind_inv H as (a3 & w4 & H3 & H). apply process_fds_shape in H3.
  bind_inv H as (a4 & w5 & H4 & H). apply actions_close_shape in H4 as (c4 & H4 & F4).
  bind_inv H as (a5 & w6 & H5 & H). apply actions_close_shape in H5 as (c5 & H5 & F5).
  bind_inv H as (a6 & w7 & H6 & H). apply actions_close_shape in H6 as (c6 & H6 & F6).
  inversion H; subst sh0 a6 w7; clear H.
  exists (actions_ a3), (c4 ++ c5 ++ c6). split_and!.
  - by rewrite H6, H5, H4, <- !app_assoc.
  - destruct H3 as [->|(f3 & ? & ->)], H2 as [->|(f2 & ? & ->)], H1 as [->|(f1 & ? & ->)];
      unfold new_actions; simpl; repeat constructor; done.
  - destruct H3 as [->|(f3 & ? & ->)], H2 as [->|(f2 & ? & ->)], H1 as [->|(f1 & ? & ->)];
      unfold new_actions; simpl; repeat first [apply sublist_skip | apply sublist_cons | apply sublist_nil].
  - by rewrite !Forall_app.
Qed.

(** ** A process without redirections *)

(** Fold [list_lookup] back into [!!]. *)
Ltac refold_lookup :=
  repeat match goal with
         | |- context [list_lookup ?i ?l] => change (list_lookup i l) with (l !! i)
         end.

Lemma adddup2_valid n fd t acts :
  (0 ≤ fd < Z.of_nat n)%Z → (0 ≤ t < Z.of_nat n)%Z →
  adddup2 n fd t acts = acts ++ [AddDup2 fd t].
Proof.
  intros Hfd Ht. unfold adddup2, spawn_valid_fd.
  rewrite (proj2 (Z.leb_le 0 fd)), (proj2 (Z.ltb_lt fd _)) by lia.
  by rewrite (proj2 (Z.leb_le 0 t)), (proj2 (Z.ltb_lt t _)) by lia.
Qed.

(** X16.  A process that is constructed and executed without any
    redirection uses the three cached standard descriptor objects: if
    the descriptor limit is at least 3, the expansion yields a program
    and [posix_spawnp] succeeds,
    [execute] returns, the only system calls are [wordexp] and
    [posix_spawnp], the action list is dup2 of 0, 1, 2 onto themselves
    with no close action, nothing is opened or closed in the parent,
    and the process holds the pid of the new child. *)
Theorem X16_plain_process E cmd rc file args ws w :
  take 3 (heap w) = standard_heap →
  3 ≤ fd_limit E →
  wordexp_of E cmd = (rc, Some (file :: args)) →
  spawnp_of E (file :: args) [AddDup2 0 0; AddDup2 1 1; AddDup2 2 2] = Spawned ws →
  let p := length (procs w) in
  let acts := [AddDup2 0 0; AddDup2 1 1; AddDup2 2 2] in
  ∃ w', (p ← posix_process_new cmd; execute E p) w = (Ret tt, w') ∧
    trace w' = trace w ++ [EvExecute p; EvWordexp cmd rc;
                           EvSpawn (file :: args) acts 0 (next_pid w); EvExecuted p] ∧
    heap w' = heap w ∧ fdtab w' = fdtab w ∧
    children w' = (next_pid w, ws) :: children w ∧
    procs w' = procs w ++ [ {| cmd_ := cmd; stdin_fd_ := std_in; stdout_fd_ := std_out;
                               stderr_fd_ := std_err; pid_ := Some (next_pid w) |} ].
Proof.
  intros Hh Hlim Hw Hs p acts.
  assert (∀ i, i < 3 → heap w !! i = standard_heap !! i) as Hi.
  { intros i Hlt. by rewrite <- Hh, lookup_take_lt. }
  pose proof (Hi 0 ltac:(lia)) as H0. pose proof (Hi 1 ltac:(lia)) as H1.
  pose proof (Hi 2 ltac:(lia)) as H2. simpl in H0, H1, H2. clear Hi.
  assert (∀ q, (procs w ++ [q]) !! length (procs w) = Some q) as Hp
    by (intros q; by apply list_lookup_middle).
  subst p acts.
  unfold execute, execute_spawned, execute_actions, execute_close, execute_spawn, process_fds,
    shell_expander, sys_wordexp, argv0, descriptor_open, descriptor_close, actions_dup,
    actions_close, posix_process_new, get_process, put_process, sys_posix_spawnp, std_in,
    std_out, std_err.
  mrun_with ltac:(refold_lookup; rewrite ?Hp, ?Hw, ?H0, ?H1, ?H2).
  rewrite !adddup2_valid by lia. simpl.
  rewrite Hs.
  mrun_with ltac:(refold_lookup; rewrite ?Hp, ?Hw, ?H0, ?H1, ?H2).
  eexists. split; [reflexivity|]. simpl.
  split_and!; try done.
  - by rewrite <- !app_assoc.
  - rewrite insert_app_r_alt by lia. by rewrite Nat.sub_diag.
Qed.
(** ** The further properties on concrete runs *)

(** The output buffer of [cat]: closed once, then closed again. *)
Lemma X1_witness :
  descriptor_close 4 cat_prepared = (Ret tt, cat_closed) ∧
  descriptor_close 4 cat_closed = (Ret tt, cat_closed).
Proof.
  split; [vm_compute; reflexivity|].
  destruct (X1_close_idempotent 4 cat_prepared cat_closed) as (_ & H & _);
    [vm_compute; reflexivity|exact H].
Defined.

(** [open] on the open output buffer of [cat]. *)
Lemma X2_witness :
  heap cat_prepared !! 4 =
    Some {| fd_ := 5; cls := Ovariable_descriptor (Some (Member 4)) 0
                               {| sub_fd_ := 4; sub_linked_fd_ := None |} |} ∧
  descriptor_open demo_env 4 cat_prepared = (Ret tt, cat_prepared).
Proof.
  split; [vm_compute; reflexivity|].
  apply (X2_open_when_open demo_env 4
           {| fd_ := 5; cls := Ovariable_descriptor (Some (Member 4)) 0
                                 {| sub_fd_ := 4; sub_linked_fd_ := None |} |} cat_prepared).
  - vm_compute; reflexivity.
  - right. right. right. left. simpl. lia.
Defined.

(** The first [open] of [out.txt] gets descriptor 3. *)
Lemma X3_witness :
  heap file_world !! 3 = Some {| fd_ := -1; cls := Ofile_descriptor "out.txt" 577 |} ∧
  (descriptor_open demo_env 3 file_world).1 = Ret tt ∧
  heap (descriptor_open demo_env 3 file_world).2 !! 3 =
    Some {| fd_ := 3; cls := Ofile_descriptor "out.txt" 577 |}.
Proof.
  split; [vm_compute; reflexivity|].
  destruct (X3_file_open demo_env 3 {| fd_ := -1; cls := Ofile_descriptor "out.txt" 577 |}
              "out.txt" 577 file_world) as (H1 & H2 & _);
    [vm_compute; reflexivity|reflexivity|simpl; lia|].
  split; [exact H1|exact H2].
Defined.

(** [false] exits with 1: wait status 256. *)
Lemma X4_witness :
  procs false_executed !! 0 = Some (with_pid false_process 100) ∧
  lookup_child 100 (children false_executed) = Some 256%Z ∧
  ∃ w1, wait 0 false_executed = (Ret 1%Z, w1) ∧ (wait 0 w1).1 = Ret 0%Z.
Proof.
  split; [vm_compute; reflexivity|]. split; [vm_compute; reflexivity|].
  destruct (X4_wait_exit_code 0 (with_pid false_process 100) 100 256 false_executed)
    as (w1 & H1 & _ & _ & _ & H2);
    [vm_compute; reflexivity|reflexivity|vm_compute; reflexivity|].
  exists w1. split; [exact H1|exact H2].
Defined.

(** [false | true] returns the status of [true]. *)
Lemma X5_witness :
  run_nothrow demo_env false_true_command false_true_world = (Ret 0%Z, false_true_final) ∧
  ∃ w1, execute_all demo_env [0; 1] false_true_world = (Ret tt, w1) ∧
        wait_all [0; 1] 0 w1 = (Ret 0%Z, false_true_final).
Proof.
  split; [vm_compute; reflexivity|].
  destruct (X5_run_nothrow_outcomes demo_env false_true_command false_true_world
              (Ret 0%Z) false_true_final) as [_ H];
    [vm_compute; reflexivity|exact H].
Defined.

(** [run()] on [false] throws the command error for status 1. *)
Lemma X6_witness :
  run demo_env false_command false_world =
    (Throw (command_error ["command exitstatus"; "1"] 1), false_run) ∧
  run_nothrow demo_env false_command false_world = (Ret 1%Z, false_run).
Proof.
  split; [vm_compute; reflexivity|].
  destruct (X6_run_outcomes demo_env false_command false_world
              (Throw (command_error ["command exitstatus"; "1"] 1)) false_run)
    as (_ & _ & H);
    [vm_compute; reflexivity|exact H].
Defined.

(** Three bytes to standard output, in two [::write] calls. *)
Lemma X7_witness :
  get_fd (Whole 1) short_write_world = (Ret 1%Z, short_write_world) ∧
  ∃ evs, trace (odescriptor_write (Whole 1) "abc" short_write_world).2 =
           trace short_write_world ++ evs ∧
         written evs = 3%Z.
Proof.
  split; [vm_compute; reflexivity|].
  destruct (X7_write_all_or_os_error (Whole 1) "abc" 1 short_write_world (Ret tt)
              (odescriptor_write (Whole 1) "abc" short_write_world).2)
    as (_ & _ & evs & Ht & _ & Hw);
    [vm_compute; reflexivity|vm_compute; reflexivity|].
  exists evs. split; [exact Ht|exact Hw].
Defined.

(** A read that fails after three bytes returns the three bytes. *)
Lemma X8_witness :
  get_fd (Whole 0) failing_read_world = (Ret 0%Z, failing_read_world) ∧
  ∃ w', idescriptor_read (Whole 0) failing_read_world = (Ret "par", w').
Proof.
  split; [vm_compute; reflexivity|].
  destruct (X8_read_drains (Whole 0) 0 failing_read_world) as (w' & H & _);
    [vm_compute; reflexivity|].
  exists w'. exact H.
Defined.

(** The output buffer of [cat] collects what the child wrote. *)
Lemma X9_witness :
  heap cat_prepared !! 4 =
    Some {| fd_ := 5; cls := Ovariable_descriptor (Some (Member 4)) 0
                               {| sub_fd_ := 4; sub_linked_fd_ := None |} |} ∧
  ∃ w' evs, descriptor_close 4 cat_prepared = (Ret tt, w') ∧
    vars w' = ["hi"] ∧
    trace w' = trace cat_prepared ++ [EvClose (Whole 4) 5] ++ evs ++ [EvClose (Member 4) 4].
Proof.
  split; [vm_compute; reflexivity|].
  destruct (X9_output_buffer_close 4 5 (Some (Member 4)) 0
              {| sub_fd_ := 4; sub_linked_fd_ := None |} cat_prepared)
    as (w' & evs & H & Hv & _ & _ & Ht & _);
    [vm_compute; reflexivity|lia|simpl; lia|vm_compute; lia|].
  exists w', evs. split; [exact H|]. split; [exact Hv|exact Ht].
Defined.


(** [false | true]: the new pipe ends are the cells 3 and 4. *)
Lemma X11_witness :
  procs two_commands_world !! 1 = Some true_process ∧
  procs two_commands_world !! 0 = Some false_process ∧
  command_pipe false_command true_command two_commands_world =
    (Ret false_true_command,
     set_procs [with_out false_process 4; with_in true_process 3]
       (set_heap (standard_heap ++ linked_pair 3 4) two_commands_world)).
Proof.
  split; [reflexivity|]. split; [reflexivity|].
  apply (X11_pipe_operator false_command true_command 1 0 true_process false_process
           two_commands_world); [reflexivity..|lia].
Defined.

(** [false > err]: stdout gets the descriptor object of stderr. *)
Lemma X12_witness :
  procs false_world !! 0 = Some false_process ∧
  op_gt_err false_command false_world =
    (Ret false_command, set_procs [with_out false_process 2] false_world).
Proof.
  split; [reflexivity|].
  destruct (X12_redirect_first_and_last false_command 0 0 false_process false_process 1
              false_world) as (_ & _ & _ & H & _); [reflexivity..|exact H].
Defined.

(** [false >> out.txt] appends. *)
Lemma X13_witness :
  procs false_world !! 0 = Some false_process ∧
  ∃ mode,
    op_shr_path false_command "out.txt" false_world =
      (Ret false_command,
       set_procs [with_out false_process 3]
         (set_heap (standard_heap ++ [ {| fd_ := -1; cls := Ofile_descriptor "out.txt" mode |} ])
            false_world)) ∧
    has_flag O_APPEND mode ∧ Z.land mode O_TRUNC = 0%Z.
Proof.
  split; [reflexivity|].
  destruct (X13_path_redirect_flags false_command 0 false_process "out.txt" false_world)
    as (_ & mode & H & _ & _ & _ & Ha & Ht); [reflexivity..|].
  exists mode. split; [exact H|]. split; [exact Ha|exact Ht].
Defined.

(** The actions for [cat]: three dup2, then two close. *)
Lemma X14_witness :
  execute_actions demo_env cat_process cat_world = (Ret (Some ["cat"], cat_actions), cat_prepared) ∧
  ∃ dups closes, actions_ cat_actions = dups ++ closes ∧
    Forall is_dup dups ∧ Forall is_close closes.
Proof.
  split; [vm_compute; reflexivity|].
  destruct (X14_dups_before_closes demo_env cat_process cat_world (Some ["cat"])
              cat_actions cat_prepared) as (dups & closes & H & Hd & _ & Hc);
    [vm_compute; reflexivity|].
  exists dups, closes. split; [exact H|]. split; [exact Hd|exact Hc].
Defined.


(** [false] as constructed: the child gets the standard streams. *)
Lemma X16_witness :
  ∃ w', (p ← posix_process_new "false"; execute demo_env p) demo_world = (Ret tt, w') ∧
    trace w' = [EvExecute 0; EvWordexp "false" 0;
                EvSpawn ["false"] [AddDup2 0 0; AddDup2 1 1; AddDup2 2 2] 0 100;
                EvExecuted 0] ∧
    fdtab w' = fdtab demo_world.
Proof.
  destruct (X16_plain_process demo_env "false" 0 "false" [] 256 demo_world)
    as (w' & H & Ht & _ & Hf & _); [reflexivity|simpl; lia|reflexivity..|].
  exists w'. split; [exact H|]. split; [exact Ht|exact Hf].
Defined.
